(** * lenstronomy.Data.imaging_data : the [Data] class

    A shallow embedding of [src/lenstronomy/Data/imaging_data.py] and the
    properties of its masking, noise model, PSF pipeline and fit statistics.

    Modelling conventions.
    - numpy floats are exact rationals ([Qc]) extended with the IEEE special
      values that numpy produces instead of raising: [x/0] is [inf], [-inf]
      or [nan].  Rounding and signed zeros are not modelled; where a
      property depends on them, its statement bounds the magnitudes (see
      [moderate]), and [Float64] runs the arithmetic in binary64.
    - arrays hold floats: the dtype of an array is not modelled (an integer
      array truncates what is assigned to it).
    - Python exceptions are the [Raise] branch of [result].
    - arrays handed over by the caller live in a heap and are referred to by
      location, so that in-place assignments ([a[cond] = v]) are visible to
      every holder of the array; arrays created by an expression
      ([a[cond]], [a / b], [np.zeros_like a]) are fresh values.
    - [print] appends to the [stdout] component of the world. *)

From Stdlib Require Import QArith Qcanon ZArith Lia.
From Stdlib Require PrimFloat.
From stdpp Require Import base option list gmap strings.

Local Open Scope Qc_scope.

(** ** Numbers *)

Module Num.

Inductive num : Type :=
| Fin (q : Qc)
| PInf
| NInf
| NaN.

Definition inf_of_sign (c : comparison) : num :=
  match c with Gt => PInf | Lt => NInf | Eq => NaN end.

Definition nneg (x : num) : num :=
  match x with
  | Fin q => Fin (- q)
  | PInf => NInf
  | NInf => PInf
  | NaN => NaN
  end.

Definition nadd (x y : num) : num :=
  match x, y with
  | NaN, _ | _, NaN => NaN
  | Fin a, Fin b => Fin (a + b)
  | PInf, NInf | NInf, PInf => NaN
  | PInf, _ | _, PInf => PInf
  | NInf, _ | _, NInf => NInf
  end.

Definition nsub (x y : num) : num := nadd x (nneg y).

Definition nmul (x y : num) : num :=
  match x, y with
  | NaN, _ | _, NaN => NaN
  | Fin a, Fin b => Fin (a * b)
  | PInf, Fin b | Fin b, PInf => inf_of_sign (b ?= 0)
  | NInf, Fin b | Fin b, NInf => inf_of_sign (CompOpp (b ?= 0))
  | PInf, PInf | NInf, NInf => PInf
  | PInf, NInf | NInf, PInf => NInf
  end.

(** numpy true division: a zero divisor gives a special value, never an
    exception. *)
Definition ndiv (x y : num) : num :=
  match x, y with
  | NaN, _ | _, NaN => NaN
  | Fin a, Fin b =>
      if decide (b = 0) then inf_of_sign (a ?= 0) else Fin (a / b)
  | Fin _, (PInf | NInf) => Fin 0
  | PInf, Fin b => match b ?= 0 with Lt => NInf | _ => PInf end
  | NInf, Fin b => match b ?= 0 with Lt => PInf | _ => NInf end
  | (PInf | NInf), (PInf | NInf) => NaN
  end.

Definition nabs (x : num) : num :=
  match x with
  | Fin q => Fin (match q ?= 0 with Lt => - q | _ => q end)
  | PInf | NInf => PInf
  | NaN => NaN
  end.

(** [x ** 2] *)
Definition npow2 (x : num) : num := nmul x x.

(** Comparisons; every comparison with [nan] is false. *)
Definition ncmp (x y : num) : option comparison :=
  match x, y with
  | NaN, _ | _, NaN => None
  | Fin a, Fin b => Some (a ?= b)
  | PInf, PInf | NInf, NInf => Some Eq
  | PInf, _ | _, NInf => Some Gt
  | NInf, _ | _, PInf => Some Lt
  end.

Definition nltb (x y : num) : bool :=
  match ncmp x y with Some Lt => true | _ => false end.
Definition nleb (x y : num) : bool :=
  match ncmp x y with Some (Lt | Eq) => true | _ => false end.
Definition ngeb (x y : num) : bool := nleb y x.
Definition neqb (x y : num) : bool :=
  match ncmp x y with Some Eq => true | _ => false end.

Definition is_fin (x : num) : Prop :=
  match x with Fin _ => True | _ => False end.

(** [x > 0] as a proposition: [nan] is not positive. *)
Definition npos (x : num) : Prop := nltb (Fin 0) x = true.

Definition of_Z (z : Z) : num := Fin (Q2Qc (inject_Z z)).
Definition of_Q (q : Q) : num := Fin (Q2Qc q).

End Num.
Export Num.

(** ** Python results, exceptions and the mutable world *)

Inductive exn : Type :=
| KeyError (key : string)
| ValueError (what : string)
| IndexError (what : string)
| TypeError (what : string).

Inductive result (A : Type) : Type :=
| Ok (a : A)
| Raise (e : exn).
Arguments Ok {A} a.
Arguments Raise {A} e.

Definition rbind {A B} (r : result A) (k : A → result B) : result B :=
  match r with Ok a => k a | Raise e => Raise e end.

Definition rmap {A B} (f : A → B) (r : result A) : result B :=
  rbind r (λ a, Ok (f a)).

Definition is_raise {A} (r : result A) : Prop :=
  match r with Raise _ => True | Ok _ => False end.

#[global] Instance result_ret : MRet result := λ A a, Ok a.
#[global] Instance result_bind : MBind result := λ A B k r, rbind r k.
#[global] Instance result_fmap : FMap result := λ A B f r, rmap f r.

(** What [print] writes: the format string and the value spliced into it. *)
Inductive msg : Type :=
| Msg (text : string)
| MsgNum (text : string) (x : num).

Definition loc := nat.

Record world : Type := World {
  heap : gmap loc (list num);
  stdout : list msg
}.

(** Stateful code: a Python exception leaves the mutations made so far. *)
Definition M (A : Type) : Type := world → result A * world.

Definition ret {A} (a : A) : M A := λ w, (Ok a, w).
Definition raise {A} (e : exn) : M A := λ w, (Raise e, w).
Definition bind {A B} (m : M A) (k : A → M B) : M B :=
  λ w, match m w with
       | (Ok a, w') => k a w'
       | (Raise e, w') => (Raise e, w')
       end.
Definition lift {A} (r : result A) : M A := λ w, (r, w).

#[global] Instance M_ret : MRet M := λ A a, ret a.
#[global] Instance M_bind : MBind M := λ A B k m, bind m k.

Definition print (m : msg) : M unit :=
  λ w, (Ok tt, World (heap w) (stdout w ++ [m])).

Definition read (l : loc) : M (list num) :=
  λ w, match heap w !! l with
       | Some a => (Ok a, w)
       | None => (Raise (TypeError "not an array"), w)
       end.

Definition write (l : loc) (a : list num) : M unit :=
  λ w, (Ok tt, World (<[l := a]> (heap w)) (stdout w)).

Definition alloc (a : list num) : M loc :=
  λ w, let l := fresh (dom (heap w)) in
       (Ok l, World (<[l := a]> (heap w)) (stdout w)).

(** ** numpy on one-dimensional arrays *)

Definition broadcast_error : exn :=
  ValueError "operands could not be broadcast together".

(** Element-wise binary operation with numpy's broadcasting rule for two
    1-d arrays: equal lengths, or one of the two has length 1. *)
Definition broadcast2 (op : num → num → num) (a b : list num)
  : result (list num) :=
  if decide (length a = length b) then Ok (zip_with op a b)
  else match a, b with
       | [x], _ => Ok (map (op x) b)
       | _, [y] => Ok (map (λ x, op x y) a)
       | _, _ => Raise broadcast_error
       end.

(** An operand of an arithmetic expression: a Python/numpy scalar or a 1-d
    array. *)
Inductive value : Type :=
| Scal (x : num)
| Arr (v : list num).

Definition np_binop (op : num → num → num) (a b : value) : result value :=
  match a, b with
  | Scal x, Scal y => Ok (Scal (op x y))
  | Scal x, Arr v => Ok (Arr (map (op x) v))
  | Arr u, Scal y => Ok (Arr (map (λ x, op x y) u))
  | Arr u, Arr v => rmap Arr (broadcast2 op u v)
  end.

Definition np_unop (f : num → num) (a : value) : value :=
  match a with Scal x => Scal (f x) | Arr v => Arr (map f v) end.

Definition np_sum_list (v : list num) : num := foldr nadd (Fin 0) v.

Definition np_sum (a : value) : num :=
  match a with Scal x => x | Arr v => np_sum_list v end.

(** [np.mean]: the mean of an empty array is [nan] (0/0). *)
Definition np_mean (v : list num) : num :=
  ndiv (np_sum_list v) (of_Z (Z.of_nat (length v))).

(** [np.maximum] on two scalars propagates [nan]. *)
Definition nmax (x y : num) : num :=
  match ncmp x y with
  | None => NaN
  | Some Lt => y
  | Some _ => x
  end.

(** [np.max]: raises on an empty array. *)
Definition np_max (v : list num) : result num :=
  match v with
  | [] => Raise (ValueError "zero-size array to reduction operation maximum which has no identity")
  | x :: v' => Ok (foldl nmax x v')
  end.

Definition np_zeros (n : nat) : list num := replicate n (Fin 0).
Definition np_ones (n : nat) : list num := replicate n (Fin 1).
Definition np_zeros_like (a : list num) : list num := np_zeros (length a).
Definition np_ones_like (a : list num) : list num := np_ones (length a).

(** [np.repeat(a, k, axis=0)]: every element, in order, [k] times. *)
Definition np_repeat {A} (a : list A) (k : nat) : list A :=
  concat (map (replicate k) a).

(** The elements of [a] at the positions where [sel] is true. *)
Fixpoint select {A} (sel : list bool) (a : list A) : list A :=
  match sel, a with
  | b :: sel', x :: a' => if b then x :: select sel' a' else select sel' a'
  | _, _ => []
  end.

Definition index_error : exn :=
  IndexError "boolean index did not match indexed array".

(** [a[sel]] with a boolean array [sel]: a fresh array; the lengths must
    agree. *)
Definition bool_index (a : list num) (sel : list bool) : result (list num) :=
  if decide (length sel = length a) then Ok (select sel a)
  else Raise index_error.

Definition count_true (sel : list bool) : nat :=
  length (filter (λ b, b = true) sel).

(** Overwrite, in order, the positions of [a] where [sel] is true with the
    elements of [vs]. *)
Fixpoint scatter (sel : list bool) (a vs : list num) : list num :=
  match sel, a with
  | b :: sel', x :: a' =>
      if b then match vs with
                | v :: vs' => v :: scatter sel' a' vs'
                | [] => x :: scatter sel' a' []
                end
      else x :: scatter sel' a' vs
  | _, _ => a
  end.

(** The content of [a] after [a[sel] = vs] with an array [vs]: [vs] has as
    many elements as [sel] selects, or a single one that is broadcast. *)
Definition bool_assign (a : list num) (sel : list bool) (vs : list num)
  : result (list num) :=
  if decide (length sel = length a) then
    if decide (length vs = count_true sel) then Ok (scatter sel a vs)
    else match vs with
         | [v] => Ok (scatter sel a (replicate (count_true sel) v))
         | _ => Raise (ValueError "NumPy boolean array indexing assignment cannot assign input values")
         end
  else Raise index_error.

(** The content of [a] after [a[sel] = v] with a scalar [v]. *)
Definition bool_assign_scalar (a : list num) (sel : list bool) (v : num)
  : result (list num) :=
  if decide (length sel = length a) then
    Ok (zip_with (λ (b : bool) x, if b then v else x) sel a)
  else Raise index_error.

(** ** astrofunc.util reshaping helpers *)

Definition image : Type := list (list num).

(** Rows of length [ny], [nx] of them, taken in order from [a]. *)
Fixpoint reshape_rows (nx ny : nat) (a : list num) : image :=
  match nx with
  | O => []
  | S nx' => take ny a :: reshape_rows nx' ny (drop ny a)
  end.

(** Modelled from the spec: [util.array2image] of the external package
    astrofunc, a generic array-to-image reshaping helper; here with both
    sizes given, the row-major [array.reshape(nx, ny)], which raises when the
    sizes do not multiply to the length. *)
Definition util_array2image (array : list num) (nx ny : nat) : result image :=
  if decide (length array = nx * ny)%nat then Ok (reshape_rows nx ny array)
  else Raise (ValueError "cannot reshape array").

(** Modelled from the spec: [util.image2array] of astrofunc, the row-major
    flattening of a 2-d image. *)
Definition util_image2array (img : image) : list num := concat img.

(** ** The [Data] class *)

(** [f] in [covariance_matrix] and [self._exp_map]: a Python number
    ([isinstance(f, int) or isinstance(f, float)]) or an array. *)
Inductive exposure : Type :=
| Scalar (t : num)
| Map (l : loc).

(** The configuration dictionary [kwargs_data]; a key that is absent from the
    dictionary is [None].  Arrays are the caller's objects. *)
Record kwargs_data : Type := KwargsData {
  kw_image_data : option loc;
  kw_idex_mask : option loc;
  kw_sigma_background : option num;
  kw_exposure_map : option loc;
  kw_exp_time : option num;
  kw_numPix_xy : option (nat * nat);
  kw_mask : option loc;
  kw_mask_lens_light : option loc
}.

(** The attributes of a [Data] object.  [_idex_mask], [_data_pure] and
    [_mask_pure] are references to arrays that the caller may also hold;
    the other array attributes are created by the constructor. *)
Record Data : Type := MkData {
  _subgrid_res : nat;
  _lens_light_mask : bool;
  _idex_mask : loc;
  _idex_mask_bool : bool;
  _sigma_b : num;
  _exp_map : exposure;
  _data : list num;
  _data_pure : loc;
  C_D : value;
  _nx : nat;
  _ny : nat;
  _mask : list num;
  _mask_pure : loc;
  _mask_lens_light : list num;
  _idex_mask_sub : list num;
  _psf_subgrid : bool;
  (** [self._coords.pixel_size], from the [Coordinates] class *)
  deltaPix : num
}.

(** [a == c] and [a <= c], [a < c], [a >= c] element-wise against a scalar *)
Definition eq_mask (a : list num) (c : num) : list bool := map (λ x, neqb x c) a.
Definition le_mask (a : list num) (c : num) : list bool := map (λ x, nleb x c) a.
Definition lt_mask (a : list num) (c : num) : list bool := map (λ x, nltb x c) a.
Definition ge_mask (a : list num) (c : num) : list bool := map (λ x, ngeb x c) a.

Definition unstable_warning : string :=
  "WARNING! sigma_b*f %s >1 may introduce unstable error estimates".

(** [Data.covariance_matrix(d, sigma_b, f)].  The data [d] is only read and
    is passed by value; the exposure [f] is overwritten in place when it is
    an array. *)
Definition covariance_matrix (d : list num) (sigma_b : num) (f : exposure)
  : M value :=
  f' ← match f with
       | Scalar t =>
           if nleb t (Fin 0) then mret (Scal (Fin 1)) else mret (Scal t)
       | Map l =>
           fv ← read l;
           let mean_exp_time := np_mean fv in
           let floor := ndiv mean_exp_time (of_Z 10) in
           fv' ← lift (bool_assign_scalar fv (lt_mask fv floor) floor);
           write l fv';;
           mret (Arr fv')
       end;
  fmax ← match f' with
         | Scal t => mret t
         | Arr fv => lift (np_max fv)
         end;
  (if nltb (nmul sigma_b fmax) (Fin 1)
   then print (MsgNum unstable_warning (nmul sigma_b fmax))
   else mret tt);;
  let d_pos0 := np_zeros_like d in
  vals ← lift (bool_index d (ge_mask d (Fin 0)));
  d_pos ← lift (bool_assign d_pos0 (ge_mask d (Fin 0)) vals);
  q ← lift (np_binop ndiv (Arr d_pos) f');
  sigma ← lift (np_binop nadd q (Scal (npow2 sigma_b)));
  mret sigma.

(** [Data._subgrid_idex(idex_mask, subgrid_res, nx, ny)] *)
Definition _subgrid_idex (idex_mask : list num) (subgrid_res nx ny : nat)
  : result (list num) :=
  let idex_sub := np_repeat idex_mask subgrid_res in
  idex_sub ← util_array2image idex_sub nx (ny * subgrid_res);
  let idex_sub := np_repeat idex_sub subgrid_res in
  mret (util_image2array idex_sub).

(** [Data.__init__].  The coordinate grids ([x_grid], [x_grid_sub], built by
    [util.make_grid] and [util.make_subgrid]) carry no weight in what follows
    and are left out; [pixel_size] stands for the pixel size of the
    [Coordinates] object.  The lines left out can raise (they do on a grid
    that is not square), so the embedding returns on configurations on
    which the code raises.  Without [numPix_xy] the code takes
    the floating square root of the data length; the model keeps its integer
    part, whereas [array2image] of the code needs an integer shape: what is
    proved of the layout of a constructed object is stated for
    configurations that give [numPix_xy]. *)
Definition Data_init (kwargs : kwargs_data) (subgrid_res : nat)
    (psf_subgrid lens_light_mask : bool) (pixel_size : num) : M Data :=
  data ← match kw_image_data kwargs with
         | Some l => mret l
         | None =>
             print (Msg "Warning: image_data not specified in kwargs_data!");;
             alloc (np_ones 16)
         end;
  '(idex, idex_bool) ←
       match kw_idex_mask kwargs with
       | Some l => mret (l, true)
       | None => dv ← read data; l ← alloc (np_ones_like dv); mret (l, false)
       end;
  sigma_b ← match kw_sigma_background kwargs with
            | Some s => mret s
            | None =>
                print (Msg "Warning: sigma_background not specified in kwargs_data. Default is set to 1!");;
                mret (Fin 1)
            end;
  f ← match kw_exposure_map kwargs with
      | Some exp_map =>
          ev ← read exp_map;
          ev' ← lift (bool_assign_scalar ev (le_mask ev (Fin 0)) (of_Q (1 # 1000)));
          write exp_map ev';;
          ev ← read exp_map;
          iv ← read idex;
          fv ← lift (bool_index ev (eq_mask iv (Fin 1)));
          fl ← alloc fv;
          mret (Map fl)
      | None =>
          match kw_exp_time kwargs with
          | Some t => mret (Scalar t)
          | None =>
              print (Msg "Warning: exp_time nor exposure_map are specified in kwargs_data. Default is set to 1!");;
              mret (Scalar (Fin 1))
          end
      end;
  dv ← read data;
  iv ← read idex;
  data_active ← lift (bool_index dv (eq_mask iv (Fin 1)));
  cd ← covariance_matrix data_active sigma_b f;
  let '(nx, ny) := match kw_numPix_xy kwargs with
                   | Some p => p
                   | None => (Nat.sqrt (length dv), Nat.sqrt (length dv))
                   end in
  '(mask_active, mask_pure) ←
       match kw_mask kwargs with
       | Some m =>
           mv ← read m;
           iv ← read idex;
           ma ← lift (bool_index mv (eq_mask iv (Fin 1)));
           mv ← read m;
           iv ← read idex;
           mv' ← lift (bool_assign_scalar mv (eq_mask iv (Fin 0)) (Fin 0));
           write m mv';;
           mret (ma, m)
       | None =>
           dv ← read data;
           m ← alloc (np_ones_like dv);
           mv ← read m;
           iv ← read idex;
           mv' ← lift (bool_assign_scalar mv (eq_mask iv (Fin 0)) (Fin 0));
           write m mv';;
           mret (np_ones_like data_active, m)
       end;
  mask_ll ← match kw_mask_lens_light kwargs with
            | Some m =>
                mv ← read m;
                iv ← read idex;
                lift (bool_index mv (eq_mask iv (Fin 1)))
            | None => mret (np_ones_like data_active)
            end;
  iv ← read idex;
  idex_sub ← lift (_subgrid_idex iv subgrid_res nx ny);
  mret {| _subgrid_res := subgrid_res;
          _lens_light_mask := lens_light_mask;
          _idex_mask := idex;
          _idex_mask_bool := idex_bool;
          _sigma_b := sigma_b;
          _exp_map := f;
          _data := data_active;
          _data_pure := data;
          C_D := cd;
          _nx := nx;
          _ny := ny;
          _mask := mask_active;
          _mask_pure := mask_pure;
          _mask_lens_light := mask_ll;
          _idex_mask_sub := idex_sub;
          _psf_subgrid := psf_subgrid;
          deltaPix := pixel_size |}.

(** The [mask] property. *)
Definition mask (self : Data) : list num :=
  if _lens_light_mask self then _mask_lens_light self else _mask self.

(** The [numData_evaluate] property. *)
Definition numData_evaluate (self : Data) : num := np_sum_list (mask self).

Definition deref (h : gmap loc (list num)) (l : loc) : result (list num) :=
  match h !! l with
  | Some a => Ok a
  | None => Raise (TypeError "not an array")
  end.

(** [Data.array2image(array, subrid_res)]; it only reads the heap. *)
Definition array2image (self : Data) (h : gmap loc (list num))
    (array : list num) (subrid_res : nat) : result image :=
  let nx := (_nx self * subrid_res)%nat in
  let ny := (_ny self * subrid_res)%nat in
  grid1d ← (if _idex_mask_bool self then
              idex_mask ← deref h (_idex_mask self);
              let grid1d := np_zeros (nx * ny) in
              let idex_mask_subgrid :=
                if decide (1 < subrid_res)%nat then _idex_mask_sub self
                else idex_mask in
              bool_assign grid1d (eq_mask idex_mask_subgrid (Fin 1)) array
            else mret array);
  util_array2image grid1d nx ny.

(** [Data.image2array(image)]; it only reads the heap. *)
Definition image2array (self : Data) (h : gmap loc (list num)) (img : image)
  : result (list num) :=
  let array := util_image2array img in
  if _idex_mask_bool self then
    idex_mask ← deref h (_idex_mask self);
    bool_index array (eq_mask idex_mask (Fin 1))
  else mret array.

(** *** Fit statistics *)

Definition np_sub : value → value → result value := np_binop nsub.
Definition np_add : value → value → result value := np_binop nadd.
Definition np_mul : value → value → result value := np_binop nmul.
Definition np_div : value → value → result value := np_binop ndiv.

Section FitStatistics.

(** [np.sqrt] on one number; square roots are not rational, so the
    function is a parameter of [reduced_residuals]. *)
Variable np_sqrt : num → num.

(** [Data.reduced_residuals(model, error_map)] *)
Definition reduced_residuals (self : Data) (model error_map : value)
  : result value :=
  let mask := mask self in
  diff ← np_sub model (Arr (_data self));
  var ← np_add (C_D self) (np_unop nabs error_map);
  q ← np_div diff (np_unop np_sqrt var);
  np_mul q (Arr mask).

End FitStatistics.

(** [Data.log_likelihood(model, model_error)] *)
Definition log_likelihood (self : Data) (model model_error : value)
  : result num :=
  diff ← np_sub model (Arr (_data self));
  var ← np_add (C_D self) (np_unop nabs model_error);
  q ← np_div (np_unop npow2 diff) var;
  X2 ← np_mul q (Arr (mask self));
  let logL := ndiv (nneg (np_sum X2)) (of_Z 2) in
  mret logL.

(** [Data.reduced_chi2(model, error_map)] *)
Definition reduced_chi2 (self : Data) (model error_map : value)
  : result num :=
  diff ← np_sub model (Arr (_data self));
  var ← np_add (C_D self) (np_unop nabs error_map);
  q ← np_div (np_unop npow2 diff) var;
  w ← np_mul q (Arr (mask self));
  chi2 ← np_div w (Scal (np_sum (Arr (mask self))));
  mret (np_sum chi2).

(** *** PSF convolution and resizing *)

(** Python objects that occur as values of [kwargs_psf] or as [kwargs_psf]
    itself. *)
#[local] Unset Elimination Schemes.
Inductive pyobj : Type :=
| PStr (s : string)
| PNum (x : num)
| PArr (g : image)
| PObj (id : nat)   (* any other object, e.g. a complex array *)
| PDict (d : gmap string pyobj).
#[local] Set Elimination Schemes.

(** [o == s] for a string literal [s]: only a string equals a string. *)
Definition py_eq_str (o : pyobj) (s : string) : bool :=
  match o with
  | PStr t => bool_decide (t = s)
  | _ => false
  end.

(** [d[key]] *)
Definition getitem (d : gmap string pyobj) (key : string) : result pyobj :=
  match d !! key with
  | Some v => Ok v
  | None => Raise (KeyError key)
  end.

(** [d.get(key, dflt)] *)
Definition dict_get (d : gmap string pyobj) (key : string) (dflt : pyobj)
  : pyobj := default dflt (d !! key).

(** [key in d] *)
Definition contains (d : gmap string pyobj) (key : string) : bool :=
  bool_decide (is_Some (d !! key)).

Definition as_num (o : pyobj) : result num :=
  match o with
  | PNum x => Ok x
  | _ => Raise (TypeError "unsupported operand type(s) for /")
  end.

(** [len(o)] *)
Definition py_len (o : pyobj) : result nat :=
  match o with
  | PArr g => Ok (length g)
  | PStr s => Ok (String.length s)
  | PDict d => Ok (size d)
  | _ => Raise (TypeError "object has no len()")
  end.

(** [try: a except: b] with a bare [except]. *)
Definition try_except {A} (a b : result A) : result A :=
  match a with
  | Ok x => Ok x
  | Raise _ => b
  end.

Section PSF.

(** The numerical routines of scipy and astrofunc that the class calls.
    Each may raise. *)

(** [ndimage.filters.gaussian_filter(grid, sigma, mode='nearest', truncate=t)] *)
Variable gaussian_filter : image → num → num → result image.
(** [signal.fftconvolve(grid, kernel, mode='same')] *)
Variable signal_fftconvolve : image → pyobj → result image.
(** [fft.fftconvolve(grid, kernel, kernel_fft, mode='same')] of the
    module-level [FFTConvolve] instance *)
Variable fft_fftconvolve : image → pyobj → pyobj → result image.
(** [util.subgrid_kernel(kernel, subgrid_res, odd=True)] *)
Variable util_subgrid_kernel : pyobj → nat → result pyobj.
(** [util.cut_psf(kernel, psf_size=n)] *)
Variable util_cut_psf : pyobj → Z → result pyobj.
(** [util.re_size(image, factor)] *)
Variable util_re_size : image → nat → result image.

(** [Data.psf_convolution(grid, grid_scale, **kwargs)]; [grid_scale] is a
    numpy float, as [re_size_convolve] passes it. *)
Definition psf_convolution (self : Data) (grid : image) (grid_scale : num)
    (kwargs : gmap string pyobj) : result image :=
  let psf_type := dict_get kwargs "psf_type" (PStr "NONE") in
  if py_eq_str psf_type "NONE" then mret grid
  else if py_eq_str psf_type "gaussian" then
    s ← getitem kwargs "sigma" ≫= as_num;
    let sigma := ndiv s grid_scale in
    sigma_truncate ← (if contains kwargs "truncate" then
                        t ← getitem kwargs "truncate" ≫= as_num;
                        mret (ndiv t grid_scale)
                      else mret (ndiv (of_Z 3) grid_scale));
    gaussian_filter grid sigma (nmul sigma_truncate sigma)
  else if py_eq_str psf_type "pixel" then
    kernel ← (if _psf_subgrid self then
                n ← getitem kwargs "kernel_pixel" ≫= py_len;
                kps ← getitem kwargs "kernel_point_source";
                kernel ← util_subgrid_kernel kps (_subgrid_res self);
                let n_new := (Z.of_nat n * Z.of_nat (_subgrid_res self))%Z in
                let n_new := if decide (n_new mod 2 = 0)%Z
                             then (n_new - 1)%Z else n_new in
                util_cut_psf kernel n_new
              else getitem kwargs "kernel_pixel");
    if contains kwargs "kernel_fft" then
      kernel_fft ← getitem kwargs "kernel_pixel_fft";
      try_except (fft_fftconvolve grid kernel kernel_fft)
                 (signal_fftconvolve grid kernel)
    else signal_fftconvolve grid kernel
  else Raise (ValueError "PSF type %s not valid!").

(** [Data.re_size_convolve(image, kwargs_psf, unconvolved)] *)
Definition re_size_convolve (self : Data) (h : gmap loc (list num))
    (image : list num) (kwargs_psf : gmap string pyobj) (unconvolved : bool)
  : result (list num) :=
  image ← array2image self h image (_subgrid_res self);
  skip ← (if unconvolved then mret true
          else t ← getitem kwargs_psf "psf_type"; mret (py_eq_str t "NONE"));
  grid_final ←
    (if skip : bool then util_re_size image (_subgrid_res self)
     else
       let gridScale :=
         ndiv (deltaPix self) (of_Z (Z.of_nat (_subgrid_res self))) in
       if py_eq_str (PDict kwargs_psf) "pixel" && negb (_psf_subgrid self)
       then
         grid_re_sized ← util_re_size image (_subgrid_res self);
         psf_convolution self grid_re_sized gridScale kwargs_psf
       else
         grid_conv ← psf_convolution self image gridScale kwargs_psf;
         util_re_size grid_conv (_subgrid_res self));
  image2array self h grid_final.

(** The two orders in which [re_size_convolve] can combine binning and
    convolution, as pipelines from the model vector to the result. *)
Definition bin_then_convolve (self : Data) (h : gmap loc (list num))
    (image : list num) (kwargs_psf : gmap string pyobj)
  : result (list num) :=
  let gridScale :=
    ndiv (deltaPix self) (of_Z (Z.of_nat (_subgrid_res self))) in
  image ← array2image self h image (_subgrid_res self);
  grid_re_sized ← util_re_size image (_subgrid_res self);
  grid_final ← psf_convolution self grid_re_sized gridScale kwargs_psf;
  image2array self h grid_final.

Definition convolve_then_bin (self : Data) (h : gmap loc (list num))
    (image : list num) (kwargs_psf : gmap string pyobj)
  : result (list num) :=
  let gridScale :=
    ndiv (deltaPix self) (of_Z (Z.of_nat (_subgrid_res self))) in
  image ← array2image self h image (_subgrid_res self);
  grid_conv ← psf_convolution self image gridScale kwargs_psf;
  grid_final ← util_re_size grid_conv (_subgrid_res self);
  image2array self h grid_final.

End PSF.

(** ** Auxiliary notions used in the statements *)

(** [x >= 0] *)
Definition nnonneg (x : num) : Prop := nleb (Fin 0) x = true.

(** [d_pos]: the data with every entry that is not [>= 0] set to zero. *)
Definition d_pos_of (d : list num) : list num :=
  map (λ x, if ngeb x (Fin 0) then x else Fin 0) d.

(** The exposure map after [f[f < mean/10] = mean/10]. *)
Definition clamp_exposure (fv : list num) : list num :=
  let floor := ndiv (np_mean fv) (of_Z 10) in
  map (λ x, if nltb x floor then floor else x) fv.

(** The exposure map after [exp_map[exp_map <= 0] = 10**(-3)]. *)
Definition clamp_nonpositive (ev : list num) : list num :=
  map (λ x, if nleb x (Fin 0) then of_Q (1 # 1000) else x) ev.

Definition warn_world (sigma_b fmax : num) (w : world) : world :=
  if nltb (nmul sigma_b fmax) (Fin 1)
  then World (heap w)
             (stdout w ++ [MsgNum unstable_warning (nmul sigma_b fmax)])
  else w.


(** A strictly positive finite number. *)
Definition fin_pos (x : num) : Prop := ∃ p, x = Fin p ∧ 0 < p.

(** Exposures on which the noise model is specified: a finite scalar, or a
    finite map as long as the data whose mean is a positive number. *)
Definition exposure_admissible (w : world) (d : list num) (f : exposure)
  : Prop :=
  match f with
  | Scalar t => is_fin t
  | Map l =>
      ∃ fv, heap w !! l = Some fv ∧ Forall is_fin fv
            ∧ fin_pos (np_mean fv) ∧ length fv = length d
  end.


(** The entries of a value. *)
Definition entries (v : value) : list num :=
  match v with Scal x => [x] | Arr a => a end.

(** The stored vectors of a [Data] object have one length: the fit mask and
    the covariance are as long as the active data. *)
Record Data_shape (self : Data) : Prop := {
  shape_mask : length (mask self) = length (_data self);
  shape_C_D : ∃ c, C_D self = Arr c ∧ length c = length (_data self)
}.

(** The invariants of the stored vectors of a [Data] object: one length,
    finite data and fit mask, and a strictly positive covariance. *)
Record Data_wf (self : Data) : Prop := {
  wf_shape : Data_shape self;
  wf_data_fin : Forall is_fin (_data self);
  wf_mask_fin : Forall is_fin (mask self);
  wf_C_D_pos : Forall fin_pos (entries (C_D self))
}.

(** A model-error term that combines with the stored vectors: a scalar or a
    vector of the stored length. *)
Definition error_term_fits (self : Data) (e : value) : Prop :=
  match e with
  | Scal x => True
  | Arr a => length a = length (_data self)
  end.

(** The boolean selection [idex_mask == 1] that a [Data] object applies. *)
Definition valid_pixels (idex : list num) : list bool := eq_mask idex (Fin 1).

(** [a] has one entry per valid pixel: it is an active vector. *)
Definition active_vector (self : Data) (h : gmap loc (list num))
    (a : list num) : Prop :=
  if _idex_mask_bool self then
    ∃ idex, h !! _idex_mask self = Some idex
            ∧ length a = count_true (valid_pixels idex)
  else length a = (_nx self * _ny self)%nat.

(** The stored grid shape agrees with the index mask held in the heap. *)
Definition grid_consistent (self : Data) (h : gmap loc (list num)) : Prop :=
  _idex_mask_bool self = true →
  ∃ idex, h !! _idex_mask self = Some idex
          ∧ length idex = (_nx self * _ny self)%nat.

(** *** Footprint of the stateful operations *)

Definition exposure_locs (f : exposure) : gset loc :=
  match f with Scalar _ => ∅ | Map l => {[ l ]} end.

Definition option_loc (o : option loc) : gset loc :=
  match o with Some l => {[ l ]} | None => ∅ end.

(** Every array that exists in [w] still exists in [w'], and has the same
    content there unless its location is in [L]. *)
Definition unchanged_outside (L : gset loc) (w w' : world) : Prop :=
  dom (heap w) ⊆ dom (heap w')
  ∧ ∀ l, l ∈ dom (heap w) → l ∉ L → heap w' !! l = heap w !! l.

(** [m], run in a world that contains the arrays [D], writes among them only
    to those in [L], and a value it returns satisfies [Q]. *)
Definition confined (D L : gset loc) {A} (m : M A) (Q : A → Prop) : Prop :=
  ∀ w, D ⊆ dom (heap w) →
    (dom (heap w) ⊆ dom (heap (m w).2)
     ∧ ∀ l, l ∈ D → l ∉ L → heap (m w).2 !! l = heap w !! l)
    ∧ ∀ a, (m w).1 = Ok a → Q a.

(** An exposure whose array, if any, may be overwritten. *)
Definition safe_exposure (D L : gset loc) (f : exposure) : Prop :=
  match f with
  | Scalar _ => True
  | Map l => l ∈ L ∨ l ∉ D
  end.

(** A number stripped of the canonicity proof of its rational, for stating
    computed values. *)
Inductive num_view : Type :=
| VFin (q : Q)
| VPInf
| VNInf
| VNaN.

Definition view (x : num) : num_view :=
  match x with
  | Fin q => VFin (this q)
  | PInf => VPInf
  | NInf => VNInf
  | NaN => VNaN
  end.

(** ** Concrete inputs *)

(** A 2 by 2 image with one invalid pixel, an exposure map with a
    non-positive entry, a mask that keeps an invalid pixel, a mask that
    rejects every pixel, and an exposure map with negative entries only. *)
Definition ex_world : world :=
  World (<[ 0%nat := [Fin 1; of_Z (-2); of_Z 3; of_Z 4] ]>
        (<[ 1%nat := [Fin 1; Fin 0; Fin 1; Fin 1] ]>
        (<[ 2%nat := [Fin 1; of_Z (-1); of_Z 100; Fin 1] ]>
        (<[ 3%nat := [Fin 1; Fin 1; Fin 0; Fin 1] ]>
        (<[ 4%nat := [Fin 0; Fin 0; Fin 0; Fin 0] ]>
        (<[ 5%nat := [of_Z (-1); of_Z (-3)] ]> ∅))))))
        [].

Definition ex_kwargs : kwargs_data :=
  {| kw_image_data := Some 0%nat;
     kw_idex_mask := Some 1%nat;
     kw_sigma_background := Some (Fin 1);
     kw_exposure_map := Some 2%nat;
     kw_exp_time := None;
     kw_numPix_xy := Some (2, 2)%nat;
     kw_mask := Some 3%nat;
     kw_mask_lens_light := None |}.

(** The same configuration with the all-zero mask and a flat exposure. *)
Definition ex_kwargs_zero_mask : kwargs_data :=
  {| kw_image_data := Some 0%nat;
     kw_idex_mask := Some 1%nat;
     kw_sigma_background := Some (Fin 1);
     kw_exposure_map := None;
     kw_exp_time := Some (Fin 1);
     kw_numPix_xy := Some (2, 2)%nat;
     kw_mask := Some 4%nat;
     kw_mask_lens_light := None |}.

(** The object that the constructor builds from [ex_kwargs] in [ex_world]
    with [subgrid_res = 1] (see [ex_Data_constructed]). *)
Definition ex_Data : Data :=
  {| _subgrid_res := 1%nat;
     _lens_light_mask := false;
     _idex_mask := 1%nat;
     _idex_mask_bool := true;
     _sigma_b := Fin 1;
     _exp_map := Map 6%nat;
     _data := [Fin 1; of_Z 3; of_Z 4];
     _data_pure := 0%nat;
     C_D := Arr [of_Q (22 # 17); of_Q (103 # 100); of_Q (37 # 17)];
     _nx := 2%nat;
     _ny := 2%nat;
     _mask := [Fin 1; Fin 0; Fin 1];
     _mask_pure := 3%nat;
     _mask_lens_light := [Fin 1; Fin 1; Fin 1];
     _idex_mask_sub := [Fin 1; Fin 0; Fin 1; Fin 1];
     _psf_subgrid := false;
     deltaPix := Fin 1 |}.

(** A native 1 by 1 grid rendered on a 2 by 2 subgrid, without index
    mask. *)
Definition ex_Data_subgrid : Data :=
  {| _subgrid_res := 2%nat;
     _lens_light_mask := false;
     _idex_mask := 0%nat;
     _idex_mask_bool := false;
     _sigma_b := Fin 1;
     _exp_map := Scalar (Fin 1);
     _data := [Fin 1];
     _data_pure := 0%nat;
     C_D := Arr [of_Z 2];
     _nx := 1%nat;
     _ny := 1%nat;
     _mask := [Fin 1];
     _mask_pure := 1%nat;
     _mask_lens_light := [Fin 1];
     _idex_mask_sub := [Fin 1; Fin 1; Fin 1; Fin 1];
     _psf_subgrid := false;
     deltaPix := Fin 1 |}.

Definition ex_kwargs_psf : gmap string pyobj :=
  <[ "psf_type" := PStr "pixel" ]>
  (<[ "kernel_pixel" := PArr [[Fin 1; Fin 1; Fin 1]] ]> ∅).

(** A pixel PSF with a frequency-domain kernel under the key that
    [psf_convolution] tests for. *)
Definition ex_kwargs_psf_fft : gmap string pyobj :=
  <[ "kernel_fft" := PObj 0%nat ]> ex_kwargs_psf.

(** Instances of the external routines, enough to run the pipeline on
    [ex_Data_subgrid]: binning of a one-pixel native grid (the mean of the
    whole image), and same-mode convolution of every row with a kernel of
    one row and one or three columns, zero outside the image. *)
Definition ex_re_size (img : image) (factor : nat) : result image :=
  Ok [[np_mean (util_image2array img)]].

(** [out[j] = k0 * x[j+1] + k1 * x[j] + k2 * x[j-1]] *)
Definition conv_row3 (k0 k1 k2 : num) (x : list num) : list num :=
  let next := drop 1 x ++ [Fin 0] in
  let prev := Fin 0 :: x in
  zip_with (λ '(a, b) c, nadd (nadd (nmul k0 a) (nmul k1 b)) (nmul k2 c))
           (zip next x) prev.

Definition ex_fftconvolve (grid : image) (kernel : pyobj) : result image :=
  match kernel with
  | PArr [[c]] => Ok (map (map (nmul c)) grid)
  | PArr [[k0; k1; k2]] => Ok (map (conv_row3 k0 k1 k2) grid)
  | _ => Raise (ValueError "kernel not supported")
  end.

Definition ex_fft_fftconvolve (grid : image) (kernel kernel_fft : pyobj)
  : result image :=
  Raise (ValueError "operands could not be broadcast together").

Definition ex_gaussian_filter (grid : image) (sigma truncate : num)
  : result image := Ok grid.

Definition ex_subgrid_kernel (kernel : pyobj) (subgrid_res : nat)
  : result pyobj := Ok kernel.

Definition ex_cut_psf (kernel : pyobj) (psf_size : Z) : result pyobj :=
  Ok kernel.

(** The sum of the fit mask of [ex_Data], as numpy adds it up. *)
Definition ex_mask_sum : Qc := 1 + (0 + (1 + 0)).

(** ** Further members of the class *)

Section PSF_fwhm.

(** [util.sigma2fwhm(sigma)] and [util.fwhm_kernel(kernel)] of astrofunc;
    each may raise. *)
Variable util_sigma2fwhm : pyobj → result num.
Variable util_fwhm_kernel : pyobj → result num.

(** [Data.psf_fwhm(kwargs)] *)
Definition psf_fwhm (self : Data) (kwargs : gmap string pyobj) : result num :=
  let psf_type := dict_get kwargs "psf_type" (PStr "NONE") in
  if py_eq_str psf_type "NONE" then mret (Fin 0)
  else if py_eq_str psf_type "gaussian" then
    sigma ← getitem kwargs "sigma";
    util_sigma2fwhm sigma
  else if py_eq_str psf_type "pixel" then
    kernel ← getitem kwargs "kernel_point_source";
    w ← util_fwhm_kernel kernel;
    mret (nmul w (deltaPix self))
  else Raise (ValueError "PSF type %s not valid!").

End PSF_fwhm.

(** A PSF dictionary with both keys of the frequency-domain kernel. *)
Definition ex_kwargs_psf_both : gmap string pyobj :=
  <[ "kernel_pixel_fft" := PObj 0%nat ]> ex_kwargs_psf_fft.


Definition ex_sigma2fwhm (sigma : pyobj) : result num :=
  match sigma with
  | PNum x => Ok (nmul (of_Q (23548 # 10000)) x)
  | _ => Raise (TypeError "unsupported operand type(s) for *")
  end.

Definition ex_fwhm_kernel (kernel : pyobj) : result num := Ok (Fin 1).

(** The index mask that [array2image] uses at resolution [subrid_res]. *)
Definition mask_at (self : Data) (idex : list num) (subrid_res : nat)
  : list num :=
  if decide (1 < subrid_res)%nat then _idex_mask_sub self else idex.

Definition assign_error : exn :=
  ValueError "NumPy boolean array indexing assignment cannot assign input values".

Definition reshape_error : exn := ValueError "cannot reshape array".

(** A finite number that is not negative. *)
Definition fin_nonneg (x : num) : Prop := ∃ q, x = Fin q ∧ 0 ≤ q.

Definition empty_max_error : exn :=
  ValueError "zero-size array to reduction operation maximum which has no identity".

(** *** The constructor in stages

    The stages of [Data_init], each the text of the corresponding lines of
    the constructor, and the constructor as their sequence
    ([Data_init_stages]). *)

Definition init_data (kwargs : kwargs_data) : M loc :=
  match kw_image_data kwargs with
  | Some l => mret l
  | None =>
      print (Msg "Warning: image_data not specified in kwargs_data!");;
      alloc (np_ones 16)
  end.

Definition init_idex (kwargs : kwargs_data) (data : loc) : M (loc * bool) :=
  match kw_idex_mask kwargs with
  | Some l => mret (l, true)
  | None => dv ← read data; l ← alloc (np_ones_like dv); mret (l, false)
  end.

Definition init_sigma (kwargs : kwargs_data) : M num :=
  match kw_sigma_background kwargs with
  | Some s => mret s
  | None =>
      print (Msg "Warning: sigma_background not specified in kwargs_data. Default is set to 1!");;
      mret (Fin 1)
  end.

Definition init_exposure (kwargs : kwargs_data) (idex : loc) : M exposure :=
  match kw_exposure_map kwargs with
  | Some exp_map =>
      ev ← read exp_map;
      ev' ← lift (bool_assign_scalar ev (le_mask ev (Fin 0)) (of_Q (1 # 1000)));
      write exp_map ev';;
      ev ← read exp_map;
      iv ← read idex;
      fv ← lift (bool_index ev (eq_mask iv (Fin 1)));
      fl ← alloc fv;
      mret (Map fl)
  | None =>
      match kw_exp_time kwargs with
      | Some t => mret (Scalar t)
      | None =>
          print (Msg "Warning: exp_time nor exposure_map are specified in kwargs_data. Default is set to 1!");;
          mret (Scalar (Fin 1))
      end
  end.

Definition init_mask (kwargs : kwargs_data) (data idex : loc)
    (data_active : list num) : M (list num * loc) :=
  match kw_mask kwargs with
  | Some m =>
      mv ← read m;
      iv ← read idex;
      ma ← lift (bool_index mv (eq_mask iv (Fin 1)));
      mv ← read m;
      iv ← read idex;
      mv' ← lift (bool_assign_scalar mv (eq_mask iv (Fin 0)) (Fin 0));
      write m mv';;
      mret (ma, m)
  | None =>
      dv ← read data;
      m ← alloc (np_ones_like dv);
      mv ← read m;
      iv ← read idex;
      mv' ← lift (bool_assign_scalar mv (eq_mask iv (Fin 0)) (Fin 0));
      write m mv';;
      mret (np_ones_like data_active, m)
  end.

Definition init_mask_lens_light (kwargs : kwargs_data) (idex : loc)
    (data_active : list num) : M (list num) :=
  match kw_mask_lens_light kwargs with
  | Some m =>
      mv ← read m;
      iv ← read idex;
      lift (bool_index mv (eq_mask iv (Fin 1)))
  | None => mret (np_ones_like data_active)
  end.

Definition init_numPix (kwargs : kwargs_data) (dv : list num) : nat * nat :=
  match kw_numPix_xy kwargs with
  | Some p => p
  | None => (Nat.sqrt (length dv), Nat.sqrt (length dv))
  end.

(** What the constructor knows about the exposure it passes on: a map is a
    fresh array, distinct from the index mask, with one entry per valid
    pixel. *)
Definition exposure_selected (idex : loc) (f : exposure) (w : world) : Prop :=
  match f with
  | Scalar _ => True
  | Map fl =>
      fl ≠ idex
      ∧ ∃ fv iv, heap w !! fl = Some fv ∧ heap w !! idex = Some iv
                 ∧ length fv = count_true (valid_pixels iv)
  end.

(** What holds of a [Data] object and the world when the constructor
    returns: the stored vectors have one entry per valid pixel of the index
    mask in the heap, and the subgrid mask is derived from that mask. *)
Record Data_constructed (D : Data) (w : world) : Prop := {
  built_shape : Data_shape D;
  built_mask : length (_mask D) = length (_data D);
  built_mask_lens_light : length (_mask_lens_light D) = length (_data D);
  built_idex :
    ∃ iv, heap w !! _idex_mask D = Some iv
          ∧ length (_data D) = count_true (valid_pixels iv)
          ∧ _subgrid_idex iv (_subgrid_res D) (_nx D) (_ny D)
            = Ok (_idex_mask_sub D)
}.

(** Every array in the heap holds finite numbers. *)
Definition heap_finite (w : world) : Prop :=
  ∀ l a, heap w !! l = Some a → Forall is_fin a.

(** The scalars of the configuration are finite, the background sigma
    positive. *)
Definition kwargs_finite (kwargs : kwargs_data) : Prop :=
  (∀ s, kw_sigma_background kwargs = Some s → fin_pos s)
  ∧ (∀ t, kw_exp_time kwargs = Some t → is_fin t).

(** An exposure as the constructor passes it on when the arrays are
    finite: a finite scalar or a map of positive numbers. *)
Definition exposure_positive (f : exposure) (w : world) : Prop :=
  match f with
  | Scalar t => is_fin t
  | Map fl => ∃ fv, heap w !! fl = Some fv ∧ Forall fin_pos fv
  end.

(** The image array of the configuration, if one is given, exists in the
    heap. *)
Definition image_data_allocated (kwargs : kwargs_data) (w : world) : Prop :=
  ∀ l, kw_image_data kwargs = Some l → l ∈ dom (heap w).

(** ** Magnitudes

    The arithmetic of this embedding is exact, that of the code is the
    floating-point arithmetic of numpy (see [Float64] below for runs in
    binary64 that show the difference).  The two agree on the sign and the
    finiteness of a result as long as no intermediate value underflows to
    zero, overflows or wraps; the predicates here bound the inputs so that
    none does, in double and in single precision. *)

Definition small : Qc := Q2Qc (1 # 10 ^ 18).
Definition large : Qc := Q2Qc (inject_Z (10 ^ 18)).

(** A number of magnitude at most [large]. *)
Definition moderate (x : num) : Prop :=
  ∃ q, x = Fin q ∧ - large ≤ q ∧ q ≤ large.

(** A positive number of magnitude at most [large]. *)
Definition moderate_above0 (x : num) : Prop :=
  ∃ q, x = Fin q ∧ 0 < q ∧ q ≤ large.

(** A number between [small] and [large]: its square and its quotients with
    moderate numbers neither underflow nor overflow. *)
Definition moderate_pos (x : num) : Prop :=
  ∃ q, x = Fin q ∧ small ≤ q ∧ q ≤ large.

(** A scalar exposure of moderate magnitude that is not positive (and is
    replaced by 1) or is at least [small] (and stays positive when it is
    cast to the dtype of single-precision data). *)
Definition moderate_exposure_time (t : num) : Prop :=
  moderate t ∧ (nleb t (Fin 0) = true ∨ moderate_pos t).

(** Exposures on which [covariance_matrix] gives positive variances in
    floating point as in exact arithmetic, whatever the dtype of the
    arrays: a scalar that is a moderate exposure time, or a non-empty map as
    long as the data whose entries are all positive (so that the clamp to a
    tenth of the mean, which an integer array truncates, can only raise an
    entry that is positive already) and moderate (so that their sum does not
    overflow). *)
Definition exposure_safe (w : world) (d : list num) (f : exposure) : Prop :=
  match f with
  | Scalar t => moderate_exposure_time t
  | Map l =>
      ∃ fv, heap w !! l = Some fv ∧ fv ≠ []
            ∧ Forall moderate_above0 fv ∧ length fv = length d
  end.

(** The largest difference of model and data admitted in a fit: its square
    is exact in every integer dtype of at least 32 bits. *)
Definition flux_bound : Qc := Q2Qc (inject_Z (10 ^ 4)).

(** The smallest variance admitted in a fit. *)
Definition variance_floor : Qc := Q2Qc (1 # 10 ^ 9).

(** A model against whose residuals the terms of the fit statistics stay
    finite in floating point: residuals within [flux_bound], variances of at
    least [variance_floor], fit-mask weights of at most 1. *)
Definition moderate_fit (self : Data) (model : list num) : Prop :=
  Forall2 (λ m d, ∃ p q, m = Fin p ∧ d = Fin q
                         ∧ - flux_bound ≤ p - q ∧ p - q ≤ flux_bound)
          model (_data self)
  ∧ Forall (λ c, ∃ q, c = Fin q ∧ variance_floor ≤ q) (entries (C_D self))
  ∧ Forall (λ m, ∃ q, m = Fin q ∧ q ≤ 1) (mask self).

(** A configuration on which the constructor computes a finite, positive
    covariance in floating point as in exact arithmetic: a background sigma
    between [small] and [large], an exposure time that is not positive (and
    is replaced by 1) or lies between [small] and [large], an image of
    moderate values, and an exposure map whose entries lie between [small]
    and [large]. *)
Definition kwargs_moderate (kwargs : kwargs_data) (w : world) : Prop :=
  (∀ s, kw_sigma_background kwargs = Some s → moderate_pos s)
  ∧ (∀ t, kw_exp_time kwargs = Some t → moderate_exposure_time t)
  ∧ (∀ l a, kw_image_data kwargs = Some l → heap w !! l = Some a →
            Forall moderate a)
  ∧ (∀ l a, kw_exposure_map kwargs = Some l → heap w !! l = Some a →
            Forall moderate_pos a).

(** ** Further concrete inputs *)

(** A native 1 by 2 grid with one invalid pixel, and an object laid out on
    it at subgrid resolution 2 with a subgrid-refined PSF. *)
Definition ex_world_sub : world :=
  World (<[ 0%nat := [of_Z 5; of_Z 6] ]> (<[ 1%nat := [Fin 1; Fin 0] ]> ∅)) [].

Definition ex_Data_sub : Data :=
  {| _subgrid_res := 2%nat;
     _lens_light_mask := false;
     _idex_mask := 1%nat;
     _idex_mask_bool := true;
     _sigma_b := Fin 1;
     _exp_map := Scalar (Fin 1);
     _data := [of_Z 5];
     _data_pure := 0%nat;
     C_D := Arr [of_Z 6];
     _nx := 1%nat;
     _ny := 2%nat;
     _mask := [Fin 1];
     _mask_pure := 2%nat;
     _mask_lens_light := [Fin 1];
     _idex_mask_sub :=
       [Fin 1; Fin 1; Fin 0; Fin 0; Fin 1; Fin 1; Fin 0; Fin 0];
     _psf_subgrid := true;
     deltaPix := Fin 1 |}.

(** A cropping routine that accepts odd sizes only. *)
Definition ex_cut_psf_odd (kernel : pyobj) (psf_size : Z) : result pyobj :=
  if Z.odd psf_size then Ok kernel
  else Raise (ValueError "psf_size needs to be odd").

(** A pixel PSF with the point-source kernel that the subgrid refinement
    starts from. *)
Definition ex_kwargs_psf_point : gmap string pyobj :=
  <[ "kernel_point_source" := PArr [[Fin 1]] ]> ex_kwargs_psf.

(** PSF dictionaries that lack a key. *)
Definition ex_kwargs_psf_untyped : gmap string pyobj :=
  <[ "sigma" := PNum (Fin 1) ]> ∅.

Definition ex_kwargs_psf_NONE : gmap string pyobj :=
  <[ "psf_type" := PStr "NONE" ]> ∅.

Definition ex_kwargs_psf_gaussian : gmap string pyobj :=
  <[ "psf_type" := PStr "gaussian" ]> ∅.

Definition ex_kwargs_psf_pixel : gmap string pyobj :=
  <[ "psf_type" := PStr "pixel" ]> ∅.

(** A heap whose only array is empty. *)
Definition ex_world_empty_map : world := World (<[ 0%nat := [] ]> ∅) [].

(** An image and an exposure map without non-positive entries. *)
Definition ex_world_exposure : world :=
  World (<[ 0%nat := [Fin 1; of_Z (-2); of_Z 3; of_Z 4] ]>
        (<[ 1%nat := [Fin 1; of_Z 2; of_Z 100; Fin 1] ]> ∅)) [].

(** The object that the constructor builds from [ex_kwargs_zero_mask] in
    [ex_world] (see [ex_Data_flat_run]). *)
Definition ex_Data_flat : Data :=
  {| _subgrid_res := 1%nat;
     _lens_light_mask := false;
     _idex_mask := 1%nat;
     _idex_mask_bool := true;
     _sigma_b := Fin 1;
     _exp_map := Scalar (Fin 1);
     _data := [Fin 1; of_Z 3; of_Z 4];
     _data_pure := 0%nat;
     C_D := Arr [of_Z 2; of_Z 4; of_Z 5];
     _nx := 2%nat;
     _ny := 2%nat;
     _mask := [Fin 0; Fin 0; Fin 0];
     _mask_pure := 4%nat;
     _mask_lens_light := [Fin 1; Fin 1; Fin 1];
     _idex_mask_sub := [Fin 1; Fin 0; Fin 1; Fin 1];
     _psf_subgrid := false;
     deltaPix := Fin 1 |}.

(** ** The arithmetic of the noise model and of the fit statistics in
    binary64

    The same lines of the source, on arrays of equal length, with the
    rounding of IEEE 754 binary64 that numpy applies to arrays of its
    default float dtype. *)

Module Float64.

Import PrimFloat.
Local Open Scope float_scope.

(** [np.sum(a)] for fewer than 8 entries, which numpy adds in order. *)
Definition np_sum (a : list float) : float := fold_left PrimFloat.add a 0.

(** [(model - self._data)**2 / (self.C_D + np.abs(error)) * self.mask] *)
Definition chi_square_terms (_data C_D mask model : list float)
    (error : float) : list float :=
  zip_with (λ x m, x * m)
    (zip_with (λ r c, r * r / (c + PrimFloat.abs error))
       (zip_with (λ m d, m - d) model _data) C_D)
    mask.

(** [Data.log_likelihood(model, model_error)] *)
Definition log_likelihood (_data C_D mask model : list float)
    (model_error : float) : float :=
  let X2 := chi_square_terms _data C_D mask model model_error in
  - np_sum X2 / 2.

(** [Data.reduced_chi2(model, error_map)] *)
Definition reduced_chi2 (_data C_D mask model : list float)
    (error_map : float) : float :=
  let chi2 :=
    map (λ x, x / np_sum mask)
        (chi_square_terms _data C_D mask model error_map) in
  np_sum chi2.

(** [Data.covariance_matrix(d, sigma_b, f)] with a scalar exposure; the
    warning is left out, and [sigma_b**2] is the rounded product. *)
Definition covariance_matrix (d : list float) (sigma_b f : float)
  : list float :=
  let f := if f <=? 0 then 1 else f in
  let d_pos := map (λ x, if 0 <=? x then x else 0) d in
  map (λ x, x / f + sigma_b * sigma_b) d_pos.

End Float64.
(** * Properties *)

(** ** Tactics and basic facts about the monads *)

Ltac unfold_result :=
  unfold mbind, mret, result_bind, result_ret, rmap, rbind in *.

Ltac unfold_M :=
  unfold mbind, mret, M_bind, M_ret, bind, ret, lift, read, write, print,
    raise in *.

Lemma rbind_Ok {A B} (a : A) (k : A → result B) : rbind (Ok a) k = k a.
Proof. reflexivity. Qed.

Lemma rbind_Raise {A B} (e : exn) (k : A → result B) :
  rbind (Raise e) k = Raise e.
Proof. reflexivity. Qed.

Lemma contains_true (d : gmap string pyobj) key :
  contains d key = true ↔ is_Some (d !! key).
Proof. unfold contains. apply bool_decide_eq_true. Qed.

Lemma contains_false (d : gmap string pyobj) key :
  contains d key = false ↔ d !! key = None.
Proof.
  unfold contains. rewrite bool_decide_eq_false, eq_None_not_Some. done.
Qed.

Lemma getitem_Some (d : gmap string pyobj) key v :
  d !! key = Some v → getitem d key = Ok v.
Proof. unfold getitem. by intros ->. Qed.

Lemma getitem_None (d : gmap string pyobj) key :
  d !! key = None → getitem d key = Raise (KeyError key).
Proof. unfold getitem. by intros ->. Qed.

(** ** The PSF pipeline *)

Section PSF_properties.

Variable gaussian_filter : image → num → num → result image.
Variable signal_fftconvolve : image → pyobj → result image.
Variable fft_fftconvolve : image → pyobj → pyobj → result image.
Variable util_subgrid_kernel : pyobj → nat → result pyobj.
Variable util_cut_psf : pyobj → Z → result pyobj.
Variable util_re_size : image → nat → result image.

(** A dictionary never equals the string ['pixel'], so the bin-first
    branch of [re_size_convolve] is dead. *)
Lemma kwargs_psf_eq_pixel (kwargs_psf : gmap string pyobj) :
  py_eq_str (PDict kwargs_psf) "pixel" = false.
Proof. reflexivity. Qed.

(** Whenever the convolution is not skipped, [re_size_convolve] convolves
    at subgrid resolution and bins afterwards, whatever the PSF is. *)
Lemma re_size_convolve_not_skipped self h image kwargs_psf t :
  kwargs_psf !! "psf_type" = Some t →
  py_eq_str t "NONE" = false →
  re_size_convolve gaussian_filter signal_fftconvolve fft_fftconvolve
    util_subgrid_kernel util_cut_psf util_re_size self h image kwargs_psf false
  = convolve_then_bin gaussian_filter signal_fftconvolve fft_fftconvolve
      util_subgrid_kernel util_cut_psf util_re_size self h image kwargs_psf.
Proof.
  intros Ht Hnone.
  unfold re_size_convolve, convolve_then_bin.
  rewrite (getitem_Some _ _ _ Ht), kwargs_psf_eq_pixel.
  unfold_result.
  destruct (array2image self h image (_subgrid_res self)) as [img|e];
    [|done].
  rewrite Hnone. simpl.
  destruct (psf_convolution _ _ _ _ _ self img _ kwargs_psf); done.
Qed.

(** When the convolution is skipped the image is only binned. *)
Lemma re_size_convolve_unconvolved self h image kwargs_psf :
  re_size_convolve gaussian_filter signal_fftconvolve fft_fftconvolve
    util_subgrid_kernel util_cut_psf util_re_size self h image kwargs_psf true
  = (img ← array2image self h image (_subgrid_res self);
     g ← util_re_size img (_subgrid_res self);
     image2array self h g).
Proof.
  unfold re_size_convolve. unfold_result.
  by destruct (array2image self h image (_subgrid_res self)).
Qed.

(** C1 (the code where it departs from the specification): with a
    pixel-kernel PSF that is not subgrid-refined and convolution not
    skipped, [re_size_convolve] convolves the image at subgrid resolution
    and bins afterwards; it does not bin first. *)
Theorem re_size_convolve_pixel_native_convolves_first
    self h image kwargs_psf :
  kwargs_psf !! "psf_type" = Some (PStr "pixel") →
  _psf_subgrid self = false →
  re_size_convolve gaussian_filter signal_fftconvolve fft_fftconvolve
    util_subgrid_kernel util_cut_psf util_re_size self h image kwargs_psf false
  = convolve_then_bin gaussian_filter signal_fftconvolve fft_fftconvolve
      util_subgrid_kernel util_cut_psf util_re_size self h image kwargs_psf.
Proof.
  intros Ht _. by apply re_size_convolve_not_skipped with (PStr "pixel").
Qed.

(** With a pixel PSF used as supplied, a frequency-domain kernel found
    under both keys and a failing fast path, the general convolution is
    run on the same grid and kernel. *)
Lemma psf_convolution_fft_fallback self grid grid_scale kwargs k kf kf' e :
  kwargs !! "psf_type" = Some (PStr "pixel") →
  _psf_subgrid self = false →
  kwargs !! "kernel_pixel" = Some k →
  kwargs !! "kernel_fft" = Some kf' →
  kwargs !! "kernel_pixel_fft" = Some kf →
  fft_fftconvolve grid k kf = Raise e →
  psf_convolution gaussian_filter signal_fftconvolve fft_fftconvolve
    util_subgrid_kernel util_cut_psf self grid grid_scale kwargs
  = signal_fftconvolve grid k.
Proof.
  intros Ht Hs Hk Hf' Hf He.
  unfold psf_convolution, dict_get.
  rewrite Ht, Hs. simpl.
  rewrite (getitem_Some _ _ _ Hk), (getitem_Some _ _ _ Hf).
  assert (contains kwargs "kernel_fft" = true) as ->
    by (apply contains_true; eauto).
  unfold_result. by rewrite He.
Qed.

(** Without the key ['kernel_fft'] the general convolution is used
    directly. *)
Lemma psf_convolution_no_fft self grid grid_scale kwargs k :
  kwargs !! "psf_type" = Some (PStr "pixel") →
  _psf_subgrid self = false →
  kwargs !! "kernel_pixel" = Some k →
  kwargs !! "kernel_fft" = None →
  psf_convolution gaussian_filter signal_fftconvolve fft_fftconvolve
    util_subgrid_kernel util_cut_psf self grid grid_scale kwargs
  = signal_fftconvolve grid k.
Proof.
  intros Ht Hs Hk Hf.
  unfold psf_convolution, dict_get.
  rewrite Ht, Hs. simpl.
  rewrite (getitem_Some _ _ _ Hk).
  assert (contains kwargs "kernel_fft" = false) as ->
    by (by apply contains_false).
  done.
Qed.

(** C8 (the code where it departs from the specification): the
    presence test reads the key ['kernel_fft'] and the lookup reads
    ['kernel_pixel_fft'], outside the [try]; with a frequency-domain
    kernel supplied under the first key only, [psf_convolution] raises
    [KeyError] to its caller and runs neither convolution. *)
Theorem psf_convolution_kernel_fft_KeyError
    self grid grid_scale kwargs k kf :
  kwargs !! "psf_type" = Some (PStr "pixel") →
  _psf_subgrid self = false →
  kwargs !! "kernel_pixel" = Some k →
  kwargs !! "kernel_fft" = Some kf →
  kwargs !! "kernel_pixel_fft" = None →
  psf_convolution gaussian_filter signal_fftconvolve fft_fftconvolve
    util_subgrid_kernel util_cut_psf self grid grid_scale kwargs
  = Raise (KeyError "kernel_pixel_fft").
Proof.
  intros Ht Hs Hk Hf Hnone.
  unfold psf_convolution, dict_get.
  rewrite Ht, Hs. simpl.
  rewrite (getitem_Some _ _ _ Hk), (getitem_None _ _ Hnone).
  assert (contains kwargs "kernel_fft" = true) as ->
    by (apply contains_true; eauto).
  done.
Qed.

End PSF_properties.

(** ** Arithmetic on [num] *)

Lemma Qc_compare_Lt (a b : Qc) : (a ?= b) = Lt ↔ a < b.
Proof. symmetry. apply Qclt_alt. Qed.

Lemma Qc_compare_Gt (a b : Qc) : (a ?= b) = Gt ↔ b < a.
Proof. symmetry. apply Qcgt_alt. Qed.

Lemma Qc_compare_Eq (a b : Qc) : (a ?= b) = Eq ↔ a = b.
Proof. symmetry. apply Qceq_alt. Qed.

Lemma Qc_compare_refl (a : Qc) : (a ?= a) = Eq.
Proof. by apply Qc_compare_Eq. Qed.

Lemma Qclt_irrefl (a : Qc) : ¬ a < a.
Proof. intros H. apply Qclt_not_le in H. apply H, Qcle_refl. Qed.

Lemma npos_Fin (q : Qc) : npos (Fin q) ↔ 0 < q.
Proof.
  unfold npos, nltb. simpl. rewrite <- Qc_compare_Lt.
  destruct (0 ?= q); split; congruence.
Qed.

Lemma nnonneg_Fin (q : Qc) : nnonneg (Fin q) ↔ 0 ≤ q.
Proof.
  unfold nnonneg, nleb. simpl. rewrite Qcle_alt.
  destruct (0 ?= q); split; congruence.
Qed.

Lemma npos_cases x : npos x ↔ x = PInf ∨ ∃ q, x = Fin q ∧ 0 < q.
Proof.
  split.
  - destruct x as [q| | |]; try discriminate; eauto.
    intros H. right. exists q. split; [done|by apply npos_Fin].
  - intros [->|(q & -> & H)]; [done|by apply npos_Fin].
Qed.

Lemma nnonneg_cases x : nnonneg x ↔ x = PInf ∨ ∃ q, x = Fin q ∧ 0 ≤ q.
Proof.
  split.
  - destruct x as [q| | |]; try discriminate; eauto.
    intros H. right. exists q. split; [done|by apply nnonneg_Fin].
  - intros [->|(q & -> & H)]; [done|by apply nnonneg_Fin].
Qed.

Lemma npos_npow2 x : npos x → npos (npow2 x).
Proof.
  intros [->|(q & -> & H)]%npos_cases; [done|].
  apply npos_Fin. by apply Qcmult_pos_pos.
Qed.

Lemma Qcdiv_nonneg_pos (a p : Qc) : 0 ≤ a → 0 < p → 0 ≤ a / p.
Proof.
  intros Ha Hp. unfold Qcdiv.
  apply Qcmult_nonneg_nonneg; [done|].
  apply Qclt_le_weak. by apply Qcinv_pos.
Qed.

Lemma Qcpos_neq0 (p : Qc) : 0 < p → p ≠ 0.
Proof. intros H ->. by apply (Qclt_irrefl 0). Qed.

Lemma nnonneg_ndiv_pos x p : nnonneg x → 0 < p → nnonneg (ndiv x (Fin p)).
Proof.
  intros [->|(a & -> & Ha)]%nnonneg_cases Hp; simpl.
  - apply Qc_compare_Gt in Hp. by rewrite Hp.
  - destruct (decide (p = 0)) as [->|_]; [by apply Qclt_irrefl in Hp|].
    apply nnonneg_Fin. by apply Qcdiv_nonneg_pos.
Qed.

Lemma npos_nadd_nonneg x s : nnonneg x → npos s → npos (nadd x s).
Proof.
  intros [->|(a & -> & Ha)]%nnonneg_cases [->|(q & -> & Hq)]%npos_cases;
    try done.
  apply npos_Fin.
  apply Qcle_lt_trans with (0 + 0); [by apply Qcle_refl|].
  apply Qcle_lt_trans with (a + 0).
  - by apply Qcplus_le_mono_r.
  - by apply Qcplus_lt_mono_l.
Qed.

(** ** The noise model *)

Lemma bool_assign_scalar_map (p : num → bool) (a : list num) v :
  bool_assign_scalar a (map p a) v = Ok (map (λ x, if p x then v else x) a).
Proof.
  unfold bool_assign_scalar. rewrite length_map.
  destruct (decide _) as [_|]; [|done]. f_equal.
  induction a as [|x a IH]; simpl; [done|]. by rewrite IH.
Qed.

Lemma length_select_map {A} (p : A → bool) (a : list A) :
  length (select (map p a) a) = count_true (map p a).
Proof.
  unfold count_true. induction a as [|x a IH]; [done|].
  change (map p (x :: a)) with (p x :: map p a).
  destruct (p x).
  - rewrite filter_cons_True by done. simpl. by rewrite IH.
  - by rewrite filter_cons_False by done.
Qed.

Lemma scatter_select (p : num → bool) (a : list num) z :
  scatter (map p a) (replicate (length a) z) (select (map p a) a)
  = map (λ x, if p x then x else z) a.
Proof.
  induction a as [|x a IH]; simpl; [done|].
  destruct (p x); simpl; by rewrite IH.
Qed.

Lemma d_pos_computed d :
  (vals ← bool_index d (ge_mask d (Fin 0));
   bool_assign (np_zeros_like d) (ge_mask d (Fin 0)) vals)
  = Ok (d_pos_of d).
Proof.
  unfold bool_index, bool_assign, ge_mask, np_zeros_like, np_zeros.
  rewrite length_map, decide_True by done.
  unfold_result.
  rewrite length_replicate, length_select_map.
  rewrite !decide_True by done.
  by rewrite scatter_select.
Qed.

(** [covariance_matrix] with a scalar exposure. *)
Lemma covariance_matrix_Scalar d sigma_b t w :
  let t' := if nleb t (Fin 0) then Fin 1 else t in
  covariance_matrix d sigma_b (Scalar t) w
  = (Ok (Arr (map (λ x, nadd (ndiv x t') (npow2 sigma_b)) (d_pos_of d))),
     warn_world sigma_b t' w).
Proof.
  intros t'. unfold covariance_matrix, warn_world.
  pose proof (d_pos_computed d) as Hd. unfold_result.
  destruct (bool_index d (ge_mask d (Fin 0))) as [vals|]; [|done].
  unfold_M. subst t'.
  destruct (nleb t (Fin 0)); simpl;
    (destruct (nltb _ (Fin 1)); simpl; rewrite Hd; simpl;
     by rewrite map_map).
Qed.

(** [covariance_matrix] with an exposure map: the map is overwritten in
    place before anything else happens. *)
Lemma covariance_matrix_Map d sigma_b l fv x fv' w :
  heap w !! l = Some fv →
  clamp_exposure fv = x :: fv' →
  covariance_matrix d sigma_b (Map l) w
  = (q ← broadcast2 ndiv (d_pos_of d) (x :: fv');
     mret (Arr (map (λ y, nadd y (npow2 sigma_b)) q)),
     warn_world sigma_b (foldl nmax x fv')
       (World (<[l := x :: fv']> (heap w)) (stdout w))).
Proof.
  intros Hl Hc. unfold covariance_matrix, warn_world.
  pose proof (d_pos_computed d) as Hd. unfold_result.
  destruct (bool_index d (ge_mask d (Fin 0))) as [vals|]; [|done].
  unfold_M. rewrite Hl. unfold lt_mask.
  rewrite bool_assign_scalar_map. fold (clamp_exposure fv). rewrite Hc.
  simpl.
  destruct (nltb _ (Fin 1)); simpl; rewrite Hd; simpl;
    by destruct (broadcast2 ndiv (d_pos_of d) (x :: fv')).
Qed.

(** C2 (the code where it departs from the specification): with
    [sigma_b * max(f) = 2 >= 1] nothing is printed, and with
    [sigma_b * max(f) = 1/2 < 1] the warning is printed; the variance is
    returned both times. *)
Theorem covariance_matrix_warning_inverted w :
  covariance_matrix [Fin 1] (of_Z 2) (Scalar (Fin 1)) w
  = (Ok (Arr [of_Z 5]), w)
  ∧ covariance_matrix [Fin 1] (of_Q (1 # 2)) (Scalar (Fin 1)) w
    = (Ok (Arr [of_Q (5 # 4)]),
       World (heap w)
             (stdout w ++ [MsgNum unstable_warning (of_Q (1 # 2))])).
Proof.
  split; rewrite covariance_matrix_Scalar; vm_compute; reflexivity.
Qed.

(** The warning is printed exactly when [sigma_b * max(f) < 1]; a scalar
    exposure always yields a variance. *)
Lemma covariance_matrix_Scalar_stdout d sigma_b t w :
  let t' := if nleb t (Fin 0) then Fin 1 else t in
  let '(r, w') := covariance_matrix d sigma_b (Scalar t) w in
  (∃ sigma, r = Ok sigma)
  ∧ heap w' = heap w
  ∧ stdout w'
    = stdout w
      ++ (if nltb (nmul sigma_b t') (Fin 1)
          then [MsgNum unstable_warning (nmul sigma_b t')] else []).
Proof.
  intros t'. rewrite covariance_matrix_Scalar. fold t'.
  split; [eauto|]. unfold warn_world.
  destruct (nltb _ _); simpl; [done|]. by rewrite app_nil_r.
Qed.

Lemma ndiv_Fin_10 m : ndiv (Fin m) (of_Z 10) = Fin (m / Q2Qc (inject_Z 10)).
Proof.
  unfold ndiv, of_Z. destruct (decide _) as [e|]; [|done].
  apply (f_equal this) in e. vm_compute in e. discriminate.
Qed.

Lemma fin_pos_npos x : fin_pos x → npos x.
Proof. intros (p & -> & Hp). by apply npos_Fin. Qed.

(** After the clamp every entry of a finite map with positive mean is a
    positive number. *)
Lemma clamp_exposure_fin_pos fv :
  Forall is_fin fv → fin_pos (np_mean fv) →
  Forall fin_pos (clamp_exposure fv).
Proof.
  intros Hfin (m & Hm & Hpos). unfold clamp_exposure.
  rewrite Hm, ndiv_Fin_10.
  assert (0 < m / Q2Qc (inject_Z 10)) as Hfloor.
  { unfold Qcdiv. apply Qcmult_pos_pos; [done|]. by apply Qcinv_pos. }
  apply List.Forall_map. eapply Forall_impl; [exact Hfin|].
  intros x Hx. simpl in Hx.
  destruct x as [q| | |]; try done.
  unfold nltb. simpl.
  destruct (q ?= m / Q2Qc (inject_Z 10)) eqn:Hc.
  - exists q. split; [done|]. apply Qc_compare_Eq in Hc. by rewrite Hc.
  - by eexists.
  - exists q. split; [done|]. apply Qc_compare_Gt in Hc.
    by apply Qclt_trans with (m / Q2Qc (inject_Z 10)).
Qed.

Lemma d_pos_of_nonneg d : Forall nnonneg (d_pos_of d).
Proof.
  unfold d_pos_of. induction d as [|x d IH]; constructor; [|done].
  unfold ngeb. destruct (nleb (Fin 0) x) eqn:E; [done|].
  by apply nnonneg_Fin, Qcle_refl.
Qed.

Lemma zip_with_ndiv_nonneg a b :
  Forall nnonneg a → Forall fin_pos b → Forall nnonneg (zip_with ndiv a b).
Proof.
  intros Ha. revert b.
  induction Ha as [|x a Hx Ha IH]; intros b Hb; [constructor|].
  destruct Hb as [|y b (p & -> & Hp) Hb]; simpl; constructor; auto.
  by apply nnonneg_ndiv_pos.
Qed.

Lemma Forall_nadd_npos a s :
  Forall nnonneg a → npos s → Forall npos (map (λ y, nadd y s) a).
Proof.
  intros Ha Hs. induction Ha; constructor; auto.
  by apply npos_nadd_nonneg.
Qed.

(** In exact arithmetic: for every data vector, every background sigma
    [> 0] and every finite scalar exposure, or finite exposure map of the
    data's length whose mean is a positive number, [covariance_matrix]
    returns a vector of the data's length whose entries are all strictly
    greater than 0. *)
Lemma covariance_matrix_positive_mean d sigma_b f w :
  npos sigma_b →
  exposure_admissible w d f →
  ∃ v w', covariance_matrix d sigma_b f w = (Ok (Arr v), w')
          ∧ length v = length d ∧ Forall npos v.
Proof.
  intros Hs Hf. pose proof (npos_npow2 _ Hs) as Hs2.
  destruct f as [t|l]; simpl in Hf.
  - rewrite covariance_matrix_Scalar. do 2 eexists. split; [done|].
    split; [unfold d_pos_of; by rewrite !length_map|].
    apply List.Forall_map. eapply Forall_impl; [apply d_pos_of_nonneg|].
    intros x Hd. simpl in Hd.
    apply npos_nadd_nonneg; [|done].
    destruct t as [q| | |]; try done.
    destruct (nleb (Fin q) (Fin 0)) eqn:Hle.
    + by apply nnonneg_ndiv_pos.
    + apply nnonneg_ndiv_pos; [done|].
      unfold nleb in Hle. simpl in Hle.
      destruct (q ?= 0) eqn:Hc; try discriminate.
      by apply Qc_compare_Gt in Hc.
  - destruct Hf as (fv & Hl & Hfin & Hmean & Hlen).
    pose proof (clamp_exposure_fin_pos fv Hfin Hmean) as Hc.
    assert (length (clamp_exposure fv) = length d) as Hlen'
      by (unfold clamp_exposure; by rewrite length_map).
    destruct (clamp_exposure fv) as [|x fv'] eqn:Hcl.
    + (* an empty map has no positive mean *)
      destruct Hmean as (m & Hm & Hpos). destruct fv; [|done].
      vm_compute in Hm. discriminate.
    + erewrite covariance_matrix_Map by done.
      unfold broadcast2. rewrite decide_True
        by (unfold d_pos_of; rewrite length_map; congruence).
      do 2 eexists. split; [done|].
      split.
      * rewrite length_map, length_zip_with. unfold d_pos_of.
        rewrite length_map. lia.
      * apply Forall_nadd_npos; [|done].
        apply zip_with_ndiv_nonneg; [apply d_pos_of_nonneg|done].
Qed.

(** ** Fit statistics *)

Lemma np_binop_Arr_r op (a : value) (v : list num) :
  (∃ u, np_binop op a (Arr v) = Ok (Arr u))
  ∨ np_binop op a (Arr v) = Raise broadcast_error.
Proof.
  destruct a as [x|u]; simpl; [eauto|].
  unfold broadcast2. destruct (decide _); simpl; [eauto|].
  destruct u as [|? [|]]; simpl; eauto; destruct v as [|? [|]]; simpl; eauto.
Qed.

Lemma broadcast2_mismatch op (a b : list num) :
  length a ≠ length b → length a ≠ 1%nat → length b ≠ 1%nat →
  broadcast2 op a b = Raise broadcast_error.
Proof.
  intros Hab Ha Hb. unfold broadcast2. rewrite decide_False by done.
  destruct a as [|? [|]]; try done; destruct b as [|? [|]]; done.
Qed.

Lemma broadcast2_same_length op (a b : list num) :
  length a = length b → broadcast2 op a b = Ok (zip_with op a b).
Proof. intros H. unfold broadcast2. by rewrite decide_True. Qed.

(** C3 (amended): for every model vector whose length differs from the
    length of the stored active data vector, neither length being 1, each of
    [reduced_residuals], [log_likelihood] and [reduced_chi2] fails with
    numpy's broadcasting [ValueError] and returns no value. *)
Theorem fit_statistics_length_mismatch np_sqrt self (model : list num) e :
  length model ≠ length (_data self) →
  length model ≠ 1%nat →
  length (_data self) ≠ 1%nat →
  reduced_residuals np_sqrt self (Arr model) e = Raise broadcast_error
  ∧ log_likelihood self (Arr model) e = Raise broadcast_error
  ∧ reduced_chi2 self (Arr model) e = Raise broadcast_error.
Proof.
  intros Hne Hm Hd.
  unfold reduced_residuals, log_likelihood, reduced_chi2, np_sub.
  simpl. by rewrite broadcast2_mismatch.
Qed.

(** A model of the stored length, or of length 1 (which is broadcast), gives
    a log-likelihood. *)
Lemma log_likelihood_returns self (model : list num) e :
  Data_shape self → error_term_fits self e →
  length model = length (_data self) ∨ length model = 1%nat →
  ∃ L, log_likelihood self (Arr model) e = Ok L.
Proof.
  intros [Hml (c & Hc & Hcl)] He Hmodel.
  unfold log_likelihood, np_sub, np_add, np_div, np_mul. rewrite Hc.
  unfold error_term_fits in He. revert Hml Hcl He Hmodel.
  generalize (_data self). intros d Hml Hcl He Hmodel.
  assert (∃ df, np_binop nsub (Arr model) (Arr d) = Ok (Arr df)
                ∧ length df = length d) as (df & -> & Hdf).
  { unfold np_binop, broadcast2. destruct (decide _) as [Hl|Hl].
    - exists (zip_with nsub model d). split; [done|].
      rewrite length_zip_with. lia.
    - destruct Hmodel as [?|H1]; [done|].
      destruct model as [|x [|]]; try done.
      exists (map (nsub x) d). split; [done|]. by rewrite length_map. }
  unfold_result.
  assert (∃ var, np_binop nadd (Arr c) (np_unop nabs e) = Ok (Arr var)
                 ∧ length var = length d) as (var & -> & Hvar).
  { destruct e as [y|a]; simpl.
    - eexists. split; [done|]. by rewrite length_map.
    - rewrite broadcast2_same_length by (rewrite length_map; congruence).
      eexists. split; [done|].
      rewrite length_zip_with, length_map. lia. }
  simpl. rewrite broadcast2_same_length by (rewrite length_map; congruence).
  simpl. rewrite broadcast2_same_length
    by (rewrite length_zip_with, length_map; lia).
  simpl. eauto.
Qed.

(** *** An exact match *)

Lemma length_np_zeros n : length (np_zeros n) = n.
Proof. apply length_replicate. Qed.

Lemma zip_with_nsub_self d :
  Forall is_fin d → zip_with nsub d d = np_zeros (length d).
Proof.
  unfold np_zeros. induction 1 as [|x d Hx _ IH]; [done|].
  cbn [zip_with length replicate]. rewrite IH.
  destruct x as [q| | |]; try done.
  unfold nsub. cbn [nneg nadd]. do 2 f_equal. ring.
Qed.

Lemma map_npow2_zeros n : map npow2 (np_zeros n) = np_zeros n.
Proof.
  unfold np_zeros. induction n as [|n IH]; [done|].
  cbn [replicate map]. by rewrite IH.
Qed.

Lemma ndiv_zero_fin_pos y : fin_pos y → ndiv (Fin 0) y = Fin 0.
Proof.
  intros (p & -> & Hp). cbn [ndiv].
  rewrite decide_False by (by apply Qcpos_neq0).
  f_equal. field. by apply Qcpos_neq0.
Qed.

Lemma zip_with_ndiv_zeros c :
  Forall fin_pos c → zip_with ndiv (np_zeros (length c)) c = np_zeros (length c).
Proof.
  unfold np_zeros. induction 1 as [|y c Hy _ IH]; [done|].
  cbn [length replicate zip_with]. by rewrite IH, ndiv_zero_fin_pos.
Qed.

Lemma zip_with_nmul_zeros m :
  Forall is_fin m → zip_with nmul (np_zeros (length m)) m = np_zeros (length m).
Proof.
  unfold np_zeros. induction 1 as [|y m Hy _ IH]; [done|].
  cbn [length replicate zip_with]. rewrite IH. f_equal.
  destruct y as [q| | |]; try done. cbn [nmul]. f_equal. ring.
Qed.

Lemma np_sum_list_zeros n : np_sum_list (np_zeros n) = Fin 0.
Proof.
  unfold np_sum_list, np_zeros. induction n as [|n IH]; [done|].
  cbn [replicate foldr]. by rewrite IH.
Qed.


Lemma map_nadd_zero_fin_pos c :
  Forall fin_pos c → Forall fin_pos (map (λ x, nadd x (nabs (Fin 0))) c).
Proof.
  intros H. apply List.Forall_map. eapply Forall_impl; [exact H|].
  intros x (p & -> & Hp). exists p. split; [|done].
  cbn [nabs nadd]. rewrite Qc_compare_refl. f_equal. ring.
Qed.

Lemma of_Z_2_neq0 : Q2Qc (inject_Z 2) ≠ 0.
Proof. intros e. apply (f_equal this) in e. vm_compute in e. discriminate. Qed.

Lemma half_neg_zero : ndiv (nneg (Fin 0)) (of_Z 2) = Fin 0.
Proof.
  unfold of_Z. cbn [nneg ndiv]. rewrite decide_False by apply of_Z_2_neq0.
  f_equal. field. apply of_Z_2_neq0.
Qed.

(** The weighted squared residuals of an exact match are all zero. *)
Lemma exact_match_terms self :
  Data_wf self →
  (diff ← np_sub (Arr (_data self)) (Arr (_data self));
   var ← np_add (C_D self) (np_unop nabs (Scal (Fin 0)));
   q ← np_div (np_unop npow2 diff) var;
   np_mul q (Arr (mask self)))
  = Ok (Arr (np_zeros (length (_data self)))).
Proof.
  intros [[Hml (c & Hc & Hcl)] Hd Hm Hpos].
  unfold np_sub, np_add, np_div, np_mul. rewrite Hc in *.
  cbn [entries] in Hpos.
  cbn [np_binop np_unop].
  rewrite broadcast2_same_length, zip_with_nsub_self by done.
  unfold_result. cbn [np_binop np_unop]. rewrite map_npow2_zeros.
  pose proof (map_nadd_zero_fin_pos c Hpos) as Hpos'.
  rewrite broadcast2_same_length
    by (by rewrite length_map, Hcl, length_np_zeros).
  rewrite <- Hcl at 1.
  rewrite <- (length_map (λ x : num, nadd x (nabs (Fin 0))) c) at 1.
  rewrite zip_with_ndiv_zeros by done.
  rewrite length_map, Hcl, <- Hml.
  cbn [rmap rbind np_binop].
  rewrite broadcast2_same_length by (by rewrite length_np_zeros).
  by rewrite zip_with_nmul_zeros.
Qed.


(** The log-likelihood of an exact match is 0 whatever the fit mask sums
    to. *)
Lemma exact_match_log_likelihood self :
  Data_wf self →
  log_likelihood self (Arr (_data self)) (Scal (Fin 0)) = Ok (Fin 0).
Proof.
  intros Hwf. pose proof (exact_match_terms self Hwf) as Ht.
  unfold log_likelihood. unfold_result.
  destruct (np_sub _ _) as [diff|]; [|done]. simpl in Ht.
  destruct (np_add _ _) as [var|]; [|done]. simpl in Ht.
  destruct (np_div _ _) as [q|]; [|done]. simpl in Ht.
  rewrite Ht. cbn [np_sum]. by rewrite np_sum_list_zeros, half_neg_zero.
Qed.

(** *** Reduced chi-square against log-likelihood *)

Lemma Qc_two : Q2Qc (inject_Z 2) = 1 + 1.
Proof. apply Qc_is_canon. reflexivity. Qed.

Lemma Qc_minus_two : Q2Qc (inject_Z (-2)) = - (1 + 1).
Proof. apply Qc_is_canon. reflexivity. Qed.

Lemma Qc_two_neq0 : (1 + 1 : Qc) ≠ 0.
Proof. rewrite <- Qc_two. apply of_Z_2_neq0. Qed.

(** [-2 * (-T / 2)] is [T], also at the special values. *)
Lemma rescale_half_neg T :
  nmul (of_Z (-2)) (ndiv (nneg T) (of_Z 2)) = T.
Proof.
  destruct T as [t| | |]; try reflexivity.
  unfold of_Z. cbn [nneg ndiv nmul].
  rewrite decide_False by apply of_Z_2_neq0. cbn [nmul].
  f_equal. rewrite Qc_two, Qc_minus_two. field. apply Qc_two_neq0.
Qed.

Lemma Qc_compare_neq0 (s : Qc) :
  s ≠ 0 → (s ?= 0) = Lt ∨ (s ?= 0) = Gt.
Proof.
  intros Hs. destruct (s ?= 0) eqn:Hc; auto.
  by apply Qc_compare_Eq in Hc.
Qed.

(** Division by a non-zero number distributes over numpy addition, also at
    the special values. *)
Lemma ndiv_nadd_distr a b s :
  s ≠ 0 →
  ndiv (nadd a b) (Fin s) = nadd (ndiv a (Fin s)) (ndiv b (Fin s)).
Proof.
  intros Hs.
  destruct a as [p| | |], b as [q| | |]; cbn [nadd ndiv];
    rewrite ?decide_False by done; cbn [nadd];
    try reflexivity;
    try (destruct (Qc_compare_neq0 s Hs) as [-> | ->]; reflexivity).
  f_equal. by field.
Qed.

Lemma np_sum_list_ndiv X s :
  s ≠ 0 →
  np_sum_list (map (λ x, ndiv x (Fin s)) X) = ndiv (np_sum_list X) (Fin s).
Proof.
  intros Hs. unfold np_sum_list. induction X as [|x X IH].
  - cbn [map foldr ndiv]. rewrite decide_False by done. f_equal. by field.
  - cbn [map foldr]. by rewrite IH, ndiv_nadd_distr.
Qed.

(** Whatever the model and the error term, [reduced_chi2] is
    [log_likelihood] rescaled, and fails when [log_likelihood] fails. *)
Lemma reduced_chi2_rescales self model e s :
  np_sum_list (mask self) = Fin s → s ≠ 0 →
  reduced_chi2 self model e
  = rmap (λ L, ndiv (nmul (of_Z (-2)) L) (Fin s))
         (log_likelihood self model e).
Proof.
  intros Hs Hs0. unfold reduced_chi2, log_likelihood. unfold_result.
  destruct (np_sub _ _) as [diff|]; [|done].
  destruct (np_add _ _) as [var|]; [|done].
  destruct (np_div _ _) as [q|]; [|done].
  unfold np_mul.
  destruct (np_binop_Arr_r nmul q (mask self)) as [(X & ->)| ->]; [|done].
  cbn [np_sum np_div np_binop]. rewrite Hs, rescale_half_neg.
  cbn [np_sum]. by rewrite np_sum_list_ndiv.
Qed.

(** C10 (amended): in exact arithmetic, for every model vector of the
    stored active length and every model-error term, whenever the sum of the
    fit mask is a non-zero number, [reduced_chi2] is [-2 * log_likelihood]
    divided by that sum (and fails where [log_likelihood] fails); both
    return when the error term is a scalar or a vector of the stored
    length. *)
Theorem reduced_chi2_log_likelihood self (model : list num) e s :
  Data_shape self →
  length model = length (_data self) →
  np_sum_list (mask self) = Fin s →
  s ≠ 0 →
  reduced_chi2 self (Arr model) e
  = (λ L, ndiv (nmul (of_Z (-2)) L) (Fin s))
      <$> log_likelihood self (Arr model) e
  ∧ (error_term_fits self e →
     ∃ L, log_likelihood self (Arr model) e = Ok L
          ∧ reduced_chi2 self (Arr model) e
            = Ok (ndiv (nmul (of_Z (-2)) L) (Fin s))).
Proof.
  intros Hshape Hlen Hs Hs0.
  pose proof (reduced_chi2_rescales self (Arr model) e s Hs Hs0) as Heq.
  split; [exact Heq|]. intros He.
  destruct (log_likelihood_returns self model e Hshape He) as (L & HL);
    [by left|].
  exists L. split; [done|]. by rewrite Heq, HL.
Qed.

(** ** Masked-grid bookkeeping *)

Lemma length_select {A} (sel : list bool) (a : list A) :
  length sel = length a → length (select sel a) = count_true sel.
Proof.
  unfold count_true. revert a.
  induction sel as [|b sel IH]; intros [|x a] Hl; try done.
  injection Hl as Hl. cbn [select]. destruct b.
  - rewrite filter_cons_True by done. cbn [length]. by rewrite IH.
  - rewrite filter_cons_False by done. by apply IH.
Qed.

Lemma length_scatter sel a vs : length (scatter sel a vs) = length a.
Proof.
  revert a vs. induction sel as [|b sel IH]; intros [|x a] vs; try done.
  cbn [scatter]. destruct b; [destruct vs|]; cbn [length]; by rewrite IH.
Qed.

Lemma select_scatter sel a vs :
  length sel = length a → length vs = count_true sel →
  select sel (scatter sel a vs) = vs.
Proof.
  unfold count_true. revert a vs.
  induction sel as [|b sel IH]; intros [|x a] vs Hl Hc; try done.
  - by destruct vs.
  - injection Hl as Hl. cbn [scatter]. destruct b.
    + rewrite filter_cons_True in Hc by done.
      destruct vs as [|v vs]; [done|]. injection Hc as Hc.
      cbn [select]. by rewrite IH.
    + rewrite filter_cons_False in Hc by done.
      cbn [select]. by apply IH.
Qed.

Lemma length_reshape_rows nx ny a : length (reshape_rows nx ny a) = nx.
Proof.
  revert a. induction nx as [|nx IH]; intros a; [done|].
  cbn [reshape_rows length]. by rewrite IH.
Qed.

Lemma concat_reshape_rows nx ny a :
  length a = (nx * ny)%nat → concat (reshape_rows nx ny a) = a.
Proof.
  revert a. induction nx as [|nx IH]; intros a Hl.
  - by destruct a.
  - cbn [reshape_rows concat]. rewrite IH.
    + apply take_drop.
    + rewrite length_drop. lia.
Qed.

Lemma util_array2image_flat a nx ny :
  length a = (nx * ny)%nat →
  ∃ g, util_array2image a nx ny = Ok g ∧ util_image2array g = a.
Proof.
  intros Hl. unfold util_array2image, util_image2array.
  rewrite decide_True by done. eexists. split; [done|].
  by apply concat_reshape_rows.
Qed.

(** Scattering an active vector into the full grid and compacting the grid
    again gives the vector back: the two maps are inverse on the masked
    support. *)
Lemma array2image_image2array self h (a : list num) :
  grid_consistent self h →
  active_vector self h a →
  (g ← array2image self h a 1; image2array self h g) = Ok a.
Proof.
  intros Hgrid Ha.
  unfold array2image, image2array, grid_consistent, active_vector in *.
  rewrite !Nat.mul_1_r. unfold_result.
  destruct (_idex_mask_bool self).
  - destruct Ha as (idex & Hh & Hla). destruct Hgrid as (? & Hh' & Hli); [done|].
    simplify_eq. unfold deref. rewrite Hh.
    rewrite decide_False by lia.
    unfold bool_assign, valid_pixels, eq_mask in *.
    rewrite length_map, length_np_zeros, decide_True by done.
    rewrite decide_True by done.
    destruct (util_array2image_flat
                (scatter (map (λ x : num, neqb x (Fin 1)) idex)
                         (np_zeros (_nx self * _ny self)) a)
                (_nx self) (_ny self)) as (g & -> & Hg).
    { by rewrite length_scatter, length_np_zeros. }
    rewrite Hg. unfold bool_index.
    rewrite length_map, length_scatter, length_np_zeros, decide_True by done.
    f_equal. apply select_scatter; [|done].
    by rewrite length_map, length_np_zeros.
  - destruct (util_array2image_flat a (_nx self) (_ny self) Ha)
      as (g & -> & Hg).
    by rewrite Hg.
Qed.

(** C6: for every image with [nx * ny] pixels and every index mask of that
    length, compacting returns a vector, and scattering that vector into the
    full grid and compacting again returns exactly the same vector; more
    generally compacting undoes scattering on every active vector. *)
Theorem compaction_round_trip self h (img : image) :
  grid_consistent self h →
  length (util_image2array img) = (_nx self * _ny self)%nat →
  (∃ a, image2array self h img = Ok a
        ∧ (g ← array2image self h a 1; image2array self h g) = Ok a)
  ∧ ∀ a, active_vector self h a →
         (g ← array2image self h a 1; image2array self h g) = Ok a.
Proof.
  intros Hgrid Himg.
  split; [|intros a Ha; by apply array2image_image2array].
  assert (∃ a, image2array self h img = Ok a ∧ active_vector self h a)
    as (a & Ha & Hfit).
  { unfold image2array, grid_consistent, active_vector in *.
    destruct (_idex_mask_bool self).
    - destruct Hgrid as (idex & Hh & Hli); [done|].
      unfold deref. rewrite Hh. unfold_result. cbv beta iota.
      unfold bool_index, eq_mask.
      rewrite length_map, decide_True by congruence.
      eexists. split; [done|]. exists idex. split; [done|].
      apply length_select. unfold valid_pixels, eq_mask.
      rewrite length_map. congruence.
    - eexists. split; [done|]. done. }
  exists a. split; [done|]. by apply array2image_image2array.
Qed.

(** *** The subgrid index mask *)

(** Position [i * m + j] of the concatenation of rows of length [m] is
    position [j] of row [i]. *)
Lemma lookup_concat_uniform {A} (m : nat) (ls : list (list A)) i j :
  Forall (λ r, length r = m) ls → (j < m)%nat →
  concat ls !! (i * m + j)%nat = ls !! i ≫= (.!! j).
Proof.
  intros Hls Hj. revert i.
  induction Hls as [|r ls Hr _ IH]; intros i; [done|].
  cbn [concat]. destruct i as [|i].
  - rewrite lookup_app_l by (simpl; lia). done.
  - rewrite lookup_app_r by (simpl; lia).
    replace (S i * m + j - length r)%nat with (i * m + j)%nat by (simpl; lia).
    by rewrite IH.
Qed.

Lemma length_concat_uniform {A} (m : nat) (ls : list (list A)) :
  Forall (λ r, length r = m) ls → length (concat ls) = (length ls * m)%nat.
Proof.
  induction 1 as [|r ls Hr _ IH]; [done|].
  cbn [concat length]. rewrite length_app. lia.
Qed.

Lemma np_repeat_rows {A} (a : list A) k :
  Forall (λ r, length r = k) (map (replicate k) a).
Proof.
  apply List.Forall_map, Forall_forall. intros x _. apply length_replicate.
Qed.

Lemma length_np_repeat {A} (a : list A) k :
  length (np_repeat a k) = (length a * k)%nat.
Proof.
  unfold np_repeat.
  by rewrite (length_concat_uniform k) by apply np_repeat_rows;
    rewrite length_map.
Qed.

Lemma lookup_map {A B} (f : A → B) (l : list A) i :
  map f l !! i = f <$> l !! i.
Proof.
  revert i. induction l as [|x l IH]; intros [|i]; try done. apply IH.
Qed.

(** [np.repeat]: the [k] positions from [i * k] on hold element [i]. *)
Lemma lookup_np_repeat {A} (a : list A) k i b :
  (b < k)%nat → np_repeat a k !! (i * k + b)%nat = a !! i.
Proof.
  intros Hb. unfold np_repeat.
  rewrite (lookup_concat_uniform k) by (done || apply np_repeat_rows).
  rewrite lookup_map.
  destruct (a !! i) as [x|]; [|done]. simpl.
  by apply lookup_replicate_2.
Qed.

Lemma Forall_np_repeat {A} (P : A → Prop) (a : list A) k :
  Forall P a → Forall P (np_repeat a k).
Proof.
  unfold np_repeat. induction 1 as [|x a Hx _ IH]; [constructor|].
  cbn [map concat]. apply Forall_app. split; [|done].
  by apply Forall_replicate.
Qed.

Lemma np_repeat_1 {A} (a : list A) : np_repeat a 1 = a.
Proof.
  unfold np_repeat. induction a as [|x a IH]; [done|].
  cbn [map concat replicate app]. by f_equal.
Qed.

Lemma reshape_rows_uniform nx ny a :
  length a = (nx * ny)%nat →
  Forall (λ r, length r = ny) (reshape_rows nx ny a).
Proof.
  revert a. induction nx as [|nx IH]; intros a Hl; [constructor|].
  cbn [reshape_rows]. constructor.
  - rewrite length_take. lia.
  - apply IH. rewrite length_drop. lia.
Qed.

Lemma lookup_reshape_rows nx ny a i :
  (i < nx)%nat →
  reshape_rows nx ny a !! i = Some (take ny (drop (i * ny) a)).
Proof.
  revert a i. induction nx as [|nx IH]; intros a i Hi; [lia|].
  cbn [reshape_rows]. destruct i as [|i]; [done|].
  cbn [lookup list_lookup]. rewrite IH by lia.
  rewrite drop_drop. do 3 f_equal.
Qed.

(** Pixel [(i, j)] of the reshaped image is entry [i * ny + j]. *)
Lemma lookup_reshape_rows_pixel nx ny a i j :
  (i < nx)%nat → (j < ny)%nat →
  reshape_rows nx ny a !! i ≫= (.!! j) = a !! (i * ny + j)%nat.
Proof.
  intros Hi Hj. rewrite lookup_reshape_rows by done. simpl.
  by rewrite lookup_take_lt, lookup_drop by done.
Qed.

(** [_subgrid_idex] returns for every mask of length [nx * ny], and entry
    [(i*k + a, j*k + b)] of the result, read as an [nx*k] by [ny*k] image,
    is entry [(i, j)] of the mask. *)
Lemma _subgrid_idex_blocks idex k nx ny :
  length idex = (nx * ny)%nat →
  ∃ sub, _subgrid_idex idex k nx ny = Ok sub
         ∧ length sub = ((nx * k) * (ny * k))%nat
         ∧ ∀ i j a b, (i < nx)%nat → (j < ny)%nat → (a < k)%nat → (b < k)%nat →
             sub !! ((i * k + a) * (ny * k) + (j * k + b))%nat
             = idex !! (i * ny + j)%nat.
Proof.
  intros Hl. unfold _subgrid_idex, util_array2image, util_image2array.
  rewrite length_np_repeat, decide_True by lia.
  unfold_result. eexists. split; [done|].
  pose proof (reshape_rows_uniform nx (ny * k) (np_repeat idex k)) as Hrows.
  rewrite length_np_repeat in Hrows. specialize (Hrows ltac:(lia)).
  assert (Forall (λ r : list num, length r = (ny * k)%nat)
            (np_repeat (reshape_rows nx (ny * k) (np_repeat idex k)) k))
    as Hrows'.
  { by apply Forall_np_repeat. }
  split.
  - rewrite (length_concat_uniform (ny * k)) by done.
    by rewrite length_np_repeat, length_reshape_rows.
  - intros i j a b Hi Hj Ha Hb.
    rewrite (lookup_concat_uniform (ny * k)) by (done || nia).
    rewrite lookup_np_repeat by done.
    rewrite lookup_reshape_rows_pixel by (done || nia).
    replace (i * (ny * k) + (j * k + b))%nat with ((i * ny + j) * k + b)%nat
      by nia.
    by apply lookup_np_repeat.
Qed.

(** C7: for every index mask of length [nx * ny], the subgrid mask for
    [subgrid_res = 1] is the index mask itself, and for [subgrid_res = k]
    it has [nx*k * ny*k] entries and the flag of native pixel [(i, j)] is
    the flag at every position [(i*k + a, j*k + b)], [a, b < k], of its
    [k] by [k] footprint. *)
Theorem subgrid_idex_block_upsampling idex nx ny :
  length idex = (nx * ny)%nat →
  _subgrid_idex idex 1 nx ny = Ok idex
  ∧ ∀ k, ∃ sub, _subgrid_idex idex k nx ny = Ok sub
         ∧ length sub = ((nx * k) * (ny * k))%nat
         ∧ ∀ i j a b, (i < nx)%nat → (j < ny)%nat → (a < k)%nat → (b < k)%nat →
             sub !! ((i * k + a) * (ny * k) + (j * k + b))%nat
             = idex !! (i * ny + j)%nat.
Proof.
  intros Hl. split; [|intros k; by apply _subgrid_idex_blocks].
  unfold _subgrid_idex, util_array2image, util_image2array.
  rewrite !np_repeat_1, Nat.mul_1_r, decide_True by done.
  unfold_result. rewrite np_repeat_1. f_equal.
  by apply concat_reshape_rows.
Qed.

(** ** What the stateful operations overwrite *)

Section Confined.

Variables D L : gset loc.

Lemma confined_ret {A} (a : A) (Q : A → Prop) :
  Q a → confined D L (ret a) Q.
Proof. intros HQ w Hw. unfold ret. simpl. split; [split|]; naive_solver. Qed.

Lemma confined_lift {A} (r : result A) (Q : A → Prop) :
  (∀ a, Q a) → confined D L (lift r) Q.
Proof. intros HQ w Hw. unfold lift. simpl. split; [split|]; naive_solver. Qed.

Lemma confined_read l (Q : list num → Prop) :
  (∀ a, Q a) → confined D L (read l) Q.
Proof.
  intros HQ w Hw. unfold read.
  destruct (heap w !! l); simpl; (split; [split|]); naive_solver.
Qed.

Lemma confined_print m (Q : unit → Prop) :
  Q tt → confined D L (print m) Q.
Proof.
  intros HQ w Hw. unfold print. simpl. split; [split|]; try done.
  by intros [].
Qed.

Lemma confined_write l a (Q : unit → Prop) :
  l ∈ L ∨ l ∉ D → Q tt → confined D L (write l a) Q.
Proof.
  intros Hwr HQ w Hw. unfold write. simpl. split; [split|].
  - rewrite dom_insert_L. apply union_subseteq_r.
  - intros l' Hin Hout. apply lookup_insert_ne.
    intros ->. by destruct Hwr.
  - by intros [].
Qed.

Lemma confined_alloc a (Q : loc → Prop) :
  (∀ l, l ∉ D → Q l) → confined D L (alloc a) Q.
Proof.
  intros HQ w Hw. unfold alloc. simpl.
  pose proof (is_fresh (dom (heap w))) as Hfresh.
  split; [split|].
  - rewrite dom_insert. set_solver.
  - intros l' Hl' HL. apply lookup_insert_ne. set_solver.
  - intros l [= <-]. apply HQ. set_solver.
Qed.

Lemma confined_bind {A B} (Q : A → Prop) (m : M A) (k : A → M B)
    (R : B → Prop) :
  confined D L m Q →
  (∀ a, Q a → confined D L (k a) R) →
  confined D L (bind m k) R.
Proof.
  intros Hm Hk w Hw. unfold bind.
  destruct (Hm w Hw) as [[Hdom Hsame] HQ].
  destruct (m w) as [[a|e] w1]; simpl in *.
  - destruct (Hk a (HQ a eq_refl) w1) as [[Hdom' Hsame'] HR];
      [set_solver|].
    split; [split|]; [set_solver| |done].
    intros l Hl HL. rewrite Hsame', Hsame; done.
  - split; [split|]; done.
Qed.

End Confined.

(** Runs through a computation with the rules above; an allocation yields a
    location outside [D]. *)
Ltac confine :=
  lazymatch goal with
  | |- confined ?D _ (bind (alloc _) _) _ =>
      eapply (confined_bind _ _ (λ l, l ∉ D));
      [apply confined_alloc; auto | intros ? ?; confine]
  | |- confined _ _ (bind _ _) _ =>
      eapply (confined_bind _ _ (λ _, True));
      [confine | intros ? _; confine]
  | |- confined _ _ (ret _) _ => apply confined_ret; simpl; auto
  | |- confined _ _ (lift _) _ => apply confined_lift; simpl; auto
  | |- confined _ _ (read _) _ => apply confined_read; simpl; auto
  | |- confined _ _ (print _) _ => apply confined_print; simpl; auto
  | |- confined _ _ (write _ _) _ =>
      apply confined_write; simpl; [set_solver|auto]
  | |- confined _ _ (alloc _) _ => apply confined_alloc; simpl; auto
  | |- confined _ _ (match ?x with _ => _ end) _ =>
      destruct x eqn:?; confine
  | |- _ => idtac
  end.

(** [covariance_matrix] writes to its exposure map only. *)
Lemma confined_covariance_matrix D L d sigma_b f :
  safe_exposure D L f →
  confined D L (covariance_matrix d sigma_b f) (λ _, True).
Proof.
  intros Hf. unfold covariance_matrix.
  unfold mbind, mret, M_bind, M_ret.
  destruct f as [t|l]; simpl in Hf; confine.
Qed.

Ltac confine_init :=
  lazymatch goal with
  | |- confined ?D _ (bind (alloc _) _) _ =>
      eapply (confined_bind _ _ (λ l, l ∉ D));
      [apply confined_alloc; auto | intros ? ?; confine_init]
  | |- confined ?D ?L (@bind exposure _ _ _) _ =>
      eapply (confined_bind _ _ (safe_exposure D L));
      [confine_init | intros ? ?; confine_init]
  | |- confined _ _ (bind _ _) _ =>
      eapply (confined_bind _ _ (λ _, True));
      [confine_init | intros ? _; confine_init]
  | |- confined _ _ (covariance_matrix _ _ _) _ =>
      by apply confined_covariance_matrix
  | |- confined _ _ (ret _) _ => apply confined_ret; simpl; auto
  | |- confined _ _ (lift _) _ => apply confined_lift; simpl; auto
  | |- confined _ _ (read _) _ => apply confined_read; simpl; auto
  | |- confined _ _ (print _) _ => apply confined_print; simpl; auto
  | |- confined _ _ (write _ _) _ =>
      apply confined_write; simpl; [set_solver|auto]
  | |- confined _ _ (alloc _) _ => apply confined_alloc; simpl; auto
  | |- confined _ _ (match ?x with _ => _ end) _ =>
      destruct x eqn:?; confine_init
  | |- _ => idtac
  end.

(** The constructor writes, among the arrays that exist when it is called,
    only to the supplied exposure map and the supplied mask. *)
Lemma confined_Data_init D kwargs subgrid_res psf_subgrid lens_light_mask
    pixel_size :
  confined D
    (option_loc (kw_exposure_map kwargs) ∪ option_loc (kw_mask kwargs))
    (Data_init kwargs subgrid_res psf_subgrid lens_light_mask pixel_size)
    (λ _, True).
Proof.
  unfold Data_init. unfold mbind, mret, M_bind, M_ret.
  confine_init.
Qed.

Lemma confined_unchanged_outside {A} L (m : M A) Q w :
  confined (dom (heap w)) L m Q → unchanged_outside L w (m w).2.
Proof. intros Hm. by destruct (Hm w). Qed.

(** C4 (amended): [covariance_matrix] leaves every array unchanged except
    the exposure map passed to it (none with a scalar exposure), and
    construction leaves every array of the caller unchanged except the
    supplied [exposure_map] and the supplied [mask]. *)
Theorem mutation_confined :
  (∀ d sigma_b f w,
     unchanged_outside (exposure_locs f) w
       (covariance_matrix d sigma_b f w).2)
  ∧ (∀ kwargs subgrid_res psf_subgrid lens_light_mask pixel_size w,
       unchanged_outside
         (option_loc (kw_exposure_map kwargs) ∪ option_loc (kw_mask kwargs))
         w
         (Data_init kwargs subgrid_res psf_subgrid lens_light_mask
            pixel_size w).2).
Proof.
  split.
  - intros d sigma_b f w.
    apply confined_unchanged_outside with (Q := λ _, True).
    apply confined_covariance_matrix. destruct f; simpl; [done|set_solver].
  - intros. eapply confined_unchanged_outside, confined_Data_init.
Qed.

(** ** The properties at concrete inputs *)

Lemma Fin_eq (q q' : Qc) : this q = this q' → Fin q = Fin q'.
Proof. intros H. f_equal. apply Qc_is_canon. by rewrite H. Qed.

Lemma view_inj x y : view x = view y → x = y.
Proof.
  destruct x, y; simpl; try done. intros [= H]. by apply Fin_eq.
Qed.

Lemma map_view_inj a b : map view a = map view b → a = b.
Proof.
  revert b. induction a as [|x a IH]; intros [|y b]; try done.
  simpl. intros [= Hx Hab]. f_equal; [by apply view_inj|by apply IH].
Qed.

(** The constructor, run on the example configuration, builds [ex_Data]. *)
Lemma ex_Data_constructed :
  (Data_init ex_kwargs 1%nat false false (Fin 1) ex_world).1 = Ok ex_Data.
Proof.
  vm_compute.
  repeat (first [ reflexivity | apply Fin_eq; reflexivity | f_equal ]).
Qed.

Lemma ex_Data_shape : Data_shape ex_Data.
Proof.
  split; [reflexivity|]. eexists. split; reflexivity.
Defined.

Lemma ex_Data_wf : Data_wf ex_Data.
Proof.
  split.
  - exact ex_Data_shape.
  - repeat constructor.
  - repeat constructor.
  - repeat constructor; eexists; (split; [reflexivity|reflexivity]).
Defined.

(** C1 at [ex_Data_subgrid] with a pixel kernel used as supplied. *)
Lemma re_size_convolve_pixel_native_convolves_first_witness :
  ex_kwargs_psf !! "psf_type" = Some (PStr "pixel")
  ∧ _psf_subgrid ex_Data_subgrid = false
  ∧ re_size_convolve ex_gaussian_filter ex_fftconvolve ex_fft_fftconvolve
      ex_subgrid_kernel ex_cut_psf ex_re_size ex_Data_subgrid ∅
      [Fin 1; of_Z 2; of_Z 3; of_Z 4] ex_kwargs_psf false
    = convolve_then_bin ex_gaussian_filter ex_fftconvolve ex_fft_fftconvolve
        ex_subgrid_kernel ex_cut_psf ex_re_size ex_Data_subgrid ∅
        [Fin 1; of_Z 2; of_Z 3; of_Z 4] ex_kwargs_psf.
Proof.
  split; [reflexivity|]. split; [reflexivity|].
  apply re_size_convolve_pixel_native_convolves_first; reflexivity.
Defined.

(** The order is observable.  With the box kernel [[1, 1, 1]] the code
    convolves the rows of the 2 by 2 subgrid image and bins to 5; binning
    first and convolving the single native pixel gives 5/2. *)
Example re_size_convolve_not_bin_first :
  map view <$>
    re_size_convolve ex_gaussian_filter ex_fftconvolve ex_fft_fftconvolve
      ex_subgrid_kernel ex_cut_psf ex_re_size ex_Data_subgrid ∅
      [Fin 1; of_Z 2; of_Z 3; of_Z 4] ex_kwargs_psf false
  = Ok [VFin 5%Q]
  ∧ map view <$>
      bin_then_convolve ex_gaussian_filter ex_fftconvolve ex_fft_fftconvolve
        ex_subgrid_kernel ex_cut_psf ex_re_size ex_Data_subgrid ∅
        [Fin 1; of_Z 2; of_Z 3; of_Z 4] ex_kwargs_psf
    = Ok [VFin (5 # 2)%Q].
Proof. vm_compute. split; reflexivity. Qed.

(** C8 at a dictionary that holds ['kernel_fft'] and not
    ['kernel_pixel_fft']. *)
Lemma psf_convolution_kernel_fft_KeyError_witness :
  ex_kwargs_psf_fft !! "psf_type" = Some (PStr "pixel")
  ∧ _psf_subgrid ex_Data = false
  ∧ ex_kwargs_psf_fft !! "kernel_pixel" = Some (PArr [[Fin 1; Fin 1; Fin 1]])
  ∧ ex_kwargs_psf_fft !! "kernel_fft" = Some (PObj 0%nat)
  ∧ ex_kwargs_psf_fft !! "kernel_pixel_fft" = None
  ∧ psf_convolution ex_gaussian_filter ex_fftconvolve ex_fft_fftconvolve
      ex_subgrid_kernel ex_cut_psf ex_Data [[Fin 1]] (Fin 1)
      ex_kwargs_psf_fft
    = Raise (KeyError "kernel_pixel_fft").
Proof.
  repeat (split; [reflexivity|]).
  by apply psf_convolution_kernel_fft_KeyError with (PArr [[Fin 1; Fin 1; Fin 1]]) (PObj 0%nat).
Defined.

(** C3 does not hold as stated: a model of length 1 against stored data of length 3
    is broadcast, and every statistic returns a value. *)
Lemma fit_statistics_broadcast_counterexample :
  length [of_Z 5] ≠ length (_data ex_Data)
  ∧ view <$> log_likelihood ex_Data (Arr [of_Z 5]) (Scal (Fin 0))
    = Ok (VFin (-5219 # 814)%Q)
  ∧ view <$> reduced_chi2 ex_Data (Arr [of_Z 5]) (Scal (Fin 0))
    = Ok (VFin (5219 # 814)%Q)
  ∧ ∀ np_sqrt, ¬ is_raise
      (reduced_residuals np_sqrt ex_Data (Arr [of_Z 5]) (Scal (Fin 0))).
Proof.
  split; [by vm_compute|].
  split; [vm_compute; reflexivity|].
  split; [vm_compute; reflexivity|].
  intros np_sqrt. vm_compute. tauto.
Qed.

(** C3 (amended) at a model of length 2 against stored data of length 3. *)
Lemma fit_statistics_length_mismatch_witness :
  length [Fin 1; Fin 1] ≠ length (_data ex_Data)
  ∧ length [Fin 1; Fin 1] ≠ 1%nat
  ∧ length (_data ex_Data) ≠ 1%nat
  ∧ reduced_residuals (λ x, x) ex_Data (Arr [Fin 1; Fin 1]) (Scal (Fin 0))
    = Raise broadcast_error
  ∧ log_likelihood ex_Data (Arr [Fin 1; Fin 1]) (Scal (Fin 0))
    = Raise broadcast_error
  ∧ reduced_chi2 ex_Data (Arr [Fin 1; Fin 1]) (Scal (Fin 0))
    = Raise broadcast_error.
Proof.
  split; [simpl; lia|]. split; [simpl; lia|]. split; [simpl; lia|].
  apply fit_statistics_length_mismatch; simpl; lia.
Defined.

(** What [covariance_matrix] and the constructor leave in the caller's
    exposure map (location 2) and mask (location 3) of [ex_world]. *)
Example mutation_example :
  let w1 := (covariance_matrix [Fin 1; Fin 1; Fin 1; Fin 1] (Fin 1)
               (Map 2%nat) ex_world).2 in
  let w2 := (Data_init ex_kwargs 1%nat false false (Fin 1) ex_world).2 in
  (map view <$> heap ex_world !! 2%nat
   = Some [VFin 1; VFin (-1); VFin 100; VFin 1]
   ∧ map view <$> heap ex_world !! 3%nat
     = Some [VFin 1; VFin 1; VFin 0; VFin 1])
  ∧ map view <$> heap w1 !! 2%nat
    = Some [VFin (101 # 40); VFin (101 # 40); VFin 100; VFin (101 # 40)]
  ∧ map view <$> heap w2 !! 2%nat
    = Some [VFin 1; VFin (1 # 1000); VFin 100; VFin 1]
  ∧ map view <$> heap w2 !! 3%nat
    = Some [VFin 1; VFin 0; VFin 0; VFin 1].
Proof. vm_compute. repeat split. Qed.

(** C4 does not hold as stated: [covariance_matrix] changes the exposure
    map it is given, and the constructor changes the caller's exposure map
    and mask. *)
Lemma mutation_counterexample :
  heap (covariance_matrix [Fin 1; Fin 1; Fin 1; Fin 1] (Fin 1) (Map 2%nat)
          ex_world).2 !! 2%nat
  ≠ heap ex_world !! 2%nat
  ∧ heap (Data_init ex_kwargs 1%nat false false (Fin 1) ex_world).2 !! 2%nat
    ≠ heap ex_world !! 2%nat
  ∧ heap (Data_init ex_kwargs 1%nat false false (Fin 1) ex_world).2 !! 3%nat
    ≠ heap ex_world !! 3%nat.
Proof.
  repeat split; intros H; apply (f_equal (fmap (map view))) in H;
    vm_compute in H; discriminate.
Qed.

(** C5 does not hold as stated: an exposure map with negative entries keeps
    negative entries after the clamp, and a variance below zero results. *)
Lemma covariance_matrix_negative_counterexample :
  npos (Fin 1)
  ∧ (map view ∘ entries) <$>
      (covariance_matrix [Fin 1; Fin 0] (Fin 1) (Map 5%nat) ex_world).1
    = Ok [VFin (-4); VFin 1]
  ∧ ¬ npos (of_Z (-4)).
Proof. vm_compute. repeat split. discriminate. Qed.

(** C6 at a 2 by 2 image and the index mask of [ex_world]. *)
Lemma compaction_round_trip_witness :
  grid_consistent ex_Data (heap ex_world)
  ∧ length (util_image2array [[Fin 1; of_Z 2]; [of_Z 3; of_Z 4]])
    = (_nx ex_Data * _ny ex_Data)%nat
  ∧ (∃ a, image2array ex_Data (heap ex_world)
            [[Fin 1; of_Z 2]; [of_Z 3; of_Z 4]] = Ok a
          ∧ (g ← array2image ex_Data (heap ex_world) a 1%nat;
             image2array ex_Data (heap ex_world) g) = Ok a)
  ∧ ∀ a, active_vector ex_Data (heap ex_world) a →
         (g ← array2image ex_Data (heap ex_world) a 1%nat;
          image2array ex_Data (heap ex_world) g) = Ok a.
Proof.
  assert (grid_consistent ex_Data (heap ex_world)) as Hgrid.
  { intros _. eexists. split; reflexivity. }
  split; [exact Hgrid|]. split; [reflexivity|].
  apply compaction_round_trip; [exact Hgrid|reflexivity].
Defined.

Example compaction_example :
  image2array ex_Data (heap ex_world) [[Fin 1; of_Z 2]; [of_Z 3; of_Z 4]]
  = Ok [Fin 1; of_Z 3; of_Z 4]
  ∧ rmap (map (map view))
      (array2image ex_Data (heap ex_world) [Fin 1; of_Z 3; of_Z 4] 1%nat)
    = Ok [[VFin 1; VFin 0]; [VFin 3; VFin 4]].
Proof. vm_compute. repeat split. Qed.

(** C7 at a 1 by 2 mask. *)
Lemma subgrid_idex_block_upsampling_witness :
  length [Fin 1; Fin 0] = (1 * 2)%nat
  ∧ _subgrid_idex [Fin 1; Fin 0] 1%nat 1%nat 2%nat = Ok [Fin 1; Fin 0]
  ∧ ∀ k, ∃ sub, _subgrid_idex [Fin 1; Fin 0] k 1%nat 2%nat = Ok sub
         ∧ length sub = ((1 * k) * (2 * k))%nat
         ∧ ∀ i j a b, (i < 1)%nat → (j < 2)%nat → (a < k)%nat → (b < k)%nat →
             sub !! ((i * k + a) * (2 * k) + (j * k + b))%nat
             = [Fin 1; Fin 0] !! (i * 2 + j)%nat.
Proof.
  split; [reflexivity|].
  apply subgrid_idex_block_upsampling. reflexivity.
Defined.

Example subgrid_idex_example :
  _subgrid_idex [Fin 1; Fin 0] 2%nat 1%nat 2%nat
  = Ok [Fin 1; Fin 1; Fin 0; Fin 0; Fin 1; Fin 1; Fin 0; Fin 0].
Proof. reflexivity. Qed.


Lemma ex_mask_sum_neq0 : ex_mask_sum ≠ 0.
Proof. intros e. apply (f_equal this) in e. vm_compute in e. discriminate. Defined.


(** C10 at [ex_Data] and a constant model. *)
Lemma reduced_chi2_log_likelihood_witness :
  Data_shape ex_Data
  ∧ length [of_Z 5; of_Z 5; of_Z 5] = length (_data ex_Data)
  ∧ np_sum_list (mask ex_Data) = Fin ex_mask_sum
  ∧ ex_mask_sum ≠ 0
  ∧ reduced_chi2 ex_Data (Arr [of_Z 5; of_Z 5; of_Z 5]) (Scal (Fin 0))
    = (λ L, ndiv (nmul (of_Z (-2)) L) (Fin ex_mask_sum))
        <$> log_likelihood ex_Data (Arr [of_Z 5; of_Z 5; of_Z 5])
              (Scal (Fin 0))
  ∧ (error_term_fits ex_Data (Scal (Fin 0)) →
     ∃ L, log_likelihood ex_Data (Arr [of_Z 5; of_Z 5; of_Z 5]) (Scal (Fin 0))
          = Ok L
          ∧ reduced_chi2 ex_Data (Arr [of_Z 5; of_Z 5; of_Z 5])
              (Scal (Fin 0))
            = Ok (ndiv (nmul (of_Z (-2)) L) (Fin ex_mask_sum))).
Proof.
  split; [exact ex_Data_shape|]. split; [reflexivity|].
  split; [reflexivity|]. split; [exact ex_mask_sum_neq0|].
  apply reduced_chi2_log_likelihood;
    [exact ex_Data_shape|reflexivity|reflexivity|exact ex_mask_sum_neq0].
Defined.

Example reduced_chi2_log_likelihood_example :
  view <$> log_likelihood ex_Data (Arr [of_Z 5; of_Z 5; of_Z 5]) (Scal (Fin 0))
  = Ok (VFin (-5219 # 814)%Q)
  ∧ view <$> reduced_chi2 ex_Data (Arr [of_Z 5; of_Z 5; of_Z 5]) (Scal (Fin 0))
    = Ok (VFin (5219 # 814)%Q).
Proof. vm_compute. split; reflexivity. Qed.

(** * Further properties of the class *)

(** ** PSF handling *)

Section PSF_more.

Variable gaussian_filter : image → num → num → result image.
Variable signal_fftconvolve : image → pyobj → result image.
Variable fft_fftconvolve : image → pyobj → pyobj → result image.
Variable util_subgrid_kernel : pyobj → nat → result pyobj.
Variable util_cut_psf : pyobj → Z → result pyobj.
Variable util_re_size : image → nat → result image.
Variable util_sigma2fwhm : pyobj → result num.
Variable util_fwhm_kernel : pyobj → result num.


(** X2: a dictionary without ['psf_type'] means no PSF to [psf_convolution]
    (the grid is returned as it is) and to [psf_fwhm] (0), but
    [re_size_convolve], unless told to skip the convolution, raises
    [KeyError] on it once the model vector has been laid out. *)
Theorem psf_type_missing self h grid grid_scale image kwargs img :
  kwargs !! "psf_type" = None →
  array2image self h image (_subgrid_res self) = Ok img →
  psf_convolution gaussian_filter signal_fftconvolve fft_fftconvolve
    util_subgrid_kernel util_cut_psf self grid grid_scale kwargs
  = Ok grid
  ∧ psf_fwhm util_sigma2fwhm util_fwhm_kernel self kwargs = Ok (Fin 0)
  ∧ re_size_convolve gaussian_filter signal_fftconvolve fft_fftconvolve
      util_subgrid_kernel util_cut_psf util_re_size self h image kwargs false
    = Raise (KeyError "psf_type").
Proof.
  intros Ht Himg. unfold psf_convolution, psf_fwhm, re_size_convolve, dict_get.
  rewrite Ht, Himg, (getitem_None _ _ Ht). done.
Qed.

(** X3: with the PSF type ['NONE'], [re_size_convolve] does exactly what it
    does when the convolution is skipped: it bins the image only. *)
Theorem re_size_convolve_NONE self h image kwargs_psf :
  kwargs_psf !! "psf_type" = Some (PStr "NONE") →
  re_size_convolve gaussian_filter signal_fftconvolve fft_fftconvolve
    util_subgrid_kernel util_cut_psf util_re_size self h image kwargs_psf
    false
  = re_size_convolve gaussian_filter signal_fftconvolve fft_fftconvolve
      util_subgrid_kernel util_cut_psf util_re_size self h image kwargs_psf
      true.
Proof.
  intros Ht. unfold re_size_convolve. rewrite (getitem_Some _ _ _ Ht).
  unfold_result. by destruct (array2image self h image (_subgrid_res self)).
Qed.

(** X4: a Gaussian PSF without ['sigma'] and a pixel PSF without
    ['kernel_pixel'] (subgrid-refined or not) fail with [KeyError] on that
    key; no numerical routine is called. *)
Theorem psf_convolution_missing_key self grid grid_scale kwargs :
  (kwargs !! "psf_type" = Some (PStr "gaussian") →
   kwargs !! "sigma" = None →
   psf_convolution gaussian_filter signal_fftconvolve fft_fftconvolve
     util_subgrid_kernel util_cut_psf self grid grid_scale kwargs
   = Raise (KeyError "sigma"))
  ∧ (kwargs !! "psf_type" = Some (PStr "pixel") →
     kwargs !! "kernel_pixel" = None →
     psf_convolution gaussian_filter signal_fftconvolve fft_fftconvolve
       util_subgrid_kernel util_cut_psf self grid grid_scale kwargs
     = Raise (KeyError "kernel_pixel")).
Proof.
  split; intros Ht Hk; unfold psf_convolution, dict_get; rewrite Ht; simpl;
    rewrite (getitem_None _ _ Hk); [done|].
  by destruct (_psf_subgrid self).
Qed.

(** X23: with a pixel PSF used as supplied and a frequency-domain kernel
    under both ['kernel_fft'] and ['kernel_pixel_fft'], a failure of the fast
    convolution is never seen by the caller: whenever the general convolution
    returns, [psf_convolution] returns, the result of the fast path if that
    returned and the result of the general convolution otherwise. *)
Theorem psf_convolution_fft_failure_swallowed self grid grid_scale kwargs
    k kf kf' r :
  kwargs !! "psf_type" = Some (PStr "pixel") →
  _psf_subgrid self = false →
  kwargs !! "kernel_pixel" = Some k →
  kwargs !! "kernel_fft" = Some kf' →
  kwargs !! "kernel_pixel_fft" = Some kf →
  signal_fftconvolve grid k = Ok r →
  psf_convolution gaussian_filter signal_fftconvolve fft_fftconvolve
    util_subgrid_kernel util_cut_psf self grid grid_scale kwargs
  = Ok (match fft_fftconvolve grid k kf with Ok r' => r' | Raise _ => r end).
Proof.
  intros Ht Hs Hk Hf' Hf Hr.
  destruct (fft_fftconvolve grid k kf) as [r'|e] eqn:He.
  - unfold psf_convolution, dict_get.
    rewrite Ht, Hs. simpl.
    rewrite (getitem_Some _ _ _ Hk), (getitem_Some _ _ _ Hf).
    assert (contains kwargs "kernel_fft" = true) as ->
      by (apply contains_true; eauto).
    unfold_result. by rewrite He.
  - rewrite <- Hr.
    by apply psf_convolution_fft_fallback with kf kf' e.
Qed.

End PSF_more.

(** X5: [psf_convolution] asks [util.cut_psf] for odd kernel sizes only: two
    cropping routines that agree on odd sizes give the same convolution. *)
Theorem psf_convolution_cut_psf_odd
    gaussian_filter signal_fftconvolve fft_fftconvolve util_subgrid_kernel
    (cut cut' : pyobj → Z → result pyobj) self grid grid_scale kwargs :
  (∀ kernel n, Z.odd n = true → cut kernel n = cut' kernel n) →
  psf_convolution gaussian_filter signal_fftconvolve fft_fftconvolve
    util_subgrid_kernel cut self grid grid_scale kwargs
  = psf_convolution gaussian_filter signal_fftconvolve fft_fftconvolve
      util_subgrid_kernel cut' self grid grid_scale kwargs.
Proof.
  intros Hodd. unfold psf_convolution.
  destruct (py_eq_str _ "NONE"); [done|].
  destruct (py_eq_str _ "gaussian"); [done|].
  destruct (py_eq_str _ "pixel"); [|done].
  destruct (_psf_subgrid self); [|done].
  unfold_result.
  destruct (match getitem kwargs "kernel_pixel" with
            | Ok a => py_len a | Raise e => Raise e end) as [n|]; [|done].
  destruct (getitem kwargs "kernel_point_source") as [kps|]; [|done].
  destruct (util_subgrid_kernel kps (_subgrid_res self)) as [kernel|]; [|done].
  rewrite Hodd; [done|].
  destruct (decide _) as [Heven|Hodd'].
  - rewrite Z.odd_sub, <- Z.negb_even.
    apply Z.mod_divide in Heven; [|done].
    assert (Z.even (Z.of_nat n * Z.of_nat (_subgrid_res self)) = true) as ->.
    { apply Z.even_spec. destruct Heven as [q ->]. exists q. lia. }
    done.
  - rewrite <- Z.negb_even. apply negb_true_iff.
    destruct (Z.even _) eqn:He; [|done].
    exfalso. apply Hodd'. apply Z.even_spec in He as [q ->].
    rewrite Z.mul_comm. apply Z.mod_mul. done.
Qed.

(** ** Index masks and the full grid *)

Lemma count_true_app (a b : list bool) :
  count_true (a ++ b) = (count_true a + count_true b)%nat.
Proof. unfold count_true. by rewrite filter_app, length_app. Qed.

Lemma count_true_replicate k (b : bool) :
  count_true (replicate k b) = (k * count_true [b])%nat.
Proof.
  induction k as [|k IH]; [done|].
  change (replicate (S k) b) with ([b] ++ replicate k b).
  rewrite count_true_app, IH. lia.
Qed.

Lemma valid_pixels_app a b :
  valid_pixels (a ++ b) = valid_pixels a ++ valid_pixels b.
Proof. unfold valid_pixels, eq_mask. apply map_app. Qed.

Lemma valid_pixels_replicate k x :
  valid_pixels (replicate k x) = replicate k (neqb x (Fin 1)).
Proof.
  unfold valid_pixels, eq_mask. induction k as [|k IH]; [done|].
  cbn [replicate map]. by rewrite IH.
Qed.

(** Repeating every element [k] times multiplies the number of valid
    pixels by [k]. *)
Lemma count_np_repeat (l : list num) k :
  count_true (valid_pixels (np_repeat l k))
  = (k * count_true (valid_pixels l))%nat.
Proof.
  unfold np_repeat. induction l as [|x l IH].
  - cbn. unfold count_true. simpl. lia.
  - cbn [map concat].
    change (x :: l) with ([x] ++ l).
    rewrite !valid_pixels_app, !count_true_app, IH.
    rewrite valid_pixels_replicate, count_true_replicate.
    unfold valid_pixels, eq_mask. cbn [map]. lia.
Qed.

Lemma concat_replicate_count (r : list num) k :
  count_true (valid_pixels (concat (replicate k r)))
  = (k * count_true (valid_pixels r))%nat.
Proof.
  induction k as [|k IH]; [done|].
  cbn [replicate concat]. rewrite valid_pixels_app, count_true_app, IH. lia.
Qed.

(** So does repeating every row of an image [k] times. *)
Lemma count_np_repeat_rows (rows : image) k :
  count_true (valid_pixels (concat (np_repeat rows k)))
  = (k * count_true (valid_pixels (concat rows)))%nat.
Proof.
  unfold np_repeat. induction rows as [|r rows IH].
  - cbn. unfold count_true. simpl. lia.
  - cbn [map concat]. rewrite concat_app.
    rewrite !valid_pixels_app, !count_true_app, IH, concat_replicate_count.
    lia.
Qed.

Lemma count_subgrid_idex idex k nx ny sub :
  _subgrid_idex idex k nx ny = Ok sub →
  count_true (valid_pixels sub)
  = (k * k * count_true (valid_pixels idex))%nat.
Proof.
  unfold _subgrid_idex, util_array2image, util_image2array.
  destruct (decide _) as [Hl|]; [|done].
  unfold_result. intros [= <-].
  rewrite count_np_repeat_rows, concat_reshape_rows by done.
  rewrite count_np_repeat. lia.
Qed.

(** X6: whenever [_subgrid_idex] returns, the subgrid mask has
    [subgrid_res] squared times as many valid pixels as the index mask. *)
Theorem subgrid_idex_count idex k nx ny sub :
  _subgrid_idex idex k nx ny = Ok sub →
  count_true (valid_pixels sub)
  = (k * k * count_true (valid_pixels idex))%nat.
Proof. apply count_subgrid_idex. Qed.

(** X7: for a grid with at least one pixel and a resolution of at least 1,
    [_subgrid_idex] fails exactly when the mask does not have [nx * ny]
    entries. *)
Theorem subgrid_idex_raises_iff idex k nx ny :
  (0 < nx)%nat → (0 < ny)%nat → (0 < k)%nat →
  _subgrid_idex idex k nx ny = Raise reshape_error
  ↔ length idex ≠ (nx * ny)%nat.
Proof.
  intros _ _ Hk. unfold _subgrid_idex, util_array2image.
  rewrite length_np_repeat. split.
  - destruct (decide _) as [|Hne]; [done|]. intros _ Hl. apply Hne.
    rewrite Hl. lia.
  - intros Hl. rewrite decide_False; [done|]. nia.
Qed.

Lemma lookup_scatter_unselected sel a vs i :
  sel !! i = Some false → scatter sel a vs !! i = a !! i.
Proof.
  revert a vs i. induction sel as [|b sel IH]; intros a vs i Hi; [done|].
  destruct a as [|x a]; [by destruct i|].
  destruct i as [|i]; cbn [scatter].
  - injection Hi as ->. done.
  - cbn in Hi. destruct b; [destruct vs|]; cbn; by apply IH.
Qed.

Lemma lookup_np_zeros n i : (i < n)%nat → np_zeros n !! i = Some (Fin 0).
Proof. intros Hi. by apply lookup_replicate_2. Qed.

Lemma array2image_masked self h idex a k :
  _idex_mask_bool self = true →
  h !! _idex_mask self = Some idex →
  array2image self h a k
  = (grid1d ← bool_assign (np_zeros (_nx self * k * (_ny self * k)))
                (valid_pixels (mask_at self idex k)) a;
     util_array2image grid1d (_nx self * k) (_ny self * k)).
Proof.
  intros Hb Hh. unfold array2image, deref, mask_at, valid_pixels.
  by rewrite Hb, Hh.
Qed.

Lemma array2image_Ok_scatter self h idex a k :
  _idex_mask_bool self = true →
  h !! _idex_mask self = Some idex →
  length (mask_at self idex k) = (_nx self * k * (_ny self * k))%nat →
  length a = count_true (valid_pixels (mask_at self idex k)) →
  ∃ g, array2image self h a k = Ok g
       ∧ length g = (_nx self * k)%nat
       ∧ Forall (λ r, length r = (_ny self * k)%nat) g
       ∧ select (valid_pixels (mask_at self idex k)) (util_image2array g) = a
       ∧ ∀ i x, mask_at self idex k !! i = Some x → neqb x (Fin 1) = false →
                util_image2array g !! i = Some (Fin 0).
Proof.
  intros Hb Hh Hm Ha. rewrite (array2image_masked _ _ idex) by done.
  set (msk := mask_at self idex k) in *.
  assert (length (valid_pixels msk) = length msk) as Hv
    by (unfold valid_pixels, eq_mask; by rewrite length_map).
  unfold bool_assign.
  rewrite length_np_zeros, Hv, !decide_True by done.
  unfold_result.
  unfold util_array2image.
  rewrite length_scatter, length_np_zeros, decide_True by done.
  eexists. split; [done|].
  split; [apply length_reshape_rows|].
  split; [apply reshape_rows_uniform;
          by rewrite length_scatter, length_np_zeros|].
  unfold util_image2array.
  rewrite concat_reshape_rows by (by rewrite length_scatter, length_np_zeros).
  split.
  - apply select_scatter; [|done]. by rewrite Hv, length_np_zeros.
  - intros i x Hi Hx. rewrite lookup_scatter_unselected.
    + apply lookup_np_zeros. rewrite <- Hm. by apply lookup_lt_Some in Hi.
    + unfold valid_pixels, eq_mask. by rewrite lookup_map, Hi; simpl; rewrite Hx.
Qed.

(** X8: with an index mask of the size of the grid and a vector with one
    entry per valid pixel, [array2image] returns an image of [nx * k] rows
    of [ny * k] pixels that holds the vector, in order, at the valid pixels
    and 0 at every other pixel. *)
Theorem array2image_scatters self h idex a k :
  _idex_mask_bool self = true →
  h !! _idex_mask self = Some idex →
  length (mask_at self idex k) = (_nx self * k * (_ny self * k))%nat →
  length a = count_true (valid_pixels (mask_at self idex k)) →
  ∃ g, array2image self h a k = Ok g
       ∧ length g = (_nx self * k)%nat
       ∧ Forall (λ r, length r = (_ny self * k)%nat) g
       ∧ select (valid_pixels (mask_at self idex k)) (util_image2array g) = a
       ∧ ∀ i x, mask_at self idex k !! i = Some x → neqb x (Fin 1) = false →
                util_image2array g !! i = Some (Fin 0).
Proof. apply array2image_Ok_scatter. Qed.

(** X9: a vector with neither one entry per valid pixel nor a single entry
    is rejected with numpy's assignment [ValueError]; a mask that does not
    have the size of the grid gives [IndexError]. *)
Theorem array2image_wrong_length self h idex a k :
  _idex_mask_bool self = true →
  h !! _idex_mask self = Some idex →
  (length (mask_at self idex k) ≠ (_nx self * k * (_ny self * k))%nat →
   array2image self h a k = Raise index_error)
  ∧ (length (mask_at self idex k) = (_nx self * k * (_ny self * k))%nat →
     length a ≠ count_true (valid_pixels (mask_at self idex k)) →
     length a ≠ 1%nat →
     array2image self h a k = Raise assign_error).
Proof.
  intros Hb Hh. rewrite (array2image_masked _ _ idex) by done.
  set (msk := mask_at self idex k) in *.
  assert (length (valid_pixels msk) = length msk) as Hv
    by (unfold valid_pixels, eq_mask; by rewrite length_map).
  unfold bool_assign. rewrite length_np_zeros, Hv. split.
  - intros Hm. by rewrite decide_False.
  - intros Hm Ha H1. rewrite decide_True, decide_False by done.
    by destruct a as [|? [|]].
Qed.

(** X10: a vector with a single entry is broadcast: [array2image] writes
    that entry to every valid pixel and 0 to the others. *)
Theorem array2image_broadcasts_single self h idex v k :
  _idex_mask_bool self = true →
  h !! _idex_mask self = Some idex →
  length (mask_at self idex k) = (_nx self * k * (_ny self * k))%nat →
  ∃ g, array2image self h [v] k = Ok g
       ∧ util_image2array g
         = map (λ x, if neqb x (Fin 1) then v else Fin 0)
               (mask_at self idex k).
Proof.
  intros Hb Hh Hm. rewrite (array2image_masked _ _ idex) by done.
  set (msk := mask_at self idex k) in *.
  assert (length (valid_pixels msk) = length msk) as Hv
    by (unfold valid_pixels, eq_mask; by rewrite length_map).
  assert (∀ l : list num,
            scatter (valid_pixels l) (np_zeros (length l))
              (replicate (count_true (valid_pixels l)) v)
            = map (λ x, if neqb x (Fin 1) then v else Fin 0) l) as Hsc.
  { unfold valid_pixels, eq_mask, np_zeros, count_true.
    induction l as [|x l IH]; [done|].
    cbn [map length replicate scatter].
    destruct (neqb x (Fin 1)).
    - rewrite filter_cons_True by done. cbn [length replicate]. by rewrite IH.
    - rewrite filter_cons_False by done. by rewrite IH. }
  unfold bool_assign.
  rewrite length_np_zeros, Hv, decide_True by done.
  assert (bool_assign_result :
    (if decide (length [v] = count_true (valid_pixels msk))
     then Ok (scatter (valid_pixels msk)
                (np_zeros (_nx self * k * (_ny self * k))) [v])
     else Ok (scatter (valid_pixels msk)
                (np_zeros (_nx self * k * (_ny self * k)))
                (replicate (count_true (valid_pixels msk)) v)))
    = Ok (scatter (valid_pixels msk)
            (np_zeros (_nx self * k * (_ny self * k)))
            (replicate (count_true (valid_pixels msk)) v))).
  { destruct (decide _) as [<-|]; done. }
  rewrite bool_assign_result. unfold_result. unfold util_array2image.
  rewrite length_scatter, length_np_zeros, decide_True by done.
  eexists. split; [done|]. unfold util_image2array.
  rewrite concat_reshape_rows by (by rewrite length_scatter, length_np_zeros).
  rewrite <- Hm. apply Hsc.
Qed.

Lemma array2image_Ok_subgrid self h idex a k :
  _idex_mask_bool self = true →
  h !! _idex_mask self = Some idex →
  length idex = (_nx self * _ny self)%nat →
  (0 < k)%nat →
  _subgrid_idex idex k (_nx self) (_ny self) = Ok (_idex_mask_sub self) →
  length a = (k * k * count_true (valid_pixels idex))%nat →
  ∃ g, array2image self h a k = Ok g
       ∧ select (valid_pixels (mask_at self idex k)) (util_image2array g) = a.
Proof.
  intros Hb Hh Hl Hk Hsub Ha.
  destruct (_subgrid_idex_blocks idex k (_nx self) (_ny self) Hl)
    as (sub & Hsub' & Hlsub & _).
  rewrite Hsub in Hsub'. injection Hsub' as <-.
  pose proof (count_subgrid_idex _ _ _ _ _ Hsub) as Hcount.
  assert (length (mask_at self idex k)
          = (_nx self * k * (_ny self * k))%nat) as Hm.
  { unfold mask_at. destruct (decide _); [done|].
    assert (k = 1)%nat as -> by lia. lia. }
  assert (length a = count_true (valid_pixels (mask_at self idex k))) as Hc.
  { unfold mask_at. destruct (decide _); [congruence|].
    assert (k = 1)%nat as -> by lia. lia. }
  destruct (array2image_Ok_scatter self h idex a k Hb Hh Hm Hc)
    as (g & Hg & _ & _ & Hsel & _).
  eauto.
Qed.

(** X11: with the subgrid mask that [_subgrid_idex] derives from the index
    mask, [array2image] at resolution [k] accepts every vector with [k * k]
    entries per valid native pixel and returns a grid from which the valid
    subgrid pixels read the vector back. *)
Theorem array2image_subgrid self h idex a k :
  _idex_mask_bool self = true →
  h !! _idex_mask self = Some idex →
  length idex = (_nx self * _ny self)%nat →
  (0 < k)%nat →
  _subgrid_idex idex k (_nx self) (_ny self) = Ok (_idex_mask_sub self) →
  length a = (k * k * count_true (valid_pixels idex))%nat →
  ∃ g, array2image self h a k = Ok g
       ∧ select (valid_pixels (mask_at self idex k)) (util_image2array g) = a.
Proof. apply array2image_Ok_subgrid. Qed.

(** X12: with an index mask, [image2array] fails, with [IndexError], exactly
    when the image does not have as many pixels as the mask has entries. *)
Theorem image2array_raises_iff self h idex (img : image) :
  _idex_mask_bool self = true →
  h !! _idex_mask self = Some idex →
  image2array self h img = Raise index_error
  ↔ length (util_image2array img) ≠ length idex.
Proof.
  intros Hb Hh. unfold image2array, deref, bool_index, eq_mask.
  rewrite Hb, Hh. unfold_result. rewrite length_map.
  destruct (decide _) as [Heq|Hne]; split; done.
Qed.

(** ** More on the noise model *)








Lemma covariance_matrix_Map_nil d sigma_b l w :
  heap w !! l = Some [] →
  (covariance_matrix d sigma_b (Map l) w).1 = Raise empty_max_error
  ∧ stdout (covariance_matrix d sigma_b (Map l) w).2 = stdout w.
Proof.
  intros Hl. unfold covariance_matrix. unfold_M. by rewrite Hl.
Qed.

(** X14: an empty exposure map makes [covariance_matrix] fail in [np.max]
    with [ValueError], whatever the data; nothing is printed. *)
Theorem covariance_matrix_empty_map d sigma_b l w :
  heap w !! l = Some [] →
  (covariance_matrix d sigma_b (Map l) w).1 = Raise empty_max_error
  ∧ stdout (covariance_matrix d sigma_b (Map l) w).2 = stdout w.
Proof. apply covariance_matrix_Map_nil. Qed.

(** X15: a scalar exposure that is [<= 0] is replaced by 1: result, warning
    and world are those of exposure 1. *)
Theorem covariance_matrix_nonpositive_scalar d sigma_b t w :
  nleb t (Fin 0) = true →
  covariance_matrix d sigma_b (Scalar t) w
  = covariance_matrix d sigma_b (Scalar (Fin 1)) w.
Proof.
  intros Ht. rewrite !covariance_matrix_Scalar. by rewrite Ht.
Qed.

Lemma np_sum_list_fin v : Forall is_fin v → is_fin (np_sum_list v).
Proof.
  unfold np_sum_list. induction 1 as [|x v Hx _ IH]; [done|].
  cbn [foldr]. destruct x; try done. by destruct (foldr nadd (Fin 0) v).
Qed.

Lemma of_nat_neq0 n : n ≠ 0%nat → Q2Qc (inject_Z (Z.of_nat n)) ≠ 0.
Proof.
  intros Hn e. apply Q2Qc_eq_iff in e. unfold Qeq in e. simpl in e. lia.
Qed.

(** The mean of a non-empty finite array is a finite number. *)
Lemma np_mean_fin v : v ≠ [] → Forall is_fin v → is_fin (np_mean v).
Proof.
  intros Hv Hfin. unfold np_mean, of_Z.
  pose proof (np_sum_list_fin v Hfin) as Hs.
  destruct (np_sum_list v) as [s| | |]; try done.
  cbn [ndiv]. rewrite decide_False; [done|].
  apply of_nat_neq0. by destruct v.
Qed.

Lemma nltb_nleb x y : nltb x y = true → nleb x y = true.
Proof. unfold nltb, nleb. by destruct (ncmp x y) as [[]|]. Qed.

Lemma nleb_refl_fin x : x ≠ NaN → nleb x x = true.
Proof.
  unfold nleb. destruct x as [q| | |]; try done. intros _.
  cbn [ncmp]. by rewrite Qc_compare_refl.
Qed.

Lemma nltb_false_nleb_fin a b :
  nltb (Fin a) (Fin b) = false → nleb (Fin b) (Fin a) = true.
Proof.
  unfold nltb, nleb. cbn [ncmp].
  destruct (a ?= b) eqn:E; try done; intros _.
  - apply Qc_compare_Eq in E as ->. by rewrite Qc_compare_refl.
  - apply Qc_compare_Gt in E. apply Qc_compare_Lt in E. by rewrite E.
Qed.

(** The heap after [covariance_matrix] holds the clamped map, whether or
    not the call goes on to fail. *)
Lemma covariance_matrix_Map_heap d sigma_b l fv w :
  heap w !! l = Some fv →
  heap (covariance_matrix d sigma_b (Map l) w).2
  = <[l := clamp_exposure fv]> (heap w).
Proof.
  intros Hl. destruct (clamp_exposure fv) as [|x fv'] eqn:Hc.
  - unfold covariance_matrix. unfold_M. rewrite Hl. unfold lt_mask.
    rewrite bool_assign_scalar_map. fold (clamp_exposure fv). by rewrite Hc.
  - erewrite covariance_matrix_Map by done. cbn [snd]. unfold warn_world.
    by destruct (nltb _ _).
Qed.


(** ** More on the fit statistics *)

Lemma Qc_square_nonneg (a : Qc) : 0 ≤ a * a.
Proof.
  destruct (Qclt_le_dec a 0) as [Hneg|Hpos].
  - replace (a * a) with ((- a) * (- a)) by ring.
    assert (0 ≤ - a) as H.
    { apply Qclt_le_weak in Hneg. apply Qcopp_le_compat in Hneg.
      by replace (- 0) with 0 in Hneg by ring. }
    by apply Qcmult_nonneg_nonneg.
  - by apply Qcmult_nonneg_nonneg.
Qed.

Lemma Forall_zip_with_2 {A B C} (P : A → Prop) (Q : B → Prop) (R : C → Prop)
    (op : A → B → C) (a : list A) (b : list B) :
  (∀ x y, P x → Q y → R (op x y)) →
  Forall P a → Forall Q b → Forall R (zip_with op a b).
Proof.
  intros Hop Ha. revert b.
  induction Ha as [|x a Hx _ IH]; intros b Hb; [constructor|].
  destruct Hb as [|y b Hy Hb]; cbn [zip_with]; constructor; auto.
Qed.

Lemma fin_nonneg_sum v : Forall fin_nonneg v → fin_nonneg (np_sum_list v).
Proof.
  unfold np_sum_list. induction 1 as [|x v (q & -> & Hq) _ (s & Hs & Hs0)].
  - exists 0. split; [done|]. apply Qcle_refl.
  - cbn [foldr]. rewrite Hs. exists (q + s). split; [done|].
    by apply Qcplus_nonneg_nonneg.
Qed.

Lemma nabs_fin_nonneg x : is_fin x → fin_nonneg (nabs x).
Proof.
  destruct x as [q| | |]; try done. intros _. cbn [nabs].
  destruct (q ?= 0) eqn:E; eexists; (split; [done|]).
  - apply Qc_compare_Eq in E as ->. apply Qcle_refl.
  - apply Qc_compare_Lt in E. apply Qclt_le_weak, Qcopp_le_compat in E.
    by replace (- 0) with 0 in E by ring.
  - apply Qc_compare_Gt in E. by apply Qclt_le_weak.
Qed.

Lemma fin_pos_nadd_nonneg c x : fin_pos c → fin_nonneg x → fin_pos (nadd c x).
Proof.
  intros (p & -> & Hp) (q & -> & Hq). exists (p + q). split; [done|].
  by apply Qcplus_pos_nonneg.
Qed.

Lemma fin_nonneg_sq_diff m d : is_fin m → is_fin d → fin_nonneg (npow2 (nsub m d)).
Proof.
  destruct m, d; try done. intros _ _. eexists. split; [done|].
  apply Qc_square_nonneg.
Qed.

Lemma fin_nonneg_ndiv x y : fin_nonneg x → fin_pos y → fin_nonneg (ndiv x y).
Proof.
  intros (a & -> & Ha) (p & -> & Hp). cbn [ndiv].
  rewrite decide_False by (by apply Qcpos_neq0).
  eexists. split; [done|]. by apply Qcdiv_nonneg_pos.
Qed.

Lemma fin_nonneg_nmul x y : fin_nonneg x → fin_nonneg y → fin_nonneg (nmul x y).
Proof.
  intros (a & -> & Ha) (b & -> & Hb). eexists. split; [done|].
  by apply Qcmult_nonneg_nonneg.
Qed.

(** The variance-plus-error denominators of the statistics are finite and
    positive. *)
Lemma fit_denominator self e :
  Data_wf self → error_term_fits self e → Forall is_fin (entries e) →
  ∃ var, np_add (C_D self) (np_unop nabs e) = Ok (Arr var)
         ∧ length var = length (_data self)
         ∧ Forall fin_pos var.
Proof.
  intros [[_ (c & Hc & Hcl)] _ _ Hpos] He Hfin.
  rewrite Hc in *. cbn [entries] in Hpos. unfold np_add.
  unfold error_term_fits in He.
  destruct e as [x|a]; cbn [np_unop np_binop entries] in *.
  - eexists. split; [done|]. split; [by rewrite length_map|].
    apply List.Forall_map. eapply Forall_impl; [exact Hpos|].
    intros y Hy. apply fin_pos_nadd_nonneg; [done|].
    apply nabs_fin_nonneg. by inversion Hfin.
  - rewrite broadcast2_same_length by (rewrite length_map; congruence).
    eexists. split; [done|].
    split; [rewrite length_zip_with, length_map; lia|].
    apply (Forall_zip_with_2 fin_pos fin_nonneg); [|done|].
    + apply fin_pos_nadd_nonneg.
    + apply List.Forall_map. eapply Forall_impl; [exact Hfin|].
      apply nabs_fin_nonneg.
Qed.

(** The weighted squared residuals are finite and not negative. *)
Lemma fit_terms_nonneg self (model : list num) e :
  Data_wf self → error_term_fits self e → Forall is_fin (entries e) →
  length model = length (_data self) → Forall is_fin model →
  Forall nnonneg (mask self) →
  ∃ X, (diff ← np_sub (Arr model) (Arr (_data self));
        var ← np_add (C_D self) (np_unop nabs e);
        q ← np_div (np_unop npow2 diff) var;
        np_mul q (Arr (mask self))) = Ok (Arr X)
       ∧ Forall fin_nonneg X.
Proof.
  intros Hwf He Hefin Hlen Hmfin Hmask.
  destruct (fit_denominator self e Hwf He Hefin) as (var & -> & Hlv & Hvar).
  destruct Hwf as [[Hml _] Hdfin Hmaskfin _].
  unfold np_sub, np_div, np_mul. cbn [np_binop np_unop].
  rewrite broadcast2_same_length by done. unfold_result.
  cbn [np_binop np_unop].
  rewrite broadcast2_same_length
    by (rewrite length_map, length_zip_with; lia).
  cbn [rmap rbind np_binop].
  rewrite broadcast2_same_length
    by (rewrite length_zip_with, length_map, length_zip_with; lia).
  eexists. split; [done|].
  apply (Forall_zip_with_2 fin_nonneg fin_nonneg); [apply fin_nonneg_nmul| |].
  - apply (Forall_zip_with_2 fin_nonneg fin_pos);
      [apply fin_nonneg_ndiv| |done].
    apply List.Forall_map.
    apply (Forall_zip_with_2 is_fin is_fin); [|done|done].
    intros x y Hx Hy. by apply fin_nonneg_sq_diff.
  - apply Forall_forall. intros x Hx.
    rewrite Forall_forall in Hmask, Hmaskfin.
    specialize (Hmask x Hx). specialize (Hmaskfin x Hx).
    destruct x as [q| | |]; try done. exists q. split; [done|].
    by apply nnonneg_Fin.
Qed.

(** In exact arithmetic: for a finite model of the stored length, a finite
    error term and a fit mask without negative weights, the log-likelihood
    is a number that is not positive, and the reduced chi-square, when the
    fit mask has a positive sum, is a number that is not negative. *)
Lemma log_likelihood_sign self (model : list num) e :
  Data_wf self →
  error_term_fits self e → Forall is_fin (entries e) →
  length model = length (_data self) → Forall is_fin model →
  Forall nnonneg (mask self) →
  (∃ L, log_likelihood self (Arr model) e = Ok (Fin L) ∧ L ≤ 0)
  ∧ (npos (np_sum_list (mask self)) →
     ∃ c, reduced_chi2 self (Arr model) e = Ok (Fin c) ∧ 0 ≤ c).
Proof.
  intros Hwf He Hefin Hlen Hmfin Hmask.
  destruct (fit_terms_nonneg self model e Hwf He Hefin Hlen Hmfin Hmask)
    as (X & HX & Hnn).
  unfold log_likelihood, reduced_chi2. unfold_result.
  destruct (np_sub _ _) as [diff|]; [|done].
  destruct (np_add _ _) as [var|]; [|done].
  destruct (np_div _ _) as [q|]; [|done].
  rewrite HX. split.
  - destruct (fin_nonneg_sum X Hnn) as (s & Hs & Hs0).
    cbn [np_sum]. rewrite Hs. unfold of_Z. cbn [nneg ndiv].
    rewrite decide_False by apply of_Z_2_neq0.
    eexists. split; [done|].
    rewrite Qc_two. unfold Qcdiv.
    replace (- s * / (1 + 1)) with (- (s * / (1 + 1))) by ring.
    replace 0 with (- 0) by ring. apply Qcopp_le_compat.
    apply Qcmult_nonneg_nonneg; [done|].
    apply Qclt_le_weak, Qcinv_pos. rewrite <- Qc_two. reflexivity.
  - intros Hsum.
    assert (fin_pos (np_sum_list (mask self))) as (m & Hm & Hm0).
    { destruct Hwf as [_ _ Hmaskfin _].
      pose proof (np_sum_list_fin _ Hmaskfin) as Hf.
      destruct (np_sum_list (mask self)) as [m| | |]; try done.
      exists m. split; [done|]. by apply npos_Fin. }
    cbn [np_sum np_div np_binop]. rewrite Hm.
    assert (Forall fin_nonneg (map (λ x, ndiv x (Fin m)) X)) as HY.
    { apply List.Forall_map. eapply Forall_impl; [exact Hnn|].
      intros x Hx. apply fin_nonneg_ndiv; [done|]. by exists m. }
    destruct (fin_nonneg_sum _ HY) as (c & Hc & Hc0).
    cbn [np_sum]. rewrite Hc. eauto.
Qed.

(** X17: for a model of the stored length whose residuals, variances and
    weights are moderate (so that no term overflows or wraps), a finite
    error term and a fit mask without negative weights, the log-likelihood
    is a number that is not positive, and the reduced chi-square, when the
    fit mask has a positive sum, is a number that is not negative. *)
Theorem log_likelihood_nonpositive self (model : list num) e :
  Data_wf self →
  moderate_fit self model →
  error_term_fits self e → Forall is_fin (entries e) →
  length model = length (_data self) → Forall is_fin model →
  Forall nnonneg (mask self) →
  (∃ L, log_likelihood self (Arr model) e = Ok (Fin L) ∧ L ≤ 0)
  ∧ (npos (np_sum_list (mask self)) →
     ∃ c, reduced_chi2 self (Arr model) e = Ok (Fin c) ∧ 0 ≤ c).
Proof.
  intros Hwf _. by apply log_likelihood_sign.
Qed.

(** The weighted squared residuals, written out, when all lengths agree. *)
Lemma fit_terms_formula self (model var : list num) e :
  np_add (C_D self) (np_unop nabs e) = Ok (Arr var) →
  length var = length (_data self) →
  length (mask self) = length (_data self) →
  length model = length (_data self) →
  (diff ← np_sub (Arr model) (Arr (_data self));
   var ← np_add (C_D self) (np_unop nabs e);
   q ← np_div (np_unop npow2 diff) var;
   np_mul q (Arr (mask self)))
  = Ok (Arr (zip_with nmul
               (zip_with ndiv (map npow2 (zip_with nsub model (_data self)))
                  var)
               (mask self))).
Proof.
  intros -> Hlv Hml Hlen.
  unfold np_sub, np_div, np_mul. cbn [np_binop np_unop].
  rewrite broadcast2_same_length by done. unfold_result.
  cbn [np_binop np_unop].
  rewrite broadcast2_same_length
    by (rewrite length_map, length_zip_with; lia).
  cbn [rmap rbind np_binop].
  by rewrite broadcast2_same_length
    by (rewrite length_zip_with, length_map, length_zip_with; lia).
Qed.

Lemma masked_term_zero a d v :
  is_fin a → is_fin d → fin_pos v →
  nmul (ndiv (npow2 (nsub a d)) v) (Fin 0) = Fin 0.
Proof.
  intros Ha Hd Hv.
  destruct (fin_nonneg_ndiv _ _ (fin_nonneg_sq_diff a d Ha Hd) Hv)
    as (q & -> & _).
  cbn [nmul]. f_equal. ring.
Qed.

Lemma num_zero_dec k : k = Fin 0 ∨ k ≠ Fin 0.
Proof.
  destruct k as [q| | |]; [|by right..].
  destruct (decide (q = 0)) as [->|Hq]; [by left|right].
  by intros [= ->].
Qed.

(** In exact arithmetic: two finite models of the stored length that agree
    wherever the fit-mask weight is not 0 have the same log-likelihood and
    the same reduced chi-square. *)
Lemma masked_terms_ignored self (model1 model2 : list num) e :
  Data_wf self →
  error_term_fits self e → Forall is_fin (entries e) →
  length model1 = length (_data self) → Forall is_fin model1 →
  length model2 = length (_data self) → Forall is_fin model2 →
  (∀ i x, mask self !! i = Some x → x ≠ Fin 0 →
          model1 !! i = model2 !! i) →
  log_likelihood self (Arr model1) e = log_likelihood self (Arr model2) e
  ∧ reduced_chi2 self (Arr model1) e = reduced_chi2 self (Arr model2) e.
Proof.
  intros Hwf He Hefin Hl1 Hf1 Hl2 Hf2 Hagree.
  destruct (fit_denominator self e Hwf He Hefin) as (var & Hvar & Hlv & Hpos).
  destruct Hwf as [[Hml _] Hdfin _ _].
  pose proof (fit_terms_formula self model1 var e Hvar Hlv Hml Hl1) as H1.
  pose proof (fit_terms_formula self model2 var e Hvar Hlv Hml Hl2) as H2.
  assert (zip_with nmul
            (zip_with ndiv (map npow2 (zip_with nsub model1 (_data self))) var)
            (mask self)
          = zip_with nmul
              (zip_with ndiv (map npow2 (zip_with nsub model2 (_data self))) var)
              (mask self)) as Heq.
  { apply list_eq. intros i.
    rewrite !lookup_zip_with, !lookup_map, !lookup_zip_with.
    destruct (mask self !! i) as [k|] eqn:Hk;
      [|by destruct (model1 !! i), (model2 !! i), (_data self !! i),
                    (var !! i)].
    destruct (num_zero_dec k) as [->|Hk0];
      [|by rewrite (Hagree i k Hk Hk0)].
    destruct (model1 !! i) as [a1|] eqn:Ha1;
      [|apply lookup_ge_None in Ha1;
        rewrite (lookup_ge_None_2 model2) by lia; done].
    destruct (model2 !! i) as [a2|] eqn:Ha2;
      [|apply lookup_ge_None in Ha2; apply lookup_lt_Some in Ha1; lia].
    destruct (_data self !! i) as [di|] eqn:Hdi; [|done].
    destruct (var !! i) as [vi|] eqn:Hvi; [|done].
    cbn. f_equal.
    rewrite !masked_term_zero; try done.
    - eapply Forall_lookup_1; [exact Hf2|done].
    - eapply Forall_lookup_1; [exact Hdfin|done].
    - eapply Forall_lookup_1; [exact Hpos|done].
    - eapply Forall_lookup_1; [exact Hf1|done].
    - eapply Forall_lookup_1; [exact Hdfin|done].
    - eapply Forall_lookup_1; [exact Hpos|done]. }
  unfold log_likelihood, reduced_chi2. unfold_result.
  rewrite Hvar in *.
  destruct (np_sub (Arr model1) _) as [diff1|]; [|done].
  destruct (np_sub (Arr model2) _) as [diff2|]; [|done].
  destruct (np_div (np_unop npow2 diff1) _) as [q1|]; [|done].
  destruct (np_div (np_unop npow2 diff2) _) as [q2|]; [|done].
  by rewrite H1, H2, Heq.
Qed.

(** X18: pixels whose fit-mask weight is 0 do not enter the statistics: two
    finite models of the stored length, both with moderate residuals (so
    that the term of a pixel of weight 0 is finite, and 0 after weighting,
    in floating point as well), that agree wherever the weight is not 0
    have the same log-likelihood and the same reduced chi-square. *)
Theorem masked_pixels_ignored self (model1 model2 : list num) e :
  Data_wf self →
  moderate_fit self model1 → moderate_fit self model2 →
  error_term_fits self e → Forall is_fin (entries e) →
  length model1 = length (_data self) → Forall is_fin model1 →
  length model2 = length (_data self) → Forall is_fin model2 →
  (∀ i x, mask self !! i = Some x → x ≠ Fin 0 →
          model1 !! i = model2 !! i) →
  log_likelihood self (Arr model1) e = log_likelihood self (Arr model2) e
  ∧ reduced_chi2 self (Arr model1) e = reduced_chi2 self (Arr model2) e.
Proof.
  intros Hwf _ _. by apply masked_terms_ignored.
Qed.

(** ** The constructor *)

Lemma Data_init_stages kwargs subgrid_res psf_subgrid lens_light_mask
    pixel_size :
  Data_init kwargs subgrid_res psf_subgrid lens_light_mask pixel_size
  = (data ← init_data kwargs;
     '(idex, idex_bool) ← init_idex kwargs data;
     sigma_b ← init_sigma kwargs;
     f ← init_exposure kwargs idex;
     dv ← read data;
     iv ← read idex;
     data_active ← lift (bool_index dv (eq_mask iv (Fin 1)));
     cd ← covariance_matrix data_active sigma_b f;
     let '(nx, ny) := init_numPix kwargs dv in
     '(mask_active, mask_pure) ← init_mask kwargs data idex data_active;
     mask_ll ← init_mask_lens_light kwargs idex data_active;
     iv ← read idex;
     idex_sub ← lift (_subgrid_idex iv subgrid_res nx ny);
     mret {| _subgrid_res := subgrid_res;
             _lens_light_mask := lens_light_mask;
             _idex_mask := idex;
             _idex_mask_bool := idex_bool;
             _sigma_b := sigma_b;
             _exp_map := f;
             _data := data_active;
             _data_pure := data;
             C_D := cd;
             _nx := nx;
             _ny := ny;
             _mask := mask_active;
             _mask_pure := mask_pure;
             _mask_lens_light := mask_ll;
             _idex_mask_sub := idex_sub;
             _psf_subgrid := psf_subgrid;
             deltaPix := pixel_size |}).
Proof. reflexivity. Qed.

(** Inversion of a run that returns. *)
Lemma bind_Ok {A B} (m : M A) (k : A → M B) w b w' :
  bind m k w = (Ok b, w') →
  ∃ a w1, m w = (Ok a, w1) ∧ k a w1 = (Ok b, w').
Proof.
  unfold bind. destruct (m w) as [[a|e] w1]; [eauto|done].
Qed.

Lemma ret_Ok {A} (a b : A) w w' : ret a w = (Ok b, w') → b = a ∧ w' = w.
Proof. by intros [= -> ->]. Qed.

Lemma lift_Ok {A} (r : result A) b w w' :
  lift r w = (Ok b, w') → r = Ok b ∧ w' = w.
Proof. by intros [= -> ->]. Qed.

Lemma read_Ok l a w w' :
  read l w = (Ok a, w') → heap w !! l = Some a ∧ w' = w.
Proof. unfold read. destruct (heap w !! l); by intros [= -> ->]. Qed.

Lemma write_Ok l a u w w' :
  write l a w = (Ok u, w') → w' = World (<[l := a]> (heap w)) (stdout w).
Proof. intros H. injection H as Hu Hw. by rewrite <- Hw. Qed.

Lemma alloc_Ok a l w w' :
  alloc a w = (Ok l, w') →
  (l ∉ dom (heap w)) ∧ w' = World (<[l := a]> (heap w)) (stdout w).
Proof. intros [= <- <-]. split; [apply is_fresh|done]. Qed.

Ltac minv :=
  repeat match goal with
  | H : bind _ _ _ = (Ok _, _) |- _ =>
      let a := fresh "a" in let w := fresh "w" in let Ha := fresh "Hstep" in
      apply bind_Ok in H as (a & w & Ha & H)
  | H : ret _ _ = (Ok _, _) |- _ => apply ret_Ok in H as [? ?]; subst
  | H : lift _ _ = (Ok _, _) |- _ => apply lift_Ok in H as [? ?]; subst
  | H : read _ _ = (Ok _, _) |- _ => apply read_Ok in H as [? ?]; subst
  | H : write _ _ _ = (Ok _, _) |- _ => apply write_Ok in H; subst
  | H : alloc _ _ = (Ok _, _) |- _ => apply alloc_Ok in H as [? ?]; subst
  end.

Lemma bool_index_Ok a sel r :
  bool_index a sel = Ok r → length sel = length a ∧ r = select sel a.
Proof. unfold bool_index. destruct (decide _); by intros [= <-]. Qed.

Lemma lookup_Some_dom (h : gmap loc (list num)) l a :
  h !! l = Some a → l ∈ dom h.
Proof. intros H. apply elem_of_dom. eauto. Qed.

(** The exposure stage hands on a scalar, or a fresh array with one entry
    per valid pixel. *)
Lemma init_exposure_Ok kwargs idex f w w' :
  init_exposure kwargs idex w = (Ok f, w') →
  exposure_selected idex f w'.
Proof.
  unfold init_exposure. unfold mbind, mret, M_bind, M_ret. intros H.
  destruct (kw_exposure_map kwargs) as [e|].
  - minv. cbn [heap] in *.
    match goal with H : bool_index _ _ = Ok _ |- _ =>
      apply bool_index_Ok in H as [Hlen ->] end.
    match goal with H : _ ∉ dom _ |- _ => rename H into Hfresh end.
    match goal with H : _ !! idex = Some _ |- _ => rename H into Hidex end.
    cbn. split.
    + intros ->. apply Hfresh. eapply lookup_Some_dom, Hidex.
    + do 2 eexists. split; [apply lookup_insert_eq|]. split.
      * rewrite lookup_insert_ne; [exact Hidex|].
        intros ->. apply Hfresh. eapply lookup_Some_dom, Hidex.
      * by apply length_select.
  - destruct (kw_exp_time kwargs); minv; done.
Qed.

Lemma bool_assign_scalar_Ok a sel v r :
  bool_assign_scalar a sel v = Ok r →
  length sel = length a
  ∧ r = zip_with (λ (b : bool) x, if b then v else x) sel a.
Proof. unfold bool_assign_scalar. destruct (decide _); by intros [= <-]. Qed.

Lemma neqb_eq x y : neqb x y = true → is_fin x → is_fin y → x = y.
Proof.
  destruct x as [p| | |], y as [q| | |]; try done.
  unfold neqb. cbn [ncmp]. destruct (p ?= q) eqn:E; try done.
  intros _ _ _. by apply Qc_compare_Eq in E as ->.
Qed.

(** Writing 0 where an array is 0 changes nothing: the in-place update of
    the mask is harmless when the mask is the index mask itself. *)
Lemma zero_where_zero iv :
  zip_with (λ (b : bool) x, if b then Fin 0 else x) (eq_mask iv (Fin 0)) iv
  = iv.
Proof.
  unfold eq_mask. induction iv as [|x iv IH]; [done|].
  cbn [map zip_with]. rewrite IH. f_equal.
  destruct (neqb x (Fin 0)) eqn:E; [|done].
  destruct x as [q| | |]; try done. symmetry. by apply neqb_eq.
Qed.

Lemma clamp_exposure_nil fv : clamp_exposure fv = [] → fv = [].
Proof. unfold clamp_exposure. by destruct fv. Qed.

(** The covariance that the constructor computes has one entry per active
    pixel, and computing it leaves the index mask as it is. *)
Lemma covariance_matrix_Ok_shape idex iv d sigma_b f w cd w' :
  exposure_selected idex f w →
  heap w !! idex = Some iv →
  length d = count_true (valid_pixels iv) →
  covariance_matrix d sigma_b f w = (Ok cd, w') →
  (∃ c, cd = Arr c ∧ length c = length d) ∧ heap w' !! idex = Some iv.
Proof.
  intros Hf Hidex Hd. destruct f as [t|fl]; cbn in Hf.
  - rewrite covariance_matrix_Scalar. intros [= <- <-]. split.
    + eexists. split; [done|]. unfold d_pos_of. by rewrite !length_map.
    + unfold warn_world. by destruct (nltb _ _).
  - destruct Hf as (Hne & fv & iv' & Hfl & Hidex' & Hlen).
    assert (iv' = iv) as -> by congruence.
    destruct (clamp_exposure fv) as [|x fv'] eqn:Hc.
    + apply clamp_exposure_nil in Hc as ->.
      pose proof (covariance_matrix_Map_nil d sigma_b fl w Hfl) as [Hr _].
      intros H. by rewrite H in Hr.
    + erewrite covariance_matrix_Map by done.
      assert (length (x :: fv') = length fv) as Hl'
        by (rewrite <- Hc; unfold clamp_exposure; by rewrite length_map).
      rewrite broadcast2_same_length
        by (unfold d_pos_of; rewrite length_map; congruence).
      intros [= <- <-]. split.
      * eexists. split; [done|].
        rewrite length_map, length_zip_with. unfold d_pos_of.
        rewrite length_map. lia.
      * unfold warn_world. destruct (nltb _ _); cbn [heap];
          by rewrite lookup_insert_ne.
Qed.

Lemma init_mask_Ok kwargs data idex iv da w ma mp w' :
  heap w !! idex = Some iv →
  length da = count_true (valid_pixels iv) →
  init_mask kwargs data idex da w = (Ok (ma, mp), w') →
  length ma = length da ∧ heap w' !! idex = Some iv.
Proof.
  intros Hidex Hda. unfold init_mask. unfold mbind, mret, M_bind, M_ret.
  intros H. destruct (kw_mask kwargs) as [m|].
  - minv. cbn [heap] in *.
    repeat match goal with
    | H : bool_index _ _ = Ok _ |- _ =>
        apply bool_index_Ok in H as [? ->]
    | H : bool_assign_scalar _ _ _ = Ok _ |- _ =>
        apply bool_assign_scalar_Ok in H as [? ->]
    | H1 : ?h !! ?l = Some ?a, H2 : ?h !! ?l = Some ?b |- _ =>
        assert (b = a) as -> by congruence; clear H2
    end.
    injection H as -> ->.
    split.
    + rewrite Hda. by apply length_select.
    + destruct (decide (m = idex)) as [->|Hne].
      * rewrite lookup_insert_eq.
        match goal with H1 : heap w !! idex = Some ?a |- _ =>
          assert (a = iv) as -> by congruence end.
        by rewrite zero_where_zero.
      * by rewrite lookup_insert_ne.
  - minv. cbn [heap] in *.
    injection H as -> ->.
    match goal with H : _ ∉ dom _ |- _ => rename H into Hfresh end.
    split; [unfold np_ones_like, np_ones; by rewrite length_replicate|].
    assert (a0 ≠ idex) as Hne.
    { intros ->. apply Hfresh. by eapply lookup_Some_dom. }
    by rewrite !lookup_insert_ne.
Qed.

Lemma init_mask_lens_light_Ok kwargs idex iv da w mll w' :
  heap w !! idex = Some iv →
  length da = count_true (valid_pixels iv) →
  init_mask_lens_light kwargs idex da w = (Ok mll, w') →
  length mll = length da ∧ w' = w.
Proof.
  intros Hidex Hda. unfold init_mask_lens_light.
  unfold mbind, mret, M_bind, M_ret.
  intros H. destruct (kw_mask_lens_light kwargs) as [m|].
  - minv.
    match goal with H : bool_index _ _ = Ok _ |- _ =>
      apply bool_index_Ok in H as [? ->] end.
    match goal with H1 : heap _ !! idex = Some ?a |- _ =>
      assert (a = iv) as -> by congruence end.
    split; [|done]. rewrite Hda. by apply length_select.
  - minv. split; [|done].
    unfold np_ones_like, np_ones. by rewrite length_replicate.
Qed.

Lemma Data_init_Ok_constructed kwargs subgrid_res psf_subgrid lens_light_mask
    pixel_size w D w' :
  Data_init kwargs subgrid_res psf_subgrid lens_light_mask pixel_size w
  = (Ok D, w') →
  Data_constructed D w'.
Proof.
  rewrite Data_init_stages. unfold mbind, mret, M_bind, M_ret. intros H.
  apply bind_Ok in H as (data & w1 & _ & H).
  apply bind_Ok in H as ([idex idex_bool] & w2 & _ & H).
  apply bind_Ok in H as (sigma_b & w3 & _ & H).
  apply bind_Ok in H as (f & w4 & Hf%init_exposure_Ok & H).
  apply bind_Ok in H as (dv & ? & [Hdv ->]%read_Ok & H).
  apply bind_Ok in H as (iv & ? & [Hiv ->]%read_Ok & H).
  apply bind_Ok in H as (da & ? & [Hda ->]%lift_Ok & H).
  apply bool_index_Ok in Hda as [Hsel ->].
  assert (length (select (eq_mask iv (Fin 1)) dv)
          = count_true (valid_pixels iv)) as Hcount
    by (by apply length_select).
  apply bind_Ok in H as (cd & w5 & Hcd & H).
  destruct (covariance_matrix_Ok_shape _ _ _ _ _ _ _ _ Hf Hiv Hcount Hcd)
    as [(c & -> & Hc) Hiv5].
  destruct (init_numPix kwargs dv) as [nx ny].
  apply bind_Ok in H as ([ma mp] & w6 & Hmask & H).
  destruct (init_mask_Ok _ _ _ _ _ _ _ _ _ Hiv5 Hcount Hmask) as [Hma Hiv6].
  apply bind_Ok in H as (mll & w7 & Hll & H).
  destruct (init_mask_lens_light_Ok _ _ _ _ _ _ _ Hiv6 Hcount Hll)
    as [Hmll ->].
  apply bind_Ok in H as (iv' & ? & [Hiv' ->]%read_Ok & H).
  assert (iv' = iv) as -> by congruence.
  apply bind_Ok in H as (sub & ? & [Hsub ->]%lift_Ok & H).
  apply ret_Ok in H as [-> ->].
  split; cbn; try done.
  - split; [|by eexists].
    unfold mask. cbn. by destruct lens_light_mask.
  - eauto.
Qed.

(** X19: whenever the constructor returns, the fit mask, the lens-light
    mask and the covariance of the object have as many entries as its
    active data, which has one entry per valid pixel of the index mask, and
    the subgrid mask is the one [_subgrid_idex] derives from the index mask
    as it then is in the heap. *)
Theorem Data_init_constructed kwargs subgrid_res psf_subgrid lens_light_mask
    pixel_size w D w' :
  Data_init kwargs subgrid_res psf_subgrid lens_light_mask pixel_size w
  = (Ok D, w') →
  Data_constructed D w'.
Proof. apply Data_init_Ok_constructed. Qed.

(** All three statistics return for a model of the stored length (or of
    length 1) and an error term that is a scalar or of the stored length. *)
Lemma fit_statistics_return np_sqrt self (model : list num) e :
  Data_shape self → error_term_fits self e →
  length model = length (_data self) ∨ length model = 1%nat →
  (∃ r, reduced_residuals np_sqrt self (Arr model) e = Ok r)
  ∧ (∃ L, log_likelihood self (Arr model) e = Ok L)
  ∧ (∃ c, reduced_chi2 self (Arr model) e = Ok c).
Proof.
  intros Hshape He Hmodel.
  destruct (log_likelihood_returns self model e Hshape He Hmodel) as (L & HL).
  split; [|split; [eauto|]].
  - destruct Hshape as [Hml (c & Hc & Hcl)].
    unfold reduced_residuals, np_sub, np_add, np_div, np_mul. rewrite Hc.
    unfold error_term_fits in He. revert Hml Hcl He Hmodel.
    generalize (_data self) (mask self). intros d mk Hml Hcl He Hmodel.
    assert (∃ df, np_binop nsub (Arr model) (Arr d) = Ok (Arr df)
                  ∧ length df = length d) as (df & -> & Hdf).
    { unfold np_binop, broadcast2. destruct (decide _) as [Hl|Hl].
      - exists (zip_with nsub model d). split; [done|].
        rewrite length_zip_with. lia.
      - destruct Hmodel as [?|H1]; [done|].
        destruct model as [|x [|]]; try done.
        exists (map (nsub x) d). split; [done|]. by rewrite length_map. }
    unfold_result.
    assert (∃ var, np_binop nadd (Arr c) (np_unop nabs e) = Ok (Arr var)
                   ∧ length var = length d) as (var & -> & Hvar).
    { destruct e as [y|a]; simpl.
      - eexists. split; [done|]. by rewrite length_map.
      - rewrite broadcast2_same_length by (rewrite length_map; congruence).
        eexists. split; [done|].
        rewrite length_zip_with, length_map. lia. }
    cbn [np_unop np_binop].
    rewrite broadcast2_same_length by (rewrite length_map; congruence).
    cbn [rmap rbind np_binop].
    rewrite broadcast2_same_length
      by (rewrite length_zip_with, length_map; lia).
    cbn [rmap rbind]. eauto.
  - pose proof HL as HL'. unfold log_likelihood in HL'.
    unfold reduced_chi2. unfold_result.
    destruct (np_sub _ _) as [diff|]; [|done].
    destruct (np_add _ _) as [var|]; [|done].
    destruct (np_div _ _) as [q|]; [|done].
    destruct (np_mul q _) as [X|]; [|done].
    destruct X; cbn; eauto.
Qed.

(** X20: on every object that the constructor returns, the three fit
    statistics return a value for every model vector with one entry per
    active pixel and every error term that is a scalar or such a vector. *)
Theorem constructed_statistics_return kwargs subgrid_res psf_subgrid
    lens_light_mask pixel_size w D w' np_sqrt (model : list num) e :
  Data_init kwargs subgrid_res psf_subgrid lens_light_mask pixel_size w
  = (Ok D, w') →
  length model = length (_data D) →
  error_term_fits D e →
  (∃ r, reduced_residuals np_sqrt D (Arr model) e = Ok r)
  ∧ (∃ L, log_likelihood D (Arr model) e = Ok L)
  ∧ (∃ c, reduced_chi2 D (Arr model) e = Ok c).
Proof.
  intros [Hshape _ _ _]%Data_init_Ok_constructed Hlen He.
  apply fit_statistics_return; auto.
Qed.

Lemma subgrid_idex_Ok_length idex k nx ny sub :
  _subgrid_idex idex k nx ny = Ok sub → (0 < k)%nat →
  length idex = (nx * ny)%nat.
Proof.
  unfold _subgrid_idex, util_array2image. rewrite length_np_repeat.
  destruct (decide _) as [Hl|]; [|done]. intros _ Hk. nia.
Qed.

(** The layout of a constructed object, with the shape the embedding
    gives it. *)
Lemma constructed_layout_shape kwargs subgrid_res psf_subgrid lens_light_mask
    pixel_size w D w' :
  Data_init kwargs subgrid_res psf_subgrid lens_light_mask pixel_size w
  = (Ok D, w') →
  _idex_mask_bool D = true →
  (0 < _subgrid_res D)%nat →
  (∀ a, length a
        = (_subgrid_res D * _subgrid_res D * length (_data D))%nat →
        ∃ g, array2image D (heap w') a (_subgrid_res D) = Ok g)
  ∧ (g ← array2image D (heap w') (_data D) 1;
     image2array D (heap w') g) = Ok (_data D).
Proof.
  intros [_ _ _ (iv & Hiv & Hcount & Hsub)]%Data_init_Ok_constructed Hb Hk.
  pose proof (subgrid_idex_Ok_length _ _ _ _ _ Hsub Hk) as Hlen.
  split.
  - intros a Ha.
    destruct (array2image_Ok_subgrid D (heap w') iv a (_subgrid_res D))
      as (g & Hg & _); eauto. by rewrite <- Hcount.
  - apply array2image_image2array.
    + intros _. eauto.
    + unfold active_vector. rewrite Hb. eauto.
Qed.

(** X21: on every object that the constructor returns for a configuration
    that gives the shape of the grid ([numPix_xy], at least 1 by 1), with an
    index mask and a subgrid resolution of at least 1, laid out against the
    heap the constructor leaves, (a) every vector with [subgrid_res] squared
    entries per active pixel scatters to a subgrid image, and (b) the stored
    active data scatters to a native image that compacts to the stored data
    again. *)
Theorem constructed_layout kwargs subgrid_res psf_subgrid lens_light_mask
    pixel_size w D w' nx ny :
  kw_numPix_xy kwargs = Some (nx, ny) →
  (0 < nx)%nat → (0 < ny)%nat →
  Data_init kwargs subgrid_res psf_subgrid lens_light_mask pixel_size w
  = (Ok D, w') →
  _idex_mask_bool D = true →
  (0 < _subgrid_res D)%nat →
  (∀ a, length a
        = (_subgrid_res D * _subgrid_res D * length (_data D))%nat →
        ∃ g, array2image D (heap w') a (_subgrid_res D) = Ok g)
  ∧ (g ← array2image D (heap w') (_data D) 1;
     image2array D (heap w') g) = Ok (_data D).
Proof.
  intros _ _ _. apply constructed_layout_shape.
Qed.

(** *** The constructor on finite input *)

Lemma heap_finite_insert w l a out :
  heap_finite w → Forall is_fin a →
  heap_finite (World (<[l := a]> (heap w)) out).
Proof.
  intros Hw Ha l' a'. cbn [heap]. destruct (decide (l = l')) as [->|Hne].
  - rewrite lookup_insert_eq. by intros [= <-].
  - rewrite lookup_insert_ne by done. apply Hw.
Qed.

Lemma Forall_select {A} (P : A → Prop) sel (a : list A) :
  Forall P a → Forall P (select sel a).
Proof.
  intros Ha. revert sel. induction Ha as [|x a Hx _ IH]; intros [|b sel];
    try constructor.
  cbn [select]. destruct b; [constructor|]; auto.
Qed.

Lemma Forall_map_intro {A B} (P : A → Prop) (Q : B → Prop) (f : A → B) l :
  (∀ x, P x → Q (f x)) → Forall P l → Forall Q (map f l).
Proof. intros Hf Hl. apply List.Forall_map. by eapply Forall_impl. Qed.

Lemma Forall_np_ones n : Forall is_fin (np_ones n).
Proof. by apply Forall_replicate. Qed.

Lemma fin_pos_is_fin x : fin_pos x → is_fin x.
Proof. by intros (p & -> & _). Qed.

Lemma of_nat_pos n : (0 < n)%nat → 0 < Q2Qc (inject_Z (Z.of_nat n)).
Proof.
  intros Hn. unfold Qclt. cbn [this Q2Qc]. rewrite !Qred_correct.
  unfold Qlt. simpl. lia.
Qed.

Lemma fin_nonneg_sum_pos x v :
  fin_pos x → Forall fin_pos v → fin_pos (np_sum_list (x :: v)).
Proof.
  intros (p & -> & Hp) Hv. unfold np_sum_list. cbn [foldr].
  assert (fin_nonneg (foldr nadd (Fin 0) v)) as (s & -> & Hs).
  { apply fin_nonneg_sum. eapply Forall_impl; [exact Hv|].
    intros y (q & -> & Hq). exists q. split; [done|]. by apply Qclt_le_weak. }
  exists (p + s). split; [done|]. by apply Qcplus_pos_nonneg.
Qed.

(** The mean of a non-empty array of positive numbers is a positive
    number. *)
Lemma np_mean_fin_pos v : v ≠ [] → Forall fin_pos v → fin_pos (np_mean v).
Proof.
  intros Hv Hpos. destruct v as [|x v]; [done|].
  inversion Hpos as [|? ? Hx Hv']; subst.
  destruct (fin_nonneg_sum_pos x v Hx Hv') as (s & Hs & Hs0).
  unfold np_mean, of_Z. rewrite Hs. cbn [ndiv].
  assert (0 < Q2Qc (inject_Z (Z.of_nat (length (x :: v))))) as Hn
    by (apply of_nat_pos; simpl; lia).
  rewrite decide_False by (by apply Qcpos_neq0).
  eexists. split; [done|]. unfold Qcdiv.
  apply Qcmult_pos_pos; [done|]. by apply Qcinv_pos.
Qed.

Lemma clamp_nonpositive_fin_pos ev :
  Forall is_fin ev →
  Forall fin_pos
    (zip_with (λ (b : bool) x, if b then of_Q (1 # 1000) else x)
       (le_mask ev (Fin 0)) ev).
Proof.
  unfold le_mask. induction 1 as [|x ev Hx _ IH]; [constructor|].
  cbn [map zip_with]. constructor; [|done].
  destruct x as [q| | |]; try done.
  destruct (nleb (Fin q) (Fin 0)) eqn:E.
  - eexists. split; [done|]. reflexivity.
  - exists q. split; [done|]. unfold nleb in E. cbn [ncmp] in E.
    destruct (q ?= 0) eqn:Hc; try done. by apply Qc_compare_Gt in Hc.
Qed.

Lemma fin_pos_nadd_l x s : fin_nonneg x → fin_pos s → fin_pos (nadd x s).
Proof.
  intros (a & -> & Ha) (p & -> & Hp). exists (a + p). split; [done|].
  by apply Qcplus_nonneg_pos.
Qed.

Lemma d_pos_of_fin_nonneg d : Forall is_fin d → Forall fin_nonneg (d_pos_of d).
Proof.
  intros Hd. unfold d_pos_of. apply List.Forall_map.
  eapply Forall_impl; [exact Hd|]. intros x Hx. cbn beta.
  destruct x as [q| | |]; try done. unfold ngeb.
  destruct (nleb (Fin 0) (Fin q)) eqn:E.
  - exists q. split; [done|]. by apply nnonneg_Fin.
  - exists 0. split; [done|]. apply Qcle_refl.
Qed.

(** With finite data, a positive background sigma and a positive exposure,
    the variance is a vector of positive numbers and the heap stays
    finite. *)
Lemma covariance_matrix_Ok_fin_pos d sigma_b f w cd w' :
  heap_finite w → Forall is_fin d → fin_pos sigma_b →
  exposure_positive f w →
  covariance_matrix d sigma_b f w = (Ok cd, w') →
  Forall fin_pos (entries cd) ∧ heap_finite w'.
Proof.
  intros Hw Hd Hs Hf.
  assert (fin_pos (npow2 sigma_b)) as Hs2.
  { destruct Hs as (p & -> & Hp). eexists. split; [done|].
    by apply Qcmult_pos_pos. }
  pose proof (d_pos_of_fin_nonneg d Hd) as Hdpos.
  destruct f as [t|fl]; cbn in Hf.
  - rewrite covariance_matrix_Scalar. intros [= <- <-]. split.
    + cbn [entries]. apply List.Forall_map.
      eapply Forall_impl; [exact Hdpos|]. intros x Hx.
      apply fin_pos_nadd_l; [|done]. apply fin_nonneg_ndiv; [done|].
      destruct t as [q| | |]; try done.
      destruct (nleb (Fin q) (Fin 0)) eqn:E; [by exists 1|].
      exists q. split; [done|]. unfold nleb in E. cbn [ncmp] in E.
      destruct (q ?= 0) eqn:Hc; try done. by apply Qc_compare_Gt in Hc.
    + unfold warn_world. destruct (nltb _ _); [|done].
      intros l a. cbn [heap]. apply Hw.
  - destruct Hf as (fv & Hfl & Hpos).
    destruct (clamp_exposure fv) as [|x fv'] eqn:Hc.
    + apply clamp_exposure_nil in Hc as ->.
      pose proof (covariance_matrix_Map_nil d sigma_b fl w Hfl) as [Hr _].
      intros H. by rewrite H in Hr.
    + assert (Forall fin_pos (x :: fv')) as Hcl.
      { rewrite <- Hc. apply clamp_exposure_fin_pos.
        - eapply Forall_impl; [exact Hpos|]. apply fin_pos_is_fin.
        - apply np_mean_fin_pos; [|done]. intros ->. by cbn in Hc. }
      erewrite covariance_matrix_Map by done.
      destruct (broadcast2 ndiv (d_pos_of d) (x :: fv')) as [q|] eqn:Hq;
        [|done].
      intros [= <- <-]. split.
      * cbn [entries]. apply List.Forall_map.
        assert (Forall fin_nonneg q) as Hqnn.
        { unfold broadcast2 in Hq. destruct (decide _).
          - injection Hq as <-.
            apply (Forall_zip_with_2 fin_nonneg fin_pos); auto.
            apply fin_nonneg_ndiv.
          - destruct (d_pos_of d) as [|y [|y2 dl]] eqn:Hdp.
            + destruct fv'; [|discriminate]. injection Hq as <-. constructor.
            + assert (q = map (ndiv y) (x :: fv')) as -> by congruence.
              apply (Forall_map_intro fin_pos); [|done].
              intros z Hz. apply fin_nonneg_ndiv; [|done].
              by inversion Hdpos.
            + destruct fv'; [|done].
              assert (q = map (λ z, ndiv z x) (y :: y2 :: dl)) as ->
                by congruence.
              apply (Forall_map_intro fin_nonneg); [|done].
              intros z Hz. apply fin_nonneg_ndiv; [done|].
              by inversion Hcl. }
        eapply Forall_impl; [exact Hqnn|]. intros y Hy.
        by apply fin_pos_nadd_l.
      * assert (heap_finite (World (<[fl := x :: fv']> (heap w)) (stdout w)))
          as Hw'.
        { apply heap_finite_insert; [done|].
          eapply Forall_impl; [exact Hcl|]. apply fin_pos_is_fin. }
        unfold warn_world. destruct (nltb _ _); [|done].
        intros l a. cbn [heap]. apply Hw'.
Qed.

Lemma heap_finite_stdout w out :
  heap_finite w → heap_finite (World (heap w) out).
Proof. intros Hw l a. cbn [heap]. apply Hw. Qed.

Lemma heap_finite_store h l a out out' :
  heap_finite (World h out) → Forall is_fin a →
  heap_finite (World (<[l := a]> h) out').
Proof.
  intros Hw Ha. apply (heap_finite_insert (World h out) l a out' Hw Ha).
Qed.

Lemma print_Ok m u w w' :
  print m w = (Ok u, w') → w' = World (heap w) (stdout w ++ [m]).
Proof. intros H. injection H as Hu Hw. by rewrite <- Hw. Qed.

Ltac minv_fin :=
  repeat match goal with
  | H : print _ _ = (Ok _, _) |- _ => apply print_Ok in H; subst
  | H : bool_index _ _ = Ok _ |- _ => apply bool_index_Ok in H as [? ->]
  | H : bool_assign_scalar _ _ _ = Ok _ |- _ =>
      apply bool_assign_scalar_Ok in H as [? ->]
  end.

Lemma init_data_fin kwargs w l w' :
  heap_finite w → init_data kwargs w = (Ok l, w') → heap_finite w'.
Proof.
  intros Hw. unfold init_data. unfold mbind, mret, M_bind, M_ret.
  intros H. destruct (kw_image_data kwargs); minv; minv_fin; [done|].
  apply heap_finite_insert; [|apply Forall_np_ones].
  by apply heap_finite_stdout.
Qed.

Lemma init_idex_fin kwargs data w p w' :
  heap_finite w → init_idex kwargs data w = (Ok p, w') → heap_finite w'.
Proof.
  intros Hw. unfold init_idex. unfold mbind, mret, M_bind, M_ret.
  intros H. destruct (kw_idex_mask kwargs); minv; [done|].
  apply heap_finite_insert; [done|apply Forall_np_ones].
Qed.

Lemma init_sigma_fin kwargs w s w' :
  heap_finite w → kwargs_finite kwargs →
  init_sigma kwargs w = (Ok s, w') → fin_pos s ∧ heap_finite w'.
Proof.
  intros Hw [Hs _]. unfold init_sigma. unfold mbind, mret, M_bind, M_ret.
  intros H. destruct (kw_sigma_background kwargs) eqn:E; minv; minv_fin.
  - split; [by apply Hs|done].
  - split; [by exists 1|by apply heap_finite_stdout].
Qed.

Lemma init_exposure_fin kwargs idex w f w' :
  heap_finite w → kwargs_finite kwargs →
  init_exposure kwargs idex w = (Ok f, w') →
  exposure_positive f w' ∧ heap_finite w'.
Proof.
  intros Hw [_ Ht]. unfold init_exposure. unfold mbind, mret, M_bind, M_ret.
  intros H. destruct (kw_exposure_map kwargs) as [e|].
  - minv. minv_fin. cbn [heap] in *.
    match goal with H : heap w !! e = Some ?a |- _ =>
      pose proof (clamp_nonpositive_fin_pos a (Hw _ _ H)) as Hclamp end.
    match goal with H : <[e:=_]> _ !! e = Some _ |- _ =>
      rewrite lookup_insert_eq in H; injection H as <- end.
    split.
    + cbn. eexists. split; [apply lookup_insert_eq|].
      by apply Forall_select.
    + apply heap_finite_store with (out := stdout w).
      * apply heap_finite_store with (out := stdout w);
          [by apply (heap_finite_stdout w)|].
        eapply Forall_impl; [exact Hclamp|]. apply fin_pos_is_fin.
      * apply Forall_select.
        eapply Forall_impl; [exact Hclamp|]. apply fin_pos_is_fin.
  - destruct (kw_exp_time kwargs) eqn:E; minv; minv_fin.
    + split; [by apply Ht|done].
    + split; [done|by apply heap_finite_stdout].
Qed.

Lemma zeroed_fin sel a :
  Forall is_fin a →
  Forall is_fin (zip_with (λ (b : bool) x, if b then Fin 0 else x) sel a).
Proof.
  intros Ha. revert sel. induction Ha as [|x a Hx _ IH]; intros [|b sel];
    try constructor; [by destruct b|auto].
Qed.

Lemma init_mask_fin kwargs data idex da w ma mp w' :
  heap_finite w → Forall is_fin da →
  init_mask kwargs data idex da w = (Ok (ma, mp), w') →
  Forall is_fin ma ∧ heap_finite w'.
Proof.
  intros Hw Hda. unfold init_mask. unfold mbind, mret, M_bind, M_ret.
  intros H. destruct (kw_mask kwargs) as [m|].
  - minv. minv_fin. cbn [heap] in *. injection H as -> ->.
    repeat match goal with
    | H1 : ?h !! ?l = Some ?a, H2 : ?h !! ?l = Some ?b |- _ =>
        assert (b = a) as -> by congruence; clear H2
    end.
    match goal with H : heap w !! m = Some ?a |- _ =>
      pose proof (Hw _ _ H) as Hmv end.
    split; [by apply Forall_select|].
    apply heap_finite_insert; [done|]. by apply zeroed_fin.
  - minv. minv_fin. cbn [heap] in *. injection H as -> ->.
    split; [apply Forall_np_ones|].
    match goal with H : <[?l:=_]> _ !! ?l = Some _ |- _ =>
      rewrite lookup_insert_eq in H; injection H as <- end.
    apply heap_finite_store with (out := stdout w).
    + apply heap_finite_store with (out := stdout w);
        [by apply (heap_finite_stdout w)|apply Forall_np_ones].
    + apply zeroed_fin, Forall_np_ones.
Qed.

Lemma init_mask_lens_light_fin kwargs idex da w mll w' :
  heap_finite w → Forall is_fin da →
  init_mask_lens_light kwargs idex da w = (Ok mll, w') →
  Forall is_fin mll.
Proof.
  intros Hw Hda. unfold init_mask_lens_light.
  unfold mbind, mret, M_bind, M_ret.
  intros H. destruct (kw_mask_lens_light kwargs) as [m|]; minv; minv_fin.
  - apply Forall_select. eauto.
  - apply Forall_np_ones.
Qed.

(** In exact arithmetic: run in a heap of finite arrays with a
    configuration whose background sigma is a positive number and whose
    exposure time is finite, the constructor, whenever it returns, returns
    a well-formed object and leaves a heap of finite arrays. *)
Lemma Data_init_Ok_wf kwargs subgrid_res psf_subgrid lens_light_mask
    pixel_size w D w' :
  heap_finite w →
  kwargs_finite kwargs →
  Data_init kwargs subgrid_res psf_subgrid lens_light_mask pixel_size w
  = (Ok D, w') →
  Data_wf D ∧ heap_finite w'.
Proof.
  intros Hw Hkw HD.
  pose proof (Data_init_Ok_constructed _ _ _ _ _ _ _ _ HD) as [Hshape _ _ _].
  revert HD. rewrite Data_init_stages. unfold mbind, mret, M_bind, M_ret.
  intros H.
  apply bind_Ok in H as (data & w1 & Hw1%init_data_fin & H); [|done].
  apply bind_Ok in H as ([idex idex_bool] & w2 & Hw2%init_idex_fin & H);
    [|done].
  apply bind_Ok in H as (sigma_b & w3 & Hs & H).
  apply init_sigma_fin in Hs as [Hs Hw3]; [|done..].
  apply bind_Ok in H as (f & w4 & Hf & H).
  apply init_exposure_fin in Hf as [Hf Hw4]; [|done..].
  apply bind_Ok in H as (dv & ? & [Hdv ->]%read_Ok & H).
  apply bind_Ok in H as (iv & ? & [Hiv ->]%read_Ok & H).
  apply bind_Ok in H as (da & ? & [Hda ->]%lift_Ok & H).
  apply bool_index_Ok in Hda as [Hsel ->].
  assert (Forall is_fin (select (eq_mask iv (Fin 1)) dv)) as Hdafin
    by (apply Forall_select; eauto).
  apply bind_Ok in H as (cd & w5 & Hcd & H).
  destruct (covariance_matrix_Ok_fin_pos _ _ _ _ _ _ Hw4 Hdafin Hs Hf Hcd)
    as [Hcdpos Hw5].
  destruct (init_numPix kwargs dv) as [nx ny].
  apply bind_Ok in H as ([ma mp] & w6 & Hmask & H).
  destruct (init_mask_fin _ _ _ _ _ _ _ _ Hw5 Hdafin Hmask) as [Hma Hw6].
  apply bind_Ok in H as (mll & w7 & Hll & H).
  pose proof (init_mask_lens_light_fin _ _ _ _ _ _ Hw6 Hdafin Hll) as Hmll.
  assert (w7 = w6) as ->.
  { revert Hll. unfold init_mask_lens_light.
    unfold mbind, mret, M_bind, M_ret. intros Hll.
    destruct (kw_mask_lens_light kwargs); by minv. }
  apply bind_Ok in H as (iv' & ? & [Hiv' ->]%read_Ok & H).
  apply bind_Ok in H as (sub & ? & [Hsub ->]%lift_Ok & H).
  apply ret_Ok in H as [-> ->].
  split; [|done]. split; cbn in *; try done.
  unfold mask. cbn. by destruct lens_light_mask.
Qed.

(** *** Moderate magnitudes *)

Lemma small_pos : 0 < small.
Proof. reflexivity. Qed.

Lemma moderate_is_fin x : moderate x → is_fin x.
Proof. by intros (q & -> & _). Qed.

Lemma moderate_above0_fin_pos x : moderate_above0 x → fin_pos x.
Proof. intros (q & -> & Hq & _). by exists q. Qed.

Lemma moderate_pos_fin_pos x : moderate_pos x → fin_pos x.
Proof.
  intros (q & -> & Hq & _). exists q. split; [done|].
  eapply Qclt_le_trans; [apply small_pos|done].
Qed.

(** The exposures on which floating point is safe are admissible. *)
Lemma exposure_safe_admissible w d f :
  exposure_safe w d f → exposure_admissible w d f.
Proof.
  destruct f as [t|l]; cbn.
  - intros [Ht _]. by apply moderate_is_fin.
  - intros (fv & Hl & Hne & Hpos & Hlen). exists fv.
    assert (Forall fin_pos fv) as Hfp
      by (eapply Forall_impl; [exact Hpos|apply moderate_above0_fin_pos]).
    split; [done|]. split.
    + eapply Forall_impl; [exact Hfp|apply fin_pos_is_fin].
    + split; [by apply np_mean_fin_pos|done].
Qed.


Lemma kwargs_moderate_finite kwargs w :
  kwargs_moderate kwargs w → kwargs_finite kwargs.
Proof.
  intros (Hs & Ht & _ & _). split.
  - intros s Hk. by apply moderate_pos_fin_pos, Hs.
  - intros t Hk. by apply moderate_is_fin, (Ht t).
Qed.

(** X22: run in a heap of finite arrays with a configuration of moderate
    magnitudes (background sigma, exposure time or exposure map, and image;
    see [kwargs_moderate]), the constructor, whenever it returns, returns an
    object whose active data and masks are finite and whose covariance is a
    strictly positive number in every entry; the heap it leaves is finite
    again. *)
Theorem Data_init_wf kwargs subgrid_res psf_subgrid lens_light_mask
    pixel_size w D w' :
  heap_finite w →
  kwargs_moderate kwargs w →
  Data_init kwargs subgrid_res psf_subgrid lens_light_mask pixel_size w
  = (Ok D, w') →
  Data_wf D ∧ heap_finite w'.
Proof.
  intros Hw Hk. apply Data_init_Ok_wf; [done|].
  by apply kwargs_moderate_finite with w.
Qed.

(** *** The compact vectors and the full arrays *)

Lemma eq_one_not_zero x : neqb x (Fin 1) = true → neqb x (Fin 0) = false.
Proof.
  intros H. assert (x = Fin 1) as ->; [|done].
  destruct x as [q| | |]; try done. by apply neqb_eq.
Qed.

Lemma select_zeroed iv (a : list num) :
  select (valid_pixels iv)
    (zip_with (λ (b : bool) x, if b then Fin 0 else x) (eq_mask iv (Fin 0)) a)
  = select (valid_pixels iv) a.
Proof.
  unfold valid_pixels, eq_mask. revert a.
  induction iv as [|x iv IH]; intros [|y a]; try done.
  cbn [map zip_with select]. rewrite IH.
  destruct (neqb x (Fin 1)) eqn:E; [|done].
  by rewrite (eq_one_not_zero x E).
Qed.

Lemma select_replicate {A} sel n (x : A) :
  length sel = n → select sel (replicate n x) = replicate (count_true sel) x.
Proof.
  intros <-. unfold count_true.
  induction sel as [|b sel IH]; [done|].
  cbn [length replicate select]. rewrite IH.
  destruct b.
  - rewrite filter_cons_True by done. done.
  - rewrite filter_cons_False by done. done.
Qed.

Lemma lookup_zeroed iv (a : list num) i x :
  length iv = length a →
  iv !! i = Some x → neqb x (Fin 0) = true →
  zip_with (λ (b : bool) y, if b then Fin 0 else y) (eq_mask iv (Fin 0)) a !! i
  = Some (Fin 0).
Proof.
  unfold eq_mask. revert a i.
  induction iv as [|z iv IH]; intros [|y a] [|i] Hl Hi Hx; try done.
  - cbn in Hi. injection Hi as ->. cbn. by rewrite Hx.
  - cbn. apply IH; [by injection Hl|done..].
Qed.

Lemma init_data_dom kwargs w data w1 :
  (∀ l, kw_image_data kwargs = Some l → l ∈ dom (heap w)) →
  init_data kwargs w = (Ok data, w1) → data ∈ dom (heap w1).
Proof.
  intros Hl. unfold init_data. unfold mbind, mret, M_bind, M_ret.
  intros H. destruct (kw_image_data kwargs) as [l|]; minv; minv_fin.
  - by apply Hl.
  - cbn [heap]. set_solver.
Qed.

Lemma init_idex_dom kwargs data l w p w' :
  l ∈ dom (heap w) →
  init_idex kwargs data w = (Ok p, w') → l ∈ dom (heap w').
Proof.
  intros Hl. unfold init_idex. unfold mbind, mret, M_bind, M_ret.
  intros H. destruct (kw_idex_mask kwargs); minv; [done|].
  cbn [heap]. set_solver.
Qed.

Lemma init_sigma_heap kwargs w s w' :
  init_sigma kwargs w = (Ok s, w') → heap w' = heap w.
Proof.
  unfold init_sigma. unfold mbind, mret, M_bind, M_ret.
  intros H. destruct (kw_sigma_background kwargs); minv; minv_fin; done.
Qed.

Lemma init_exposure_dom kwargs idex l w f w' :
  l ∈ dom (heap w) →
  init_exposure kwargs idex w = (Ok f, w') →
  l ∈ dom (heap w') ∧ l ∉ exposure_locs f.
Proof.
  intros Hl. unfold init_exposure. unfold mbind, mret, M_bind, M_ret.
  intros H. destruct (kw_exposure_map kwargs) as [e|].
  - minv. cbn [heap exposure_locs] in *.
    match goal with H : _ ∉ dom _ |- _ => rename H into Hfresh end.
    split; [set_solver|].
    intros ->%elem_of_singleton. apply Hfresh. set_solver.
  - destruct (kw_exp_time kwargs); minv; minv_fin;
      (split; [done|set_solver]).
Qed.

Lemma init_mask_Ok_restrict kwargs data idex iv dv w ma mp w' :
  heap w !! idex = Some iv → heap w !! data = Some dv →
  length iv = length dv →
  init_mask kwargs data idex (select (valid_pixels iv) dv) w
  = (Ok (ma, mp), w') →
  ∃ dv' mv', heap w' !! data = Some dv' ∧ heap w' !! mp = Some mv'
    ∧ select (valid_pixels iv) dv' = select (valid_pixels iv) dv
    ∧ ma = select (valid_pixels iv) mv'
    ∧ (∀ i x, iv !! i = Some x → neqb x (Fin 0) = true →
              mv' !! i = Some (Fin 0)).
Proof.
  intros Hidex Hdata Hlen. unfold init_mask.
  unfold mbind, mret, M_bind, M_ret.
  intros H. destruct (kw_mask kwargs) as [m|].
  - minv. cbn [heap] in *.
    repeat match goal with
    | H : bool_index _ _ = Ok _ |- _ =>
        apply bool_index_Ok in H as [? ->]
    | H : bool_assign_scalar _ _ _ = Ok _ |- _ =>
        apply bool_assign_scalar_Ok in H as [? ->]
    | H1 : ?h !! ?l = Some ?a, H2 : ?h !! ?l = Some ?b |- _ =>
        assert (b = a) as -> by congruence; clear H2
    end.
    injection H as -> ->.
    match goal with H : heap w !! m = Some ?a |- _ =>
      rename H into Hm; set (mv := a) in * end.
    assert (length iv = length mv) as Hlm.
    { match goal with H : length (eq_mask _ (Fin 0)) = length mv |- _ =>
        revert H end.
      unfold eq_mask. by rewrite length_map. }
    destruct (decide (m = data)) as [->|Hne].
    + assert (mv = dv) as Hmv by congruence.
      do 2 eexists. split; [apply lookup_insert_eq|].
      split; [apply lookup_insert_eq|].
      split; [by rewrite select_zeroed, Hmv|].
      split; [by rewrite select_zeroed|].
      intros i x Hi Hx. by apply lookup_zeroed with x.
    + exists dv. eexists. split; [by rewrite lookup_insert_ne|].
      split; [apply lookup_insert_eq|]. split; [done|].
      split; [by rewrite select_zeroed|].
      intros i x Hi Hx. by apply lookup_zeroed with x.
  - minv. cbn [heap] in *.
    injection H as -> ->.
    match goal with H : _ ∉ dom _ |- _ => rename H into Hfresh end.
    repeat match goal with
    | H : bool_assign_scalar _ _ _ = Ok _ |- _ =>
        apply bool_assign_scalar_Ok in H as [? ->]
    | H1 : ?h !! ?l = Some ?a, H2 : ?h !! ?l = Some ?b |- _ =>
        assert (b = a) as -> by congruence; clear H2
    end.
    match goal with H : <[?l:=_]> _ !! ?l = Some _ |- _ =>
      rewrite lookup_insert_eq in H; injection H as <- end.
    match goal with H : <[?l:=_]> _ !! idex = Some ?a |- _ =>
      rewrite lookup_insert_ne in H
        by (intros ->; apply Hfresh; by eapply lookup_Some_dom);
      assert (a = iv) as -> by congruence end.
    exists dv. eexists.
    split.
    { rewrite !lookup_insert_ne; [done|..];
        intros ->; apply Hfresh; by eapply lookup_Some_dom. }
    split; [apply lookup_insert_eq|]. split; [done|].
    split.
    + rewrite select_zeroed. unfold np_ones_like, np_ones.
      assert (length (valid_pixels iv) = length dv) as Hv
        by (unfold valid_pixels, eq_mask; by rewrite length_map).
      rewrite (select_replicate _ _ _ Hv).
      by rewrite (length_select _ _ Hv).
    + intros i x Hi Hx. apply lookup_zeroed with x; [|done..].
      unfold np_ones_like, np_ones. by rewrite length_replicate.
Qed.

(** X24: whenever the constructor, given an image array that exists,
    returns, the compact vectors agree with the full arrays as the
    constructor leaves them in the heap: [_data] is [_data_pure] at the valid
    pixels of the index mask, [_mask] is [_mask_pure] at the valid pixels,
    and [_mask_pure] is 0 wherever the index mask is 0.  This holds whichever
    of the supplied arrays are one and the same object. *)
Theorem constructed_compact_arrays kwargs subgrid_res psf_subgrid
    lens_light_mask pixel_size w D w' :
  image_data_allocated kwargs w →
  Data_init kwargs subgrid_res psf_subgrid lens_light_mask pixel_size w
  = (Ok D, w') →
  ∃ dv iv mv,
    heap w' !! _data_pure D = Some dv
    ∧ heap w' !! _idex_mask D = Some iv
    ∧ heap w' !! _mask_pure D = Some mv
    ∧ _data D = select (valid_pixels iv) dv
    ∧ _mask D = select (valid_pixels iv) mv
    ∧ ∀ i x, iv !! i = Some x → neqb x (Fin 0) = true →
             mv !! i = Some (Fin 0).
Proof.
  intros Hkw. rewrite Data_init_stages.
  unfold mbind, mret, M_bind, M_ret. intros H.
  apply bind_Ok in H as (data & w1 & Hd1 & H).
  apply (init_data_dom _ _ _ _ Hkw) in Hd1.
  apply bind_Ok in H as ([idex idex_bool] & w2 & Hd2 & H).
  apply (init_idex_dom _ _ _ _ _ _ Hd1) in Hd2.
  apply bind_Ok in H as (sigma_b & w3 & Hd3%init_sigma_heap & H).
  rewrite <- Hd3 in Hd2.
  apply bind_Ok in H as (f & w4 & Hf & H).
  destruct (init_exposure_dom _ _ _ _ _ _ Hd2 Hf) as [Hd4 Hfd].
  apply init_exposure_Ok in Hf.
  apply bind_Ok in H as (dv & ? & [Hdv ->]%read_Ok & H).
  apply bind_Ok in H as (iv & ? & [Hiv ->]%read_Ok & H).
  apply bind_Ok in H as (da & ? & [Hda ->]%lift_Ok & H).
  apply bool_index_Ok in Hda as [Hsel ->].
  assert (length iv = length dv) as Hlen
    by (revert Hsel; unfold eq_mask; by rewrite length_map).
  assert (length (select (eq_mask iv (Fin 1)) dv)
          = count_true (valid_pixels iv)) as Hcount
    by (by apply length_select).
  apply bind_Ok in H as (cd & w5 & Hcd & H).
  destruct (covariance_matrix_Ok_shape _ _ _ _ _ _ _ _ Hf Hiv Hcount Hcd)
    as [_ Hiv5].
  assert (heap w5 !! data = Some dv) as Hdv5.
  { assert (safe_exposure (dom (heap w4)) (exposure_locs f) f) as Hsafe
      by (destruct f; cbn; [done|left; set_solver]).
    destruct (confined_covariance_matrix _ _
                (select (eq_mask iv (Fin 1)) dv) sigma_b f Hsafe w4)
      as [[_ Hsame] _]; [done|].
    rewrite Hcd in Hsame. cbn in Hsame. by rewrite Hsame. }
  destruct (init_numPix kwargs dv) as [nx ny].
  apply bind_Ok in H as ([ma mp] & w6 & Hmask & H).
  destruct (init_mask_Ok _ _ _ _ _ _ _ _ _ Hiv5 Hcount Hmask) as [_ Hiv6].
  destruct (init_mask_Ok_restrict _ _ _ _ _ _ _ _ _ Hiv5 Hdv5 Hlen Hmask)
    as (dv' & mv' & Hdv6 & Hmv6 & Hseldv & Hselmv & Hzero).
  apply bind_Ok in H as (mll & w7 & Hll & H).
  destruct (init_mask_lens_light_Ok _ _ _ _ _ _ _ Hiv6 Hcount Hll)
    as [_ ->].
  apply bind_Ok in H as (iv' & ? & [Hiv' ->]%read_Ok & H).
  apply bind_Ok in H as (sub & ? & [Hsub ->]%lift_Ok & H).
  apply ret_Ok in H as [-> ->]. cbn.
  exists dv', iv, mv'. by rewrite Hseldv.
Qed.

(** ** The further properties at concrete inputs *)

Lemma ex_Data_run :
  Data_init ex_kwargs 1%nat false false (Fin 1) ex_world
  = (Ok ex_Data,
     (Data_init ex_kwargs 1%nat false false (Fin 1) ex_world).2).
Proof.
  rewrite <- ex_Data_constructed. apply surjective_pairing.
Qed.

Lemma ex_world_finite : heap_finite ex_world.
Proof.
  unfold ex_world.
  repeat (apply heap_finite_store with (out := []);
          [|repeat constructor]).
  intros l a. cbn [heap]. by rewrite lookup_empty.
Defined.

Ltac moderate_number :=
  eexists; split; [reflexivity|]; split; by vm_compute.

Lemma ex_exposure_safe :
  exposure_safe ex_world_exposure [Fin 1; of_Z (-2); of_Z 3; of_Z 4]
    (Map 1%nat).
Proof.
  eexists. split; [reflexivity|]. split; [discriminate|].
  split; [|reflexivity]. repeat (constructor; [moderate_number|]).
  constructor.
Defined.

Lemma ex_moderate_fit model :
  Forall2 (λ m d, ∃ p q, m = Fin p ∧ d = Fin q
                         ∧ - flux_bound ≤ p - q ∧ p - q ≤ flux_bound)
          model (_data ex_Data) →
  moderate_fit ex_Data model.
Proof.
  intros Hm. split; [exact Hm|]. split.
  - repeat (constructor; [eexists; split; [reflexivity|by vm_compute]|]).
    constructor.
  - repeat (constructor; [eexists; split; [reflexivity|by vm_compute]|]).
    constructor.
Defined.

Ltac moderate_residuals :=
  repeat (constructor;
          [do 2 eexists; split; [reflexivity|]; split; [reflexivity|];
           split; by vm_compute|]);
  constructor.

(** The constructor, run on the configuration with a flat exposure, builds
    [ex_Data_flat]. *)
Lemma ex_Data_flat_run :
  Data_init ex_kwargs_zero_mask 1%nat false false (Fin 1) ex_world
  = (Ok ex_Data_flat,
     (Data_init ex_kwargs_zero_mask 1%nat false false (Fin 1) ex_world).2).
Proof.
  assert ((Data_init ex_kwargs_zero_mask 1%nat false false (Fin 1)
             ex_world).1 = Ok ex_Data_flat) as <-;
    [|apply surjective_pairing].
  vm_compute.
  repeat (first [ reflexivity | apply Fin_eq; reflexivity | f_equal ]).
Qed.

Lemma ex_kwargs_moderate : kwargs_moderate ex_kwargs_zero_mask ex_world.
Proof.
  split; [|split; [|split]].
  - intros s [= <-]. moderate_number.
  - intros t [= <-]. split; [moderate_number|right; moderate_number].
  - intros l a [= <-] Hl. vm_compute in Hl. injection Hl as <-.
    repeat (constructor; [moderate_number|]). constructor.
  - intros l a [=].
Defined.


(** X2 at a dictionary that holds ['sigma'] only. *)
Lemma psf_type_missing_witness :
  ex_kwargs_psf_untyped !! "psf_type" = None
  ∧ array2image ex_Data_subgrid ∅ [Fin 1; of_Z 2; of_Z 3; of_Z 4]
      (_subgrid_res ex_Data_subgrid)
    = Ok [[Fin 1; of_Z 2]; [of_Z 3; of_Z 4]]
  ∧ psf_convolution ex_gaussian_filter ex_fftconvolve ex_fft_fftconvolve
      ex_subgrid_kernel ex_cut_psf ex_Data_subgrid [[Fin 1]] (Fin 1)
      ex_kwargs_psf_untyped
    = Ok [[Fin 1]]
  ∧ psf_fwhm ex_sigma2fwhm ex_fwhm_kernel ex_Data_subgrid
      ex_kwargs_psf_untyped
    = Ok (Fin 0)
  ∧ re_size_convolve ex_gaussian_filter ex_fftconvolve ex_fft_fftconvolve
      ex_subgrid_kernel ex_cut_psf ex_re_size ex_Data_subgrid ∅
      [Fin 1; of_Z 2; of_Z 3; of_Z 4] ex_kwargs_psf_untyped false
    = Raise (KeyError "psf_type").
Proof.
  split; [reflexivity|]. split; [reflexivity|].
  apply psf_type_missing
    with (img := [[Fin 1; of_Z 2]; [of_Z 3; of_Z 4]]); reflexivity.
Defined.

(** X3 at [ex_Data_subgrid]. *)
Lemma re_size_convolve_NONE_witness :
  ex_kwargs_psf_NONE !! "psf_type" = Some (PStr "NONE")
  ∧ re_size_convolve ex_gaussian_filter ex_fftconvolve ex_fft_fftconvolve
      ex_subgrid_kernel ex_cut_psf ex_re_size ex_Data_subgrid ∅
      [Fin 1; of_Z 2; of_Z 3; of_Z 4] ex_kwargs_psf_NONE false
    = re_size_convolve ex_gaussian_filter ex_fftconvolve ex_fft_fftconvolve
        ex_subgrid_kernel ex_cut_psf ex_re_size ex_Data_subgrid ∅
        [Fin 1; of_Z 2; of_Z 3; of_Z 4] ex_kwargs_psf_NONE true.
Proof.
  split; [reflexivity|]. apply re_size_convolve_NONE. reflexivity.
Defined.

(** X4 at dictionaries that hold the PSF type only. *)
Lemma psf_convolution_missing_key_witness :
  (ex_kwargs_psf_gaussian !! "psf_type" = Some (PStr "gaussian")
   ∧ ex_kwargs_psf_gaussian !! "sigma" = None
   ∧ psf_convolution ex_gaussian_filter ex_fftconvolve ex_fft_fftconvolve
       ex_subgrid_kernel ex_cut_psf ex_Data [[Fin 1]] (Fin 1)
       ex_kwargs_psf_gaussian
     = Raise (KeyError "sigma"))
  ∧ (ex_kwargs_psf_pixel !! "psf_type" = Some (PStr "pixel")
     ∧ ex_kwargs_psf_pixel !! "kernel_pixel" = None
     ∧ psf_convolution ex_gaussian_filter ex_fftconvolve ex_fft_fftconvolve
         ex_subgrid_kernel ex_cut_psf ex_Data_sub [[Fin 1]] (Fin 1)
         ex_kwargs_psf_pixel
       = Raise (KeyError "kernel_pixel")).
Proof.
  split; (split; [reflexivity|]); (split; [reflexivity|]).
  - apply (proj1 (psf_convolution_missing_key ex_gaussian_filter
                    ex_fftconvolve ex_fft_fftconvolve ex_subgrid_kernel
                    ex_cut_psf ex_Data [[Fin 1]] (Fin 1)
                    ex_kwargs_psf_gaussian)); reflexivity.
  - apply (proj2 (psf_convolution_missing_key ex_gaussian_filter
                    ex_fftconvolve ex_fft_fftconvolve ex_subgrid_kernel
                    ex_cut_psf ex_Data_sub [[Fin 1]] (Fin 1)
                    ex_kwargs_psf_pixel)); reflexivity.
Defined.

(** X5 at [ex_Data_sub], whose PSF is subgrid-refined, and two cropping
    routines of which one rejects even sizes. *)
Lemma psf_convolution_cut_psf_odd_witness :
  (∀ kernel n, Z.odd n = true →
     ex_cut_psf kernel n = ex_cut_psf_odd kernel n)
  ∧ psf_convolution ex_gaussian_filter ex_fftconvolve ex_fft_fftconvolve
      ex_subgrid_kernel ex_cut_psf ex_Data_sub [[Fin 1; of_Z 2]] (Fin 1)
      ex_kwargs_psf_point
    = psf_convolution ex_gaussian_filter ex_fftconvolve ex_fft_fftconvolve
        ex_subgrid_kernel ex_cut_psf_odd ex_Data_sub [[Fin 1; of_Z 2]]
        (Fin 1) ex_kwargs_psf_point.
Proof.
  assert (∀ kernel n, Z.odd n = true →
            ex_cut_psf kernel n = ex_cut_psf_odd kernel n) as Hcut.
  { intros kernel n Hn. unfold ex_cut_psf, ex_cut_psf_odd.
    rewrite Hn. reflexivity. }
  split; [exact Hcut|].
  apply psf_convolution_cut_psf_odd. exact Hcut.
Defined.

(** The two routines differ on even sizes, and the convolution of X5 does
    return. *)
Example psf_convolution_cut_psf_example :
  ex_cut_psf (PArr [[Fin 1]]) 2 ≠ ex_cut_psf_odd (PArr [[Fin 1]]) 2
  ∧ psf_convolution ex_gaussian_filter ex_fftconvolve ex_fft_fftconvolve
      ex_subgrid_kernel ex_cut_psf_odd ex_Data_sub [[Fin 1; of_Z 2]]
      (Fin 1) ex_kwargs_psf_point
    = Ok [[Fin 1; of_Z 2]].
Proof.
  split; [discriminate|]. vm_compute.
  repeat (first [ reflexivity | apply Fin_eq; reflexivity | f_equal ]).
Qed.

(** X6 at a 1 by 2 mask and resolution 2. *)
Lemma subgrid_idex_count_witness :
  _subgrid_idex [Fin 1; Fin 0] 2%nat 1%nat 2%nat
  = Ok [Fin 1; Fin 1; Fin 0; Fin 0; Fin 1; Fin 1; Fin 0; Fin 0]
  ∧ count_true
      (valid_pixels [Fin 1; Fin 1; Fin 0; Fin 0; Fin 1; Fin 1; Fin 0; Fin 0])
    = (2 * 2 * count_true (valid_pixels [Fin 1; Fin 0]))%nat.
Proof.
  split; [reflexivity|].
  apply (subgrid_idex_count [Fin 1; Fin 0] 2%nat 1%nat 2%nat). reflexivity.
Defined.

(** X7 at a mask of three entries for a 1 by 2 grid. *)
Lemma subgrid_idex_raises_iff_witness :
  (0 < 1)%nat ∧ (0 < 2)%nat ∧ (0 < 2)%nat
  ∧ (_subgrid_idex [Fin 1; Fin 0; Fin 1] 2%nat 1%nat 2%nat
     = Raise reshape_error
     ↔ length [Fin 1; Fin 0; Fin 1] ≠ (1 * 2)%nat).
Proof.
  split; [lia|]. split; [lia|]. split; [lia|].
  apply subgrid_idex_raises_iff; lia.
Defined.

(** X8 at [ex_Data] and its stored data. *)
Lemma array2image_scatters_witness :
  _idex_mask_bool ex_Data = true
  ∧ heap ex_world !! _idex_mask ex_Data = Some [Fin 1; Fin 0; Fin 1; Fin 1]
  ∧ length (mask_at ex_Data [Fin 1; Fin 0; Fin 1; Fin 1] 1%nat)
    = (_nx ex_Data * 1 * (_ny ex_Data * 1))%nat
  ∧ length [Fin 1; of_Z 3; of_Z 4]
    = count_true
        (valid_pixels (mask_at ex_Data [Fin 1; Fin 0; Fin 1; Fin 1] 1%nat))
  ∧ ∃ g, array2image ex_Data (heap ex_world) [Fin 1; of_Z 3; of_Z 4] 1%nat
         = Ok g
         ∧ length g = (_nx ex_Data * 1)%nat
         ∧ Forall (λ r, length r = (_ny ex_Data * 1)%nat) g
         ∧ select
             (valid_pixels
                (mask_at ex_Data [Fin 1; Fin 0; Fin 1; Fin 1] 1%nat))
             (util_image2array g)
           = [Fin 1; of_Z 3; of_Z 4]
         ∧ ∀ i x,
             mask_at ex_Data [Fin 1; Fin 0; Fin 1; Fin 1] 1%nat !! i = Some x →
             neqb x (Fin 1) = false →
             util_image2array g !! i = Some (Fin 0).
Proof.
  do 4 (split; [reflexivity|]).
  apply array2image_scatters; reflexivity.
Defined.

(** X9 at [ex_Data]: at resolution 2 its subgrid mask does not have the
    size of the subgrid, and at resolution 1 a vector of two entries fits
    neither the three valid pixels nor the broadcast. *)
Lemma array2image_wrong_length_witness :
  _idex_mask_bool ex_Data = true
  ∧ heap ex_world !! _idex_mask ex_Data = Some [Fin 1; Fin 0; Fin 1; Fin 1]
  ∧ (length (mask_at ex_Data [Fin 1; Fin 0; Fin 1; Fin 1] 2%nat)
     ≠ (_nx ex_Data * 2 * (_ny ex_Data * 2))%nat
     ∧ array2image ex_Data (heap ex_world) [Fin 1; Fin 1] 2%nat
       = Raise index_error)
  ∧ (length (mask_at ex_Data [Fin 1; Fin 0; Fin 1; Fin 1] 1%nat)
     = (_nx ex_Data * 1 * (_ny ex_Data * 1))%nat
     ∧ length [Fin 1; Fin 1]
       ≠ count_true
           (valid_pixels (mask_at ex_Data [Fin 1; Fin 0; Fin 1; Fin 1] 1%nat))
     ∧ length [Fin 1; Fin 1] ≠ 1%nat
     ∧ array2image ex_Data (heap ex_world) [Fin 1; Fin 1] 1%nat
       = Raise assign_error).
Proof.
  split; [reflexivity|]. split; [reflexivity|].
  split.
  - split; [vm_compute; lia|].
    apply (proj1 (array2image_wrong_length ex_Data (heap ex_world)
                    [Fin 1; Fin 0; Fin 1; Fin 1] [Fin 1; Fin 1] 2%nat
                    eq_refl eq_refl)).
    vm_compute; lia.
  - split; [reflexivity|]. split; [vm_compute; lia|].
    split; [vm_compute; lia|].
    apply (proj2 (array2image_wrong_length ex_Data (heap ex_world)
                    [Fin 1; Fin 0; Fin 1; Fin 1] [Fin 1; Fin 1] 1%nat
                    eq_refl eq_refl)); [reflexivity|vm_compute; lia..].
Defined.

(** X10 at [ex_Data] and the value 7. *)
Lemma array2image_broadcasts_single_witness :
  _idex_mask_bool ex_Data = true
  ∧ heap ex_world !! _idex_mask ex_Data = Some [Fin 1; Fin 0; Fin 1; Fin 1]
  ∧ length (mask_at ex_Data [Fin 1; Fin 0; Fin 1; Fin 1] 1%nat)
    = (_nx ex_Data * 1 * (_ny ex_Data * 1))%nat
  ∧ ∃ g, array2image ex_Data (heap ex_world) [of_Z 7] 1%nat = Ok g
         ∧ util_image2array g
           = map (λ x, if neqb x (Fin 1) then of_Z 7 else Fin 0)
                 (mask_at ex_Data [Fin 1; Fin 0; Fin 1; Fin 1] 1%nat).
Proof.
  do 3 (split; [reflexivity|]).
  apply array2image_broadcasts_single; reflexivity.
Defined.

(** X11 at [ex_Data_sub]: four subgrid values for the one valid native
    pixel. *)
Lemma array2image_subgrid_witness :
  _idex_mask_bool ex_Data_sub = true
  ∧ heap ex_world_sub !! _idex_mask ex_Data_sub = Some [Fin 1; Fin 0]
  ∧ length [Fin 1; Fin 0] = (_nx ex_Data_sub * _ny ex_Data_sub)%nat
  ∧ (0 < 2)%nat
  ∧ _subgrid_idex [Fin 1; Fin 0] 2%nat (_nx ex_Data_sub) (_ny ex_Data_sub)
    = Ok (_idex_mask_sub ex_Data_sub)
  ∧ length [Fin 1; of_Z 2; of_Z 3; of_Z 4]
    = (2 * 2 * count_true (valid_pixels [Fin 1; Fin 0]))%nat
  ∧ ∃ g, array2image ex_Data_sub (heap ex_world_sub)
           [Fin 1; of_Z 2; of_Z 3; of_Z 4] 2%nat = Ok g
         ∧ select (valid_pixels (mask_at ex_Data_sub [Fin 1; Fin 0] 2%nat))
             (util_image2array g)
           = [Fin 1; of_Z 2; of_Z 3; of_Z 4].
Proof.
  split; [reflexivity|]. split; [reflexivity|]. split; [reflexivity|].
  split; [lia|]. split; [reflexivity|]. split; [reflexivity|].
  apply array2image_subgrid; [reflexivity..|lia|reflexivity|reflexivity].
Defined.

(** X12 at [ex_Data] and an image of three pixels. *)
Lemma image2array_raises_iff_witness :
  _idex_mask_bool ex_Data = true
  ∧ heap ex_world !! _idex_mask ex_Data = Some [Fin 1; Fin 0; Fin 1; Fin 1]
  ∧ (image2array ex_Data (heap ex_world) [[Fin 1; of_Z 2]; [of_Z 3]]
     = Raise index_error
     ↔ length (util_image2array [[Fin 1; of_Z 2]; [of_Z 3]])
       ≠ length [Fin 1; Fin 0; Fin 1; Fin 1]).
Proof.
  split; [reflexivity|]. split; [reflexivity|].
  apply image2array_raises_iff; reflexivity.
Defined.


(** X14 at a heap whose exposure map is empty. *)
Lemma covariance_matrix_empty_map_witness :
  heap ex_world_empty_map !! 0%nat = Some []
  ∧ (covariance_matrix [Fin 1] (Fin 1) (Map 0%nat) ex_world_empty_map).1
    = Raise empty_max_error
  ∧ stdout
      (covariance_matrix [Fin 1] (Fin 1) (Map 0%nat) ex_world_empty_map).2
    = stdout ex_world_empty_map.
Proof.
  split; [reflexivity|].
  apply covariance_matrix_empty_map. reflexivity.
Defined.

(** X15 at the exposure time -3. *)
Lemma covariance_matrix_nonpositive_scalar_witness :
  nleb (of_Z (-3)) (Fin 0) = true
  ∧ covariance_matrix [Fin 1; of_Z 2] (Fin 1) (Scalar (of_Z (-3))) ex_world
    = covariance_matrix [Fin 1; of_Z 2] (Fin 1) (Scalar (Fin 1)) ex_world.
Proof.
  split; [reflexivity|].
  apply covariance_matrix_nonpositive_scalar. reflexivity.
Defined.

(** X17 at [ex_Data] and a constant model. *)
Lemma log_likelihood_nonpositive_witness :
  Data_wf ex_Data
  ∧ moderate_fit ex_Data [of_Z 5; of_Z 5; of_Z 5]
  ∧ error_term_fits ex_Data (Scal (Fin 0))
  ∧ Forall is_fin (entries (Scal (Fin 0)))
  ∧ length [of_Z 5; of_Z 5; of_Z 5] = length (_data ex_Data)
  ∧ Forall is_fin [of_Z 5; of_Z 5; of_Z 5]
  ∧ Forall nnonneg (mask ex_Data)
  ∧ (∃ L, log_likelihood ex_Data (Arr [of_Z 5; of_Z 5; of_Z 5])
            (Scal (Fin 0)) = Ok (Fin L)
          ∧ L ≤ 0)
  ∧ (npos (np_sum_list (mask ex_Data)) →
     ∃ c, reduced_chi2 ex_Data (Arr [of_Z 5; of_Z 5; of_Z 5])
            (Scal (Fin 0)) = Ok (Fin c)
          ∧ 0 ≤ c).
Proof.
  assert (moderate_fit ex_Data [of_Z 5; of_Z 5; of_Z 5]) as Hm
    by (apply ex_moderate_fit; moderate_residuals).
  split; [exact ex_Data_wf|]. split; [exact Hm|]. split; [exact I|].
  split; [repeat constructor|]. split; [reflexivity|].
  split; [repeat constructor|]. split; [repeat constructor|].
  apply log_likelihood_nonpositive;
    [exact ex_Data_wf|exact Hm|exact I|repeat constructor|reflexivity
    |repeat constructor|repeat constructor].
Defined.

(** X18 at [ex_Data] and two models that differ at the pixel of weight
    0. *)
Lemma masked_pixels_ignored_witness :
  Data_wf ex_Data
  ∧ moderate_fit ex_Data [of_Z 5; of_Z 5; of_Z 5]
  ∧ moderate_fit ex_Data [of_Z 5; of_Z 9; of_Z 5]
  ∧ error_term_fits ex_Data (Scal (Fin 0))
  ∧ Forall is_fin (entries (Scal (Fin 0)))
  ∧ length [of_Z 5; of_Z 5; of_Z 5] = length (_data ex_Data)
  ∧ Forall is_fin [of_Z 5; of_Z 5; of_Z 5]
  ∧ length [of_Z 5; of_Z 9; of_Z 5] = length (_data ex_Data)
  ∧ Forall is_fin [of_Z 5; of_Z 9; of_Z 5]
  ∧ (∀ i x, mask ex_Data !! i = Some x → x ≠ Fin 0 →
            [of_Z 5; of_Z 5; of_Z 5] !! i = [of_Z 5; of_Z 9; of_Z 5] !! i)
  ∧ log_likelihood ex_Data (Arr [of_Z 5; of_Z 5; of_Z 5]) (Scal (Fin 0))
    = log_likelihood ex_Data (Arr [of_Z 5; of_Z 9; of_Z 5]) (Scal (Fin 0))
  ∧ reduced_chi2 ex_Data (Arr [of_Z 5; of_Z 5; of_Z 5]) (Scal (Fin 0))
    = reduced_chi2 ex_Data (Arr [of_Z 5; of_Z 9; of_Z 5]) (Scal (Fin 0)).
Proof.
  assert (moderate_fit ex_Data [of_Z 5; of_Z 5; of_Z 5]) as Hm1
    by (apply ex_moderate_fit; moderate_residuals).
  assert (moderate_fit ex_Data [of_Z 5; of_Z 9; of_Z 5]) as Hm2
    by (apply ex_moderate_fit; moderate_residuals).
  assert (∀ i x, mask ex_Data !! i = Some x → x ≠ Fin 0 →
            [of_Z 5; of_Z 5; of_Z 5] !! i = [of_Z 5; of_Z 9; of_Z 5] !! i)
    as Hagree.
  { intros [|[|[|i]]] x; cbn; intros [= <-] Hx; try reflexivity.
    by destruct Hx. }
  split; [exact ex_Data_wf|]. split; [exact Hm1|]. split; [exact Hm2|].
  split; [exact I|].
  split; [repeat constructor|]. split; [reflexivity|].
  split; [repeat constructor|]. split; [reflexivity|].
  split; [repeat constructor|]. split; [exact Hagree|].
  apply masked_pixels_ignored;
    [exact ex_Data_wf|exact Hm1|exact Hm2|exact I|repeat constructor
    |reflexivity|repeat constructor|reflexivity|repeat constructor
    |exact Hagree].
Defined.

(** X19 at the run of the constructor that builds [ex_Data]. *)
Lemma Data_init_constructed_witness :
  Data_init ex_kwargs 1%nat false false (Fin 1) ex_world
  = (Ok ex_Data,
     (Data_init ex_kwargs 1%nat false false (Fin 1) ex_world).2)
  ∧ Data_constructed ex_Data
      (Data_init ex_kwargs 1%nat false false (Fin 1) ex_world).2.
Proof.
  split; [exact ex_Data_run|].
  apply (Data_init_constructed ex_kwargs 1%nat false false (Fin 1) ex_world).
  exact ex_Data_run.
Defined.

(** X20 at the run of the constructor that builds [ex_Data]. *)
Lemma constructed_statistics_return_witness :
  Data_init ex_kwargs 1%nat false false (Fin 1) ex_world
  = (Ok ex_Data,
     (Data_init ex_kwargs 1%nat false false (Fin 1) ex_world).2)
  ∧ length [of_Z 5; of_Z 5; of_Z 5] = length (_data ex_Data)
  ∧ error_term_fits ex_Data (Arr [Fin 1; Fin 1; Fin 1])
  ∧ (∃ r, reduced_residuals (λ x, x) ex_Data (Arr [of_Z 5; of_Z 5; of_Z 5])
            (Arr [Fin 1; Fin 1; Fin 1]) = Ok r)
  ∧ (∃ L, log_likelihood ex_Data (Arr [of_Z 5; of_Z 5; of_Z 5])
            (Arr [Fin 1; Fin 1; Fin 1]) = Ok L)
  ∧ (∃ c, reduced_chi2 ex_Data (Arr [of_Z 5; of_Z 5; of_Z 5])
            (Arr [Fin 1; Fin 1; Fin 1]) = Ok c).
Proof.
  split; [exact ex_Data_run|]. split; [reflexivity|]. split; [reflexivity|].
  apply (constructed_statistics_return ex_kwargs 1%nat false false (Fin 1)
           ex_world ex_Data
           (Data_init ex_kwargs 1%nat false false (Fin 1) ex_world).2);
    [exact ex_Data_run|reflexivity|reflexivity].
Defined.

(** X21 at the run of the constructor that builds [ex_Data], on a 2 by 2
    grid. *)
Lemma constructed_layout_witness :
  kw_numPix_xy ex_kwargs = Some (2, 2)%nat
  ∧ (0 < 2)%nat ∧ (0 < 2)%nat
  ∧ Data_init ex_kwargs 1%nat false false (Fin 1) ex_world
    = (Ok ex_Data,
       (Data_init ex_kwargs 1%nat false false (Fin 1) ex_world).2)
  ∧ _idex_mask_bool ex_Data = true
  ∧ (0 < _subgrid_res ex_Data)%nat
  ∧ (∀ a, length a
          = (_subgrid_res ex_Data * _subgrid_res ex_Data
             * length (_data ex_Data))%nat →
          ∃ g, array2image ex_Data
                 (heap (Data_init ex_kwargs 1%nat false false (Fin 1)
                          ex_world).2)
                 a (_subgrid_res ex_Data) = Ok g)
  ∧ (g ← array2image ex_Data
           (heap (Data_init ex_kwargs 1%nat false false (Fin 1)
                    ex_world).2)
           (_data ex_Data) 1;
     image2array ex_Data
       (heap (Data_init ex_kwargs 1%nat false false (Fin 1) ex_world).2) g)
    = Ok (_data ex_Data).
Proof.
  split; [reflexivity|]. split; [lia|]. split; [lia|].
  split; [exact ex_Data_run|]. split; [reflexivity|].
  split; [simpl; lia|].
  apply (constructed_layout ex_kwargs 1%nat false false (Fin 1) ex_world
           ex_Data _ 2%nat 2%nat);
    [reflexivity|lia|lia|exact ex_Data_run|reflexivity|simpl; lia].
Defined.

(** X22 at the run of the constructor that builds [ex_Data_flat]. *)
Lemma Data_init_wf_witness :
  heap_finite ex_world
  ∧ kwargs_moderate ex_kwargs_zero_mask ex_world
  ∧ Data_init ex_kwargs_zero_mask 1%nat false false (Fin 1) ex_world
    = (Ok ex_Data_flat,
       (Data_init ex_kwargs_zero_mask 1%nat false false (Fin 1)
          ex_world).2)
  ∧ Data_wf ex_Data_flat
  ∧ heap_finite
      (Data_init ex_kwargs_zero_mask 1%nat false false (Fin 1) ex_world).2.
Proof.
  split; [exact ex_world_finite|]. split; [exact ex_kwargs_moderate|].
  split; [exact ex_Data_flat_run|].
  apply (Data_init_wf ex_kwargs_zero_mask 1%nat false false (Fin 1)
           ex_world);
    [exact ex_world_finite|exact ex_kwargs_moderate|exact ex_Data_flat_run].
Defined.

(** X23 at a dictionary with both keys and a fast path that always
    fails. *)
Lemma psf_convolution_fft_failure_swallowed_witness :
  ex_kwargs_psf_both !! "psf_type" = Some (PStr "pixel")
  ∧ _psf_subgrid ex_Data = false
  ∧ ex_kwargs_psf_both !! "kernel_pixel"
    = Some (PArr [[Fin 1; Fin 1; Fin 1]])
  ∧ ex_kwargs_psf_both !! "kernel_fft" = Some (PObj 0%nat)
  ∧ ex_kwargs_psf_both !! "kernel_pixel_fft" = Some (PObj 0%nat)
  ∧ ex_fftconvolve [[Fin 1; Fin 0]] (PArr [[Fin 1; Fin 1; Fin 1]])
    = Ok (map (conv_row3 (Fin 1) (Fin 1) (Fin 1)) [[Fin 1; Fin 0]])
  ∧ psf_convolution ex_gaussian_filter ex_fftconvolve ex_fft_fftconvolve
      ex_subgrid_kernel ex_cut_psf ex_Data [[Fin 1; Fin 0]] (Fin 1)
      ex_kwargs_psf_both
    = Ok (match
            ex_fft_fftconvolve [[Fin 1; Fin 0]]
              (PArr [[Fin 1; Fin 1; Fin 1]]) (PObj 0%nat)
          with
          | Ok r' => r'
          | Raise _ => map (conv_row3 (Fin 1) (Fin 1) (Fin 1))
                         [[Fin 1; Fin 0]]
          end).
Proof.
  do 6 (split; [reflexivity|]).
  apply psf_convolution_fft_failure_swallowed with (kf' := PObj 0%nat);
    reflexivity.
Defined.

Lemma ex_image_data_allocated : image_data_allocated ex_kwargs ex_world.
Proof.
  intros l [= <-]. apply elem_of_dom. eexists. reflexivity.
Defined.

(** X24 at the run of the constructor that builds [ex_Data]. *)
Lemma constructed_compact_arrays_witness :
  image_data_allocated ex_kwargs ex_world
  ∧ Data_init ex_kwargs 1%nat false false (Fin 1) ex_world
    = (Ok ex_Data,
       (Data_init ex_kwargs 1%nat false false (Fin 1) ex_world).2)
  ∧ ∃ dv iv mv,
      heap (Data_init ex_kwargs 1%nat false false (Fin 1) ex_world).2
        !! _data_pure ex_Data = Some dv
      ∧ heap (Data_init ex_kwargs 1%nat false false (Fin 1) ex_world).2
          !! _idex_mask ex_Data = Some iv
      ∧ heap (Data_init ex_kwargs 1%nat false false (Fin 1) ex_world).2
          !! _mask_pure ex_Data = Some mv
      ∧ _data ex_Data = select (valid_pixels iv) dv
      ∧ _mask ex_Data = select (valid_pixels iv) mv
      ∧ ∀ i x, iv !! i = Some x → neqb x (Fin 0) = true →
               mv !! i = Some (Fin 0).
Proof.
  split; [exact ex_image_data_allocated|]. split; [exact ex_Data_run|].
  apply (constructed_compact_arrays ex_kwargs 1%nat false false (Fin 1)
           ex_world);
    [exact ex_image_data_allocated|exact ex_Data_run].
Defined.

(** ** The noise model on moderate magnitudes *)

(** C5 (amended): for every data vector, every background sigma between
    [small] and [large] (whose square neither underflows nor overflows) and
    every exposure that is a moderate exposure time (a scalar that is not
    positive, and replaced by 1, or lies between [small] and [large]) or a
    non-empty map, as long as the data, of positive moderate entries,
    [covariance_matrix] returns a vector of the data's length whose entries
    are all strictly greater than 0. *)
Theorem covariance_matrix_positive d sigma_b f w :
  moderate_pos sigma_b →
  exposure_safe w d f →
  ∃ v w', covariance_matrix d sigma_b f w = (Ok (Arr v), w')
          ∧ length v = length d ∧ Forall npos v.
Proof.
  intros Hs Hf. apply covariance_matrix_positive_mean.
  - destruct (moderate_pos_fin_pos _ Hs) as (q & -> & Hq).
    by apply npos_Fin.
  - by apply exposure_safe_admissible.
Qed.

(** C5 (amended) at an image with a negative pixel and an exposure map of
    positive entries. *)
Lemma covariance_matrix_positive_witness :
  moderate_pos (Fin 1)
  ∧ exposure_safe ex_world_exposure [Fin 1; of_Z (-2); of_Z 3; of_Z 4]
      (Map 1%nat)
  ∧ ∃ v w', covariance_matrix [Fin 1; of_Z (-2); of_Z 3; of_Z 4] (Fin 1)
              (Map 1%nat) ex_world_exposure = (Ok (Arr v), w')
            ∧ length v = length [Fin 1; of_Z (-2); of_Z 3; of_Z 4]
            ∧ Forall npos v.
Proof.
  assert (moderate_pos (Fin 1)) as Hs by moderate_number.
  split; [exact Hs|]. split; [exact ex_exposure_safe|].
  apply covariance_matrix_positive; [exact Hs|exact ex_exposure_safe].
Defined.

Example covariance_matrix_positive_example :
  (map view ∘ entries) <$>
    (covariance_matrix [Fin 1; of_Z (-2); of_Z 3; of_Z 4] (Fin 1)
       (Map 1%nat) ex_world_exposure).1
  = Ok [VFin (18 # 13); VFin 1; VFin (103 # 100); VFin (33 # 13)].
Proof. vm_compute. reflexivity. Qed.

(** ** Runs in binary64 *)

Section Float64_runs.

Import PrimFloat.
Local Open Scope float_scope.

(** C10 does not hold as stated: in binary64, with data 0, variance 1 and a
    fit mask that sums to 3, the model [[1, 2, 1, 0]] has the reduced
    chi-square [1/3 + 4/3 + 1/3], which rounds to 1.9999999999999998, while
    [-2 * log_likelihood / 3] is 2. *)
Lemma reduced_chi2_float64_counterexample :
  Float64.reduced_chi2 [0; 0; 0; 0] [1; 1; 1; 1] [1; 1; 1; 0] [1; 2; 1; 0] 0
  = 0x1.fffffffffffffp+0
  ∧ -2 * Float64.log_likelihood [0; 0; 0; 0] [1; 1; 1; 1] [1; 1; 1; 0]
           [1; 2; 1; 0] 0
    / Float64.np_sum [1; 1; 1; 0]
    = 2
  ∧ Float64.reduced_chi2 [0; 0; 0; 0] [1; 1; 1; 1] [1; 1; 1; 0] [1; 2; 1; 0] 0
    ≠ -2 * Float64.log_likelihood [0; 0; 0; 0] [1; 1; 1; 1] [1; 1; 1; 0]
             [1; 2; 1; 0] 0
      / Float64.np_sum [1; 1; 1; 0].
Proof.
  split; [vm_compute; reflexivity|]. split; [vm_compute; reflexivity|].
  intros H. apply (f_equal (λ z, PrimFloat.eqb z 2)) in H.
  vm_compute in H. discriminate.
Qed.

(** Far below [small] the square of the background sigma underflows in
    binary64: with [sigma_b = 1e-200] a pixel without flux gets the
    variance 0. *)
Example covariance_matrix_float64_underflow :
  Float64.covariance_matrix [0; 1] 0x1.87e92154ef7acp-665 1 = [0; 1].
Proof. vm_compute. reflexivity. Qed.

(** Far beyond [flux_bound] a term overflows: a model value of [1e200] at
    a pixel of weight 0 makes the log-likelihood [nan]. *)
Example log_likelihood_float64_overflow :
  PrimFloat.is_nan
    (Float64.log_likelihood [1; 3; 4] [1; 1; 1] [1; 0; 1]
       [5; 0x1.4e718d7d7625ap+664; 5] 0)
  = true
  ∧ Float64.log_likelihood [1; 3; 4] [1; 1; 1] [1; 0; 1] [5; 5; 5] 0
    = -8.5.
Proof. split; vm_compute; reflexivity. Qed.

End Float64_runs.
